(** * greenery's [fsm.py]: finite state machines, their algebra and their
      conversion to patterns

    A shallow embedding of [fsm.py] (class [fsm], [null], [epsilon], [_crawl])
    over stdpp's finite sets and maps, and the properties of the module's
    specification proved about it.

    Conventions of the embedding.
    - A Python [set]/[frozenset] is a [gset], a [dict] is a [gmap]; where the
      source iterates over one of them, the model iterates over [elements]
      (resp. [map_to_list]): one fixed enumeration, as for any one Python set
      value in one run.
    - A call either returns, raises, or keeps looping.  Every [while] loop of
      the source takes a bound [fuel] on its number of iterations in the
      model, and the third outcome [OutOfFuel] says that the bound was hit.
      Theorems that say that a call returns give a bound from which every
      [fuel] makes it return.
    - States are Python values: ints, strings and [None] occur in the
      module's own tests.  Symbols are any hashable values, so the symbol type
      is a parameter; Python's [str] on it is the class [Str], and [lego]'s
      constant [otherchars] is a parameter of [pattern]. *)

From Stdlib Require Import String.
From stdpp Require Import base tactics option list sets fin_sets gmap strings pretty sorting.

Set Default Goal Selector "!".
#[global] Set Warnings "-clear-no-such-hyp".


(** ** Exceptions and outcomes *)

(** The three messages with which [fsm.__init__] raises [BadFsmException]. *)
Inductive bad_fsm : Type :=
  | InitialNotInStates
  | FinalsNotInStates
  | BadMap.

Inductive exn : Type :=
  | BadFsmException (why : bad_fsm)
  | KeyError
  | IndexError
  | Exception.

Inductive outcome (A : Type) : Type :=
  | Ok (a : A)
  | Raise (e : exn)
  | OutOfFuel.
Arguments Ok {A} a.
Arguments Raise {A} e.
Arguments OutOfFuel {A}.

#[global] Instance outcome_ret : MRet outcome := @Ok.
#[global] Instance outcome_bind : MBind outcome := λ A B f m,
  match m with
  | Ok a => f a
  | Raise e => Raise e
  | OutOfFuel => OutOfFuel
  end.

(** [for x in l: body(x)], for a body that only checks. *)
Fixpoint for_each {A} (l : list A) (body : A → outcome unit) : outcome unit :=
  match l with
  | [] => Ok ()
  | x :: l => body x ;; for_each l body
  end.

(** [d[k]] on a dict. *)
Definition getitem `{Countable K} {V} (d : gmap K V) (k : K) : outcome V :=
  match d !! k with
  | Some v => Ok v
  | None => Raise KeyError
  end.

(** [l[i]] on a list. *)
Definition getidx {A} (l : list A) (i : nat) : outcome A :=
  match l !! i with
  | Some x => Ok x
  | None => Raise IndexError
  end.

(** [l.index(x)]. *)
Fixpoint index `{EqDecision A} (x : A) (l : list A) : option nat :=
  match l with
  | [] => None
  | y :: l => if decide (y = x) then Some 0 else S <$> index x l
  end.

(** [dict(l)] on a list of pairs: a later binding of a key wins. *)
Definition dict `{Countable K} {V} (l : list (K * V)) : gmap K V :=
  foldl (λ d kv, <[kv.1 := kv.2]> d) ∅ l.

(** ** States *)

Inductive State : Type :=
  | SInt (n : Z)
  | SStr (s : string)
  | SNone.

#[global] Instance state_eq_dec : EqDecision State.
Proof. solve_decision. Defined.

#[global] Instance state_countable : Countable State :=
  inj_countable'
    (λ s, match s with
          | SInt n => inl n
          | SStr s => inr (inl s)
          | SNone => inr (inr ())
          end)
    (λ x, match x with
          | inl n => SInt n
          | inr (inl s) => SStr s
          | inr (inr ()) => SNone
          end)
    (λ s, match s with SInt _ | SStr _ | SNone => eq_refl end).

(** The int [i] of a list index or a length, as a state. *)
Definition state_of_nat (i : nat) : State := SInt (Z.of_nat i).

(** [range(n)] as states. *)
Definition range (n : nat) : list State := state_of_nat <$> seq 0 n.

(** Python's [str] on the values of a type, the key of
    [sorted(alphabet, key=str)]. *)
Class Str (A : Type) := str : A → string.
#[global] Hint Mode Str ! : typeclass_instances.

(** [str] on states: the decimal digits of an int, a string itself, and
    ["None"]. *)
#[global] Instance State_str : Str State := λ s,
  match s with
  | SInt n => pretty n
  | SStr s => s
  | SNone => "None"
  end.

(** [s * n] on a string. *)
Fixpoint str_mul (s : string) (n : nat) : string :=
  match n with
  | 0 => ""
  | S n => s +:+ str_mul s n
  end.

(** [s.ljust(width)]: [s] with spaces on its right up to [width]. *)
Definition ljust (s : string) (width : nat) : string :=
  s +:+ str_mul " " (width - String.length s).

(** The join of [l] with the empty string as its separator. *)
Definition join (l : list string) : string := foldr String.append "" l.

(** The string of the line feed. *)
Definition newline : string := String (Ascii.ascii_of_nat 10) "".

Section Fsm.
Context {symbol : Type} `{Countable symbol} {symbol_str : Str symbol}.
(** [lego.otherchars]. *)
Variable otherchars : symbol.

(** ** The class [fsm] *)

Record fsm : Type := Fsm {
  alphabet : gset symbol;
  states : gset State;
  initial : State;
  finals : gset State;
  map : gmap State (gmap symbol State);
}.

(** [fsm.__init__]: the validation. *)
Definition __init__ (alphabet : gset symbol) (states : gset State)
    (initial : State) (finals : gset State)
    (map : gmap State (gmap symbol State)) : outcome fsm :=
  if decide (initial ∉ states) then Raise (BadFsmException InitialNotInStates)
  else if decide (¬ finals ⊆ states) then Raise (BadFsmException FinalsNotInStates)
  else
    for_each (elements states) (λ state,
      match map !! state with
      | None => Raise (BadFsmException BadMap)
      | Some row =>
          for_each (elements alphabet) (λ symbol,
            match row !! symbol with
            | None => Raise (BadFsmException BadMap)
            | Some next =>
                if decide (next ∉ states) then Raise (BadFsmException BadMap)
                else Ok ()
            end)
      end) ;;
    Ok (Fsm alphabet states initial finals map).

(** The loop of [fsm.accepts], from [state]. *)
Fixpoint walk (self : fsm) (state : State) (input : list symbol)
    : outcome State :=
  match input with
  | [] => Ok state
  | symbol :: input =>
      row ← getitem (map self) state;
      state ← getitem row symbol;
      walk self state input
  end.

Definition accepts (self : fsm) (input : list symbol) : outcome bool :=
  state ← walk self (initial self) input;
  Ok (bool_decide (state ∈ finals self)).

(** The loop of [fsm.equivalent] over the symbols. *)
Fixpoint equivalent_loop (self : fsm) (state1 state2 : State)
    (symbols : list symbol) : outcome bool :=
  match symbols with
  | [] => Ok true
  | symbol :: symbols =>
      row1 ← getitem (map self) state1;
      next1 ← getitem row1 symbol;
      row2 ← getitem (map self) state2;
      next2 ← getitem row2 symbol;
      let next1 := if decide (next1 = state2) then state1 else next1 in
      let next2 := if decide (next2 = state2) then state1 else next2 in
      if decide (next1 ≠ next2) then Ok false
      else equivalent_loop self state1 state2 symbols
  end.

Definition equivalent (self : fsm) (state1 state2 : State) : outcome bool :=
  if decide (bool_decide (state1 ∈ finals self) ≠ bool_decide (state2 ∈ finals self))
  then Ok false
  else equivalent_loop self state1 state2 (elements (alphabet self)).

(** [lookups[s]] in [fsm.replace]: [lookups] has the states as its keys. *)
Definition lookups (self : fsm) (this that s : State) : outcome State :=
  if decide (s ∈ states self) then Ok (if decide (s = this) then that else s)
  else Raise KeyError.

Definition replace (self : fsm) (this that : State) : outcome fsm :=
  let lookups := lookups self this that in
  states' ← mapM lookups (elements (states self));
  initial' ← lookups (initial self);
  finals' ← mapM lookups (elements (finals self));
  map' ← mapM (λ '(s, row),
            s' ← lookups s;
            row' ← mapM (λ '(a, next), next' ← lookups next; Ok (a, next'))
                        (map_to_list row);
            Ok (s', dict row'))
          (map_to_list (map self));
  __init__ (alphabet self) (list_to_set states') initial' (list_to_set finals')
           (dict map').

(** [trymerge]: the inner loop, over [that]. *)
Fixpoint trymerge_that (self : fsm) (this : State) (thats : list State)
    : outcome (option fsm) :=
  match thats with
  | [] => Ok None
  | that :: thats =>
      if decide (that = this) then trymerge_that self this thats
      else
        eq ← equivalent self this that;
        if eq : bool then new ← replace self this that; Ok (Some new)
        else trymerge_that self this thats
  end.

(** [trymerge]: the outer loop, over [this]. *)
Fixpoint trymerge_this (self : fsm) (thises : list State) : outcome (bool * fsm) :=
  match thises with
  | [] => Ok (false, self)
  | this :: thises =>
      found ← trymerge_that self this (elements (states self));
      match found with
      | Some new => Ok (true, new)
      | None => trymerge_this self thises
      end
  end.

Definition trymerge (self : fsm) : outcome (bool * fsm) :=
  trymerge_this self (elements (states self)).

(** [while(keepMerging): keepMerging, new = trymerge(new)]. *)
Fixpoint automerge_loop (fuel : nat) (new : fsm) : outcome fsm :=
  match fuel with
  | 0 => OutOfFuel
  | S fuel =>
      '(keepMerging, new) ← trymerge new;
      if keepMerging : bool then automerge_loop fuel new else Ok new
  end.

Definition automerge (fuel : nat) (self : fsm) : outcome fsm :=
  automerge_loop fuel self.

(** ** [_crawl] *)

(** [sorted(l, key=str)]: a stable sort on the keys. *)
Fixpoint insort (a : symbol) (l : list symbol) : list symbol :=
  match l with
  | [] => [a]
  | b :: l' => if String.leb (str a) (str b) then a :: l else b :: insort a l'
  end.

Definition sorted (l : list symbol) : list symbol := foldr insort [] l.

Section crawl.
Context {X : Type} `{EqDecision X}.
Variable isFinal : X → outcome bool.
Variable getNext : X → symbol → outcome X.

(** [for symbol in sorted(alphabet, key=str)]: the row of [state]. *)
Fixpoint crawl_row (state : X) (symbols : list symbol) (states : list X)
    (row : gmap symbol State) : outcome (list X * gmap symbol State) :=
  match symbols with
  | [] => Ok (states, row)
  | symbol :: symbols =>
      nextState ← getNext state symbol;
      match index nextState states with
      | Some j =>
          crawl_row state symbols states (<[symbol := state_of_nat j]> row)
      | None =>
          let j := length states in
          crawl_row state symbols (states ++ [nextState])
                    (<[symbol := state_of_nat j]> row)
      end
  end.

(** [while i < len(states)]. *)
Fixpoint crawl_loop (fuel : nat) (symbols : list symbol) (i : nat)
    (states : list X) (finals : gset State)
    (map : gmap State (gmap symbol State))
    : outcome (list X * gset State * gmap State (gmap symbol State)) :=
  match fuel with
  | 0 => OutOfFuel
  | S fuel =>
      match states !! i with
      | None => Ok (states, finals, map)
      | Some state =>
          final ← isFinal state;
          let finals :=
            if final : bool then {[state_of_nat i]} ∪ finals else finals in
          '(states, row) ← crawl_row state symbols states ∅;
          crawl_loop fuel symbols (i + 1) states finals
                     (<[state_of_nat i := row]> map)
      end
  end.

(** [_crawl], with [symbols] for the value of [sorted(alphabet, key=str)]. *)
Definition _crawl_from (symbols : list symbol) (fuel : nat)
    (alphabet : gset symbol) (initial : X) : outcome fsm :=
  '(states, finals, map) ← crawl_loop fuel symbols 0 [initial] ∅ ∅;
  result ← __init__ alphabet (list_to_set (range (length states))) (SInt 0)
                    finals map;
  automerge fuel result.

Definition _crawl (fuel : nat) (alphabet : gset symbol) (initial : X)
    : outcome fsm :=
  _crawl_from (sorted (elements alphabet)) fuel alphabet initial.

End crawl.

(** ** [null] and [epsilon] *)

Definition null (alphabet : gset symbol) : outcome fsm :=
  __init__ alphabet {[SInt 0]} (SInt 0) ∅
           {[SInt 0 := gset_to_gmap (SInt 0) alphabet]}.

Definition epsilon (alphabet : gset symbol) : outcome fsm :=
  __init__ alphabet {[SInt 0; SInt 1]} (SInt 0) {[SInt 0]}
           (<[SInt 0 := gset_to_gmap (SInt 1) alphabet]>
              {[SInt 1 := gset_to_gmap (SInt 1) alphabet]}).

(** ** Concatenation *)

Fixpoint add_isFinal (self other : fsm) (currentState : list (nat * State))
    : outcome bool :=
  match currentState with
  | [] => Ok false
  | (fsmId, state) :: currentState =>
      if decide (fsmId = 0) then
        if decide (state ∈ finals self) then
          if decide (initial other ∈ finals other) then Ok true
          else add_isFinal self other currentState
        else add_isFinal self other currentState
      else if decide (fsmId = 1) then
        if decide (state ∈ finals other) then Ok true
        else add_isFinal self other currentState
      else Raise Exception
  end.

Fixpoint add_getNext (self other : fsm) (symbol : symbol)
    (currentState nextStates : list (nat * State))
    : outcome (list (nat * State)) :=
  match currentState with
  | [] => Ok nextStates
  | (fsmId, state) :: currentState =>
      if decide (fsmId = 0) then
        row ← getitem (map self) state;
        next ← getitem row symbol;
        let nextStates := nextStates ++ [(0, next)] in
        let nextStates :=
          if decide (next ∈ finals self)
          then nextStates ++ [(1, initial other)] else nextStates in
        add_getNext self other symbol currentState nextStates
      else if decide (fsmId = 1) then
        row ← getitem (map other) state;
        next ← getitem row symbol;
        add_getNext self other symbol currentState (nextStates ++ [(1, next)])
      else Raise Exception
  end.

Definition __add__ (fuel : nat) (self other : fsm) : outcome fsm :=
  if decide (alphabet other ≠ alphabet self) then Raise Exception
  else
    let newInitial : gset (nat * State) :=
      if decide (initial self ∈ finals self)
      then list_to_set [(0, initial self); (1, initial other)]
      else list_to_set [(0, initial self)] in
    let isFinal currentState := add_isFinal self other (elements currentState) in
    let getNext currentState symbol :=
      nextStates ← add_getNext self other symbol (elements currentState) [];
      Ok (list_to_set nextStates) in
    _crawl isFinal getNext fuel (alphabet self) newInitial.

(** ** Kleene star *)

(** [while omegaState in self.states: omegaState += 1]. *)
Fixpoint star_omega (fuel : nat) (self : fsm) (omegaState : Z) : outcome Z :=
  match fuel with
  | 0 => OutOfFuel
  | S fuel =>
      if decide (SInt omegaState ∈ states self)
      then star_omega fuel self (omegaState + 1)
      else Ok omegaState
  end.

Fixpoint star_getNext (self : fsm) (omegaState : State) (symbol : symbol)
    (currentState nextState : list State) : outcome (list State) :=
  match currentState with
  | [] => Ok nextState
  | state :: currentState =>
      let state := if decide (state = omegaState) then initial self else state in
      row ← getitem (map self) state;
      nextAState ← getitem row symbol;
      let nextState := nextState ++ [nextAState] in
      let nextState :=
        if decide (nextAState ∈ finals self)
        then nextState ++ [omegaState] else nextState in
      star_getNext self omegaState symbol currentState nextState
  end.

Definition star (fuel : nat) (self : fsm) : outcome fsm :=
  omegaState ← star_omega fuel self 0;
  let omegaState := SInt omegaState in
  let newInitial : gset State := list_to_set [omegaState] in
  let getNext currentState symbol :=
    nextState ← star_getNext self omegaState symbol (elements currentState) [];
    Ok (list_to_set nextState) in
  let isFinal (currentState : gset State) :=
    Ok (bool_decide (omegaState ∈ currentState)) in
  _crawl isFinal getNext fuel (alphabet self) newInitial.

(** ** Alternation and intersection *)

Definition or_getNext (self other : fsm) (currentState : State * State)
    (symbol : symbol) : outcome (State * State) :=
  row0 ← getitem (map self) currentState.1;
  next0 ← getitem row0 symbol;
  row1 ← getitem (map other) currentState.2;
  next1 ← getitem row1 symbol;
  Ok (next0, next1).

Definition or_isFinal (self other : fsm) (currentState : State * State)
    : outcome bool :=
  Ok (bool_decide (currentState.1 ∈ finals self)
      || bool_decide (currentState.2 ∈ finals other)).

Definition __or__ (fuel : nat) (self other : fsm) : outcome fsm :=
  if decide (alphabet other ≠ alphabet self) then Raise Exception
  else
    let newInitial := (initial self, initial other) in
    _crawl (or_isFinal self other) (or_getNext self other) fuel
           (alphabet self) newInitial.

Definition and_getNext (self other : fsm) (currentState : State * State)
    (symbol : symbol) : outcome (State * State) :=
  row0 ← getitem (map self) currentState.1;
  next0 ← getitem row0 symbol;
  row1 ← getitem (map other) currentState.2;
  next1 ← getitem row1 symbol;
  Ok (next0, next1).

Definition and_isFinal (self other : fsm) (currentState : State * State)
    : outcome bool :=
  Ok (bool_decide (currentState.1 ∈ finals self)
      && bool_decide (currentState.2 ∈ finals other)).

Definition __and__ (fuel : nat) (self other : fsm) : outcome fsm :=
  if decide (alphabet other ≠ alphabet self) then Raise Exception
  else
    let newInitial := (initial self, initial other) in
    _crawl (and_isFinal self other) (and_getNext self other) fuel
           (alphabet self) newInitial.

(** ** Multiplication *)

(** [for i in range(n): output += q]. *)
Fixpoint mul_loop (n : nat) (fuel : nat) (output q : fsm) : outcome fsm :=
  match n with
  | 0 => Ok output
  | S n => output ← __add__ fuel output q; mul_loop n fuel output q
  end.

(** [max = None] stands for infinity. *)
Definition __mul__ (fuel : nat) (self : fsm) (multiplier : Z * option Z)
    : outcome fsm :=
  let '(min, max) := multiplier in
  output ← epsilon (alphabet self);
  output ← mul_loop (Z.to_nat min) fuel output self;
  match max with
  | None => s ← star fuel self; __add__ fuel output s
  | Some max =>
      e ← epsilon (alphabet self);
      q ← __or__ fuel self e;
      mul_loop (Z.to_nat (max - min)) fuel output q
  end.

(** ** Patterns *)

(** Modelled from the spec: the pattern values of the [lego] module, which
    is not part of [fsm.py].  The specification gives it as an expression
    algebra with the empty-language constant, the empty string, classes of
    symbols with their complements, alternation ([p | q]), concatenation
    ([p + q]) and closure ([p * star]); the constructors below are these, with
    no simplification. *)
Inductive lego : Type :=
  | nothing
  | emptystring
  | charclass (chars : gset symbol) (negated : bool)
  | lego_or (p q : lego)
  | lego_add (p q : lego)
  | lego_mul_star (p : lego).


(** A dict that is iterated over while it is updated: the bindings in
    insertion order. *)
Section odict.
Context {K V : Type} `{EqDecision K}.

Fixpoint od_lookup (k : K) (d : list (K * V)) : option V :=
  match d with
  | [] => None
  | (k', v) :: d => if decide (k' = k) then Some v else od_lookup k d
  end.

(** [d[k] = v]: in place for a key of [d], at the end for a new one. *)
Fixpoint od_set (k : K) (v : V) (d : list (K * V)) : list (K * V) :=
  match d with
  | [] => [(k, v)]
  | (k', v') :: d => if decide (k' = k) then (k', v) :: d else (k', v') :: od_set k v d
  end.

(** [del d[k]]. *)
Fixpoint od_del (k : K) (d : list (K * V)) : list (K * V) :=
  match d with
  | [] => []
  | (k', v') :: d => if decide (k' = k) then d else (k', v') :: od_del k d
  end.

Definition od_getitem (d : list (K * V)) (k : K) : outcome V :=
  match od_lookup k d with
  | Some v => Ok v
  | None => Raise KeyError
  end.

End odict.

(** The class [equation] of [fsm.pattern]: [None] as a key of [lefts] is
    [outside]. *)
Record equation : Type := Equation {
  right : gset State;
  lefts : list (option (gset State) * lego);
}.

Definition addTransition (lefts : list (option (gset State) * lego))
    (left : option (gset State)) (element : lego)
    : list (option (gset State) * lego) :=
  match od_lookup left lefts with
  | Some e => od_set left (lego_or e element) lefts
  | None => od_set left element lefts
  end.

(** [[prev for prev in fsm.map if fsm.map[prev][symbol] == state]]. *)
Fixpoint equation_prevs (rows : list (State * gmap symbol State))
    (symbol : symbol) (state : State) : outcome (list State) :=
  match rows with
  | [] => Ok []
  | (prev, row) :: rows =>
      next ← getitem row symbol;
      prevs ← equation_prevs rows symbol state;
      Ok (if decide (next = state) then prev :: prevs else prevs)
  end.

(** [for state in right: left.update(...)]. *)
Fixpoint equation_left (fsm : fsm) (symbol : symbol) (right : list State)
    (left : gset State) : outcome (gset State) :=
  match right with
  | [] => Ok left
  | state :: right =>
      prevs ← equation_prevs (map_to_list (map fsm)) symbol state;
      equation_left fsm symbol right (left ∪ list_to_set prevs)
  end.

(** [for symbol in sorted(fsm.alphabet, key=str)]. *)
Fixpoint equation_symbols (fsm : fsm) (right : gset State)
    (symbols : list symbol) (lefts : list (option (gset State) * lego))
    : outcome (list (option (gset State) * lego)) :=
  match symbols with
  | [] => Ok lefts
  | symbol :: symbols =>
      left ← equation_left fsm symbol (elements right) ∅;
      let lefts :=
        if decide (symbol = otherchars)
        then addTransition lefts (Some left)
               (charclass (alphabet fsm ∖ {[otherchars]}) true)
        else addTransition lefts (Some left) (charclass {[symbol]} false) in
      equation_symbols fsm right symbols lefts
  end.

(** [equation.__init__], with [symbols] for the value of
    [sorted(fsm.alphabet, key=str)]. *)
Definition equation_init_from (symbols : list symbol) (right : gset State)
    (fsm : fsm) : outcome equation :=
  lefts ← equation_symbols fsm right symbols [];
  let lefts :=
    if decide (initial fsm ∈ right) then addTransition lefts None emptystring
    else lefts in
  Ok (Equation right lefts).

Definition equation_init (right : gset State) (fsm : fsm) : outcome equation :=
  equation_init_from (sorted (elements (alphabet fsm))) right fsm.

Definition applyLoops (self : equation) : equation :=
  match od_lookup (Some (right self)) (lefts self) with
  | None => self
  | Some e =>
      let loop := lego_mul_star e in
      let lefts := od_del (Some (right self)) (lefts self) in
      Equation (right self) ((λ '(l, e), (l, lego_add e loop)) <$> lefts)
  end.

(** [for otherLeft in other.lefts] in [equation.eliminate]. *)
Fixpoint eliminate_lefts (other_right : gset State)
    (other_lefts lefts : list (option (gset State) * lego))
    : outcome (list (option (gset State) * lego)) :=
  match other_lefts with
  | [] => Ok lefts
  | (otherLeft, e) :: other_lefts =>
      if decide (otherLeft = Some other_right) then Raise Exception
      else
        e' ← od_getitem lefts (Some other_right);
        let otherTransition := lego_add e e' in
        eliminate_lefts other_right other_lefts
                        (addTransition lefts otherLeft otherTransition)
  end.

Definition eliminate (self other : equation) : outcome equation :=
  match od_lookup (Some (right other)) (lefts self) with
  | None => Ok self
  | Some _ =>
      lefts ← eliminate_lefts (right other) (lefts other) (lefts self);
      Ok (Equation (right self) (od_del (Some (right other)) lefts))
  end.

(** [for right in equations[i].lefts]: the newly found state-sets. *)
Fixpoint pattern_record (self : fsm) (rights : list (option (gset State)))
    (equations : list equation) : outcome (list equation) :=
  match rights with
  | [] => Ok equations
  | r :: rights =>
      match r with
      | Some r =>
          if decide (r ∉ right <$> equations) then
            e ← equation_init r self;
            pattern_record self rights (equations ++ [e])
          else pattern_record self rights equations
      | None => pattern_record self rights equations
      end
  end.

(** [while i < len(equations)]. *)
Fixpoint pattern_generate (fuel : nat) (self : fsm) (i : nat)
    (equations : list equation) : outcome (list equation) :=
  match fuel with
  | 0 => OutOfFuel
  | S fuel =>
      match equations !! i with
      | None => Ok equations
      | Some e =>
          equations ← pattern_record self (lefts e).*1 equations;
          pattern_generate fuel self (i + 1) equations
      end
  end.

(** [for j in reversed(range(i)): equations[j].eliminate(equations[i])]. *)
Fixpoint pattern_eliminate (js : list nat) (i : nat) (equations : list equation)
    : outcome (list equation) :=
  match js with
  | [] => Ok equations
  | j :: js =>
      ej ← getidx equations j;
      ei ← getidx equations i;
      ej ← eliminate ej ei;
      pattern_eliminate js i (<[j := ej]> equations)
  end.

(** [for i in reversed(range(len(equations)))]. *)
Fixpoint pattern_backfill (indices : list nat) (equations : list equation)
    : outcome (list equation) :=
  match indices with
  | [] => Ok equations
  | i :: indices =>
      ei ← getidx equations i;
      let equations := <[i := applyLoops ei]> equations in
      equations ← pattern_eliminate (reverse (seq 0 i)) i equations;
      pattern_backfill indices equations
  end.

Definition pattern (fuel : nat) (self : fsm) : outcome lego :=
  e ← equation_init (finals self) self;
  equations ← pattern_generate fuel self 0 [e];
  equations ← pattern_backfill (reverse (seq 0 (length equations))) equations;
  e ← getidx equations 0;
  match od_lookup None (lefts e) with
  | Some p => Ok p
  | None => Ok nothing
  end.

(** ** [__repr__] *)

(** [str(self.map[state][symbol]) for symbol in sorted(self.alphabet, key=str)]. *)
Definition repr_cells (self : fsm) (state : State) (symbols : list symbol)
    : outcome (list string) :=
  mapM (λ symbol,
          row ← getitem (map self) state;
          next ← getitem row symbol;
          Ok (str next))
       symbols.

(** The row of [state]. *)
Definition repr_state (self : fsm) (symbols : list symbol) (state : State)
    : outcome (list string) :=
  let row := [] in
  let row := row ++ [if decide (state = initial self) then "*" else ""] in
  let row := row ++ [str state] in
  let row :=
    row ++ [if decide (state ∈ finals self) then "True" else "False"] in
  cells ← repr_cells self state symbols;
  Ok (row ++ cells).

(** The top row and the rows of the states, before the padding. *)
Definition repr_rows (self : fsm) : outcome (list (list string)) :=
  let rows := [] in
  let row := ["" ; "name"; "isFinal"] in
  let row := row ++ (str <$> sorted (elements (alphabet self))) in
  let rows := rows ++ [row] in
  others ← mapM (repr_state self (sorted (elements (alphabet self))))
                (elements (states self));
  Ok (rows ++ others).

(** [colwidths]: for column [x], one more than the length of its longest
    entry.  [rows[0]] is read first, so that [max] has an argument. *)
Definition repr_colwidths (rows : list (list string)) : outcome (list nat) :=
  row0 ← getidx rows 0;
  mapM (λ x,
          cells ← mapM (λ row, getidx row x) rows;
          Ok (max_list (String.length <$> cells) + 1))
       (seq 0 (length row0)).

(** [rows[y][x] = rows[y][x].ljust(colwidths[x])] for the row [rows[y]]. *)
Definition repr_pad (colwidths : list nat) (row : list string)
    : outcome (list string) :=
  mapM (λ x,
          cell ← getidx row x;
          width ← getidx colwidths x;
          Ok (ljust cell width))
       (seq 0 (length row)).

(** The horizontal line. *)
Definition repr_rule (colwidths : list nat) (rows : list (list string))
    : outcome (list string) :=
  row0 ← getidx rows 0;
  mapM (λ x, width ← getidx colwidths x; Ok (str_mul "-" width))
       (seq 0 (length row0)).

(** The table of [__repr__]: the padded rows, with the horizontal line
    inserted at index 1. *)
Definition repr_table (self : fsm) : outcome (list (list string)) :=
  rows ← repr_rows self;
  colwidths ← repr_colwidths rows;
  rows ← mapM (repr_pad colwidths) rows;
  rule ← repr_rule colwidths rows;
  Ok (take 1 rows ++ [rule] ++ drop 1 rows).

Definition __repr__ (self : fsm) : outcome string :=
  rows ← repr_table self;
  Ok (join ((λ row, join row +:+ newline) <$> rows)).

(** ** Validity *)

(** [self] passes the validation of [fsm.__init__]. *)
Definition validated (self : fsm) : Prop :=
  __init__ (alphabet self) (states self) (initial self) (finals self) (map self)
  = Ok self.

(** The transition map is complete: every state has a row, every row has every
    symbol of the alphabet, with a state as its value. *)
Definition complete (alphabet : gset symbol) (states : gset State)
    (map : gmap State (gmap symbol State)) : Prop :=
  ∀ state, state ∈ states →
    ∃ row, map !! state = Some row ∧
      ∀ symbol, symbol ∈ alphabet →
        ∃ next, row !! symbol = Some next ∧ next ∈ states.

(** The invariants of the data model: [validated], and a transition map that
    is defined on the states and the alphabet exactly. *)
Definition valid (self : fsm) : Prop :=
  validated self ∧
  dom (map self) = states self ∧
  map_Forall (λ _ row, dom row = alphabet self) (map self).

(** No two distinct states of [self] are equivalent: [trymerge] finds nothing
    to merge. *)
Definition merged (self : fsm) : Prop :=
  ∀ this that, this ∈ states self → that ∈ states self → that ≠ this →
    equivalent self this that = Ok false.

(** The transition map mentions states of [self] only, as keys and as
    values. *)
Definition map_closed (self : fsm) : Prop :=
  map_Forall (λ s row, s ∈ states self ∧
                       map_Forall (λ _ next, next ∈ states self) row)
             (map self).

(** [validated] and [valid] as functions to [bool]. *)
Definition validated_check (self : fsm) : bool :=
  match __init__ (alphabet self) (states self) (initial self) (finals self)
                 (map self) with
  | Ok _ => true
  | _ => false
  end.

Definition valid_check (self : fsm) : bool :=
  validated_check self
  && bool_decide (dom (map self) = states self)
  && bool_decide (map_Forall (λ _ row, dom row = alphabet self) (map self)).

(** [lookups] of [fsm.replace] as a function. *)
Definition rename (this that s : State) : State :=
  if decide (s = this) then that else s.

(** The transition function of a validated automaton: [self.map[q][a]]. *)
Definition delta (self : fsm) (q : State) (a : symbol) : State :=
  default q (map self !! q ≫= λ row, row !! a).

(** The cells of the table of [__repr__] before the padding: the top row with
    the names of the columns, and the row of a state, with its mark, its
    name, its finality and its transitions. *)
Definition repr_names (self : fsm) : list string :=
  ["" ; "name"; "isFinal"] ++ (str <$> sorted (elements (alphabet self))).

Definition repr_line (self : fsm) (state : State) : list string :=
  [if decide (state = initial self) then "*" else "";
   str state;
   if decide (state ∈ finals self) then "True" else "False"]
  ++ ((λ a, str (delta self state a)) <$> sorted (elements (alphabet self))).

(** The subsets of the set of the elements of [l]. *)
Fixpoint subsets `{Countable A} (l : list A) : list (gset A) :=
  match l with
  | [] => [∅]
  | x :: l => subsets l ++ (({[x]} ∪.) <$> subsets l)
  end.

(** The closure of a language: the concatenations of words of [L]. *)
Inductive in_star (L : list symbol → Prop) : list symbol → Prop :=
  | in_star_nil : in_star L []
  | in_star_app u v : L u → in_star L v → in_star L (u ++ v).

(** The concatenations of [n] words of [L]. *)
Fixpoint in_power (L : list symbol → Prop) (n : nat) (w : list symbol) : Prop :=
  match n with
  | 0 => w = []
  | S n => ∃ u v, w = u ++ v ∧ L u ∧ in_power L n v
  end.

(** A bound on the superstates of [n] concatenations in a row, from an
    automaton of [s] states with one of [t] states. *)
Fixpoint mul_fuel (n s t : nat) : nat :=
  match n with
  | 0 => 0
  | S n => 2 ^ (s + t) `max` mul_fuel n (2 ^ (s + t)) t
  end.

(** A bound on the states of the result of these [n] concatenations. *)
Fixpoint mul_size (n s t : nat) : nat :=
  match n with
  | 0 => s
  | S n => mul_size n (2 ^ (s + t)) t
  end.







(** The run of [accepts] as a relation: one transition per symbol, from the
    left. *)
Inductive steps (self : fsm) : State → list symbol → State → Prop :=
  | steps_nil state : steps self state [] state
  | steps_cons state symbol input row next state' :
      map self !! state = Some row →
      row !! symbol = Some next →
      steps self next input state' →
      steps self state (symbol :: input) state'.

(** * Properties *)

(** ** Outcomes *)

Lemma bind_Ok {A B} (m : outcome A) (f : A → outcome B) b :
  m ≫= f = Ok b ↔ ∃ a, m = Ok a ∧ f a = Ok b.
Proof. destruct m; simpl; split; try naive_solver. Qed.

Lemma getitem_Ok `{Countable K} {V} (d : gmap K V) k v :
  getitem d k = Ok v ↔ d !! k = Some v.
Proof. unfold getitem. destruct (d !! k); naive_solver. Qed.

Lemma for_each_Ok {A} (l : list A) body :
  for_each l body = Ok () ↔ Forall (λ x, body x = Ok ()) l.
Proof.
  induction l as [|x l IH]; simpl.
  - split; [constructor|done].
  - rewrite Forall_cons, <- IH. destruct (body x) as [[]| |]; simpl; naive_solver.
Qed.

Lemma for_each_Raise {A} (l : list A) body e :
  for_each l body = Raise e → ∃ x, x ∈ l ∧ body x = Raise e.
Proof.
  induction l as [|x l IH]; simpl; [done|].
  destruct (body x) as [[]| |] eqn:Hx; simpl; intros Hl; simplify_eq.
  - destruct (IH Hl) as (y & ? & ?). exists y. split; [by right|done].
  - exists x. split; [by left|done].
Qed.

Lemma for_each_fuel {A} (l : list A) body :
  (∀ x, body x ≠ OutOfFuel) → for_each l body ≠ OutOfFuel.
Proof.
  intros Hb. induction l as [|x l IH]; simpl; [done|].
  specialize (Hb x). destruct (body x) as [[]| |]; simpl; done.
Qed.

(** ** The validation *)

Lemma init_row_Ok (alphabet0 : gset symbol) (states0 : gset State)
    (row : gmap symbol State) :
  for_each (elements alphabet0) (λ symbol,
    match row !! symbol with
    | None => Raise (BadFsmException BadMap)
    | Some next =>
        if decide (next ∉ states0) then Raise (BadFsmException BadMap) else Ok ()
    end) = Ok ()
  ↔ ∀ symbol, symbol ∈ alphabet0 →
      ∃ next, row !! symbol = Some next ∧ next ∈ states0.
Proof.
  rewrite for_each_Ok, Forall_forall. setoid_rewrite elem_of_elements.
  split; intros Hr a Hs; specialize (Hr a Hs).
  - destruct (row !! a) as [next|]; [|done].
    destruct (decide (next ∉ states0)) as [|Hn]; [done|].
    exists next. split; [done|]. by apply dec_stable.
  - destruct Hr as (next & -> & ?). by rewrite decide_False by auto.
Qed.

Lemma init_rows_Ok (alphabet0 : gset symbol) (states0 : gset State)
    (map0 : gmap State (gmap symbol State)) :
  for_each (elements states0) (λ state,
    match map0 !! state with
    | None => Raise (BadFsmException BadMap)
    | Some row =>
        for_each (elements alphabet0) (λ symbol,
          match row !! symbol with
          | None => Raise (BadFsmException BadMap)
          | Some next =>
              if decide (next ∉ states0) then Raise (BadFsmException BadMap)
              else Ok ()
          end)
    end) = Ok ()
  ↔ complete alphabet0 states0 map0.
Proof.
  rewrite for_each_Ok, Forall_forall. setoid_rewrite elem_of_elements.
  unfold complete.
  split; intros Hr q Hs; specialize (Hr q Hs).
  - destruct (map0 !! q) as [row|]; [|done].
    exists row. split; [done|]. by apply init_row_Ok.
  - destruct Hr as (row & -> & Hrow). by apply init_row_Ok.
Qed.

Lemma init_rows_cases (alphabet0 : gset symbol) (states0 : gset State)
    (map0 : gmap State (gmap symbol State)) :
  let check := for_each (elements states0) (λ state,
    match map0 !! state with
    | None => Raise (BadFsmException BadMap)
    | Some row =>
        for_each (elements alphabet0) (λ symbol,
          match row !! symbol with
          | None => Raise (BadFsmException BadMap)
          | Some next =>
              if decide (next ∉ states0) then Raise (BadFsmException BadMap)
              else Ok ()
          end)
    end) in
  check = Ok () ∨ check = Raise (BadFsmException BadMap).
Proof.
  intros check. destruct check as [[]|e|] eqn:Hc; [by left|right|exfalso].
  - apply for_each_Raise in Hc as (q & _ & Hc).
    destruct (map0 !! q) as [row|]; [|done].
    apply for_each_Raise in Hc as (a & _ & Hc).
    destruct (row !! a) as [next|]; [|done].
    by destruct (decide (next ∉ states0)).
  - revert Hc. apply for_each_fuel. intros q.
    destruct (map0 !! q) as [row|]; [|done].
    apply for_each_fuel. intros a.
    destruct (row !! a) as [next|]; [|done].
    by destruct (decide (next ∉ states0)).
Qed.

Lemma init_Ok alphabet0 states0 initial0 finals0 map0 self :
  __init__ alphabet0 states0 initial0 finals0 map0 = Ok self ↔
  self = Fsm alphabet0 states0 initial0 finals0 map0 ∧
  initial0 ∈ states0 ∧ finals0 ⊆ states0 ∧ complete alphabet0 states0 map0.
Proof.
  unfold __init__.
  destruct (decide (initial0 ∉ states0)) as [Hi|Hi].
  { split; [done|]. naive_solver. }
  apply dec_stable in Hi.
  destruct (decide (¬ finals0 ⊆ states0)) as [Hf|Hf].
  { split; [done|]. naive_solver. }
  apply dec_stable in Hf.
  rewrite bind_Ok. split.
  - intros ([] & Hc & ?). apply init_rows_Ok in Hc. naive_solver.
  - intros (-> & _ & _ & Hc). exists (). by rewrite (proj2 (init_rows_Ok _ _ _) Hc).
Qed.

Lemma validated_spec self :
  validated self ↔
  initial self ∈ states self ∧ finals self ⊆ states self ∧
  complete (alphabet self) (states self) (map self).
Proof. unfold validated. rewrite init_Ok. destruct self; naive_solver. Qed.

Lemma validated_check_validated self :
  validated_check self = true → validated self.
Proof.
  unfold validated_check, validated.
  destruct (__init__ _ _ _ _ _) as [self'| |] eqn:Hi; [|done..]. intros _.
  apply init_Ok in Hi as (-> & _). by destruct self.
Qed.

Lemma valid_check_valid self : valid_check self = true → valid self.
Proof.
  unfold valid_check. rewrite !andb_true_iff, !bool_decide_eq_true.
  intros [[?%validated_check_validated ?] ?]. by split_and!.
Qed.

Lemma init_validated alphabet0 states0 initial0 finals0 map0 self :
  __init__ alphabet0 states0 initial0 finals0 map0 = Ok self → validated self.
Proof. intros Hs. apply init_Ok in Hs as (-> & ?). by apply validated_spec. Qed.

(** C6. [fsm.__init__] returns the automaton of its five arguments when the
    initial state is a state, the final states are states and the transition
    map is complete; it raises [BadFsmException] otherwise, for the initial
    state first, the final states next, the map last; it does nothing else. *)
Theorem init_validates alphabet0 states0 initial0 finals0 map0 :
  let result := __init__ alphabet0 states0 initial0 finals0 map0 in
  (result = Ok (Fsm alphabet0 states0 initial0 finals0 map0)
   ∨ ∃ why, result = Raise (BadFsmException why)) ∧
  (∀ self, result = Ok self ↔
     self = Fsm alphabet0 states0 initial0 finals0 map0 ∧
     initial0 ∈ states0 ∧ finals0 ⊆ states0 ∧
     complete alphabet0 states0 map0) ∧
  (result = Raise (BadFsmException InitialNotInStates) ↔ initial0 ∉ states0) ∧
  (result = Raise (BadFsmException FinalsNotInStates) ↔
     initial0 ∈ states0 ∧ ¬ finals0 ⊆ states0) ∧
  (result = Raise (BadFsmException BadMap) ↔
     initial0 ∈ states0 ∧ finals0 ⊆ states0 ∧
     ¬ complete alphabet0 states0 map0).
Proof.
  intros result. split_and!.
  - subst result. unfold __init__.
    destruct (decide (initial0 ∉ states0)); [by eauto|].
    destruct (decide (¬ finals0 ⊆ states0)); [by eauto|].
    destruct (init_rows_cases alphabet0 states0 map0) as [-> | ->]; simpl; eauto.
  - intros self. apply init_Ok.
  - subst result. unfold __init__.
    destruct (decide (initial0 ∉ states0)); [done|].
    split; [|done]. destruct (decide (¬ finals0 ⊆ states0)); [done|].
    by destruct (init_rows_cases alphabet0 states0 map0) as [-> | ->].
  - subst result. unfold __init__.
    destruct (decide (initial0 ∉ states0)) as [|Hi]; [naive_solver|].
    apply dec_stable in Hi.
    destruct (decide (¬ finals0 ⊆ states0)); [done|].
    split; [|naive_solver].
    by destruct (init_rows_cases alphabet0 states0 map0) as [-> | ->].
  - subst result. unfold __init__.
    destruct (decide (initial0 ∉ states0)) as [|Hi]; [naive_solver|].
    apply dec_stable in Hi.
    destruct (decide (¬ finals0 ⊆ states0)) as [|Hf]; [naive_solver|].
    apply dec_stable in Hf.
    pose proof (init_rows_Ok alphabet0 states0 map0) as Hc.
    destruct (init_rows_cases alphabet0 states0 map0) as [Hr | Hr];
      rewrite Hr in Hc |- *; simpl.
    + split; [done|]. intros (_ & _ & Hn). destruct Hn. by apply Hc.
    + split; [|done]. intros _. split_and!; [done..|].
      intros Hn. apply Hc in Hn. done.
Qed.

(** ** [accepts] *)

Lemma walk_steps self q input q' :
  walk self q input = Ok q' ↔ steps self q input q'.
Proof.
  revert q. induction input as [|a input IH]; intros q; simpl.
  - split; [intros [= ->]; constructor|by inversion 1].
  - rewrite bind_Ok. setoid_rewrite bind_Ok. setoid_rewrite getitem_Ok.
    setoid_rewrite IH. split.
    + intros (row & ? & next & ? & ?). by econstructor.
    + inversion 1; subst. eauto.
Qed.

Lemma walk_app self q u v :
  walk self q (u ++ v) = walk self q u ≫= λ q', walk self q' v.
Proof.
  revert q. induction u as [|a u IH]; intros q; simpl; [done|].
  destruct (getitem (map self) q) as [row| |]; simpl; [|done..].
  destruct (getitem row a) as [next| |]; simpl; [|done..]. apply IH.
Qed.

Lemma walk_validated self q input :
  validated self → q ∈ states self → Forall (.∈ alphabet self) input →
  ∃ q', walk self q input = Ok q' ∧ q' ∈ states self.
Proof.
  rewrite validated_spec. intros (_ & _ & Hc) Hq Hin. revert q Hq.
  induction Hin as [|a input Ha _ IH]; intros q Hq; simpl; [by eauto|].
  destruct (Hc q Hq) as (row & Hrow & Hnext).
  destruct (Hnext a Ha) as (next & Hn & ?).
  unfold getitem. rewrite Hrow. simpl. rewrite Hn. simpl. by apply IH.
Qed.

(** C8. [accepts] on the empty input says whether the initial state is final;
    on any input it returns [b] exactly when the transitions taken from the
    initial state, one per symbol from the left, end in a state whose finality
    is [b]; on a validated automaton and an input over its alphabet there is
    such a state. *)
Theorem accepts_walks self :
  accepts self [] = Ok (bool_decide (initial self ∈ finals self)) ∧
  (∀ input b,
     accepts self input = Ok b ↔
     ∃ state, steps self (initial self) input state ∧
              b = bool_decide (state ∈ finals self)) ∧
  (validated self → ∀ input, Forall (.∈ alphabet self) input →
     ∃ state, state ∈ states self ∧ steps self (initial self) input state ∧
              accepts self input = Ok (bool_decide (state ∈ finals self))).
Proof.
  split_and!.
  - done.
  - intros input b. unfold accepts. rewrite bind_Ok.
    setoid_rewrite walk_steps. naive_solver.
  - intros Hv input Hin.
    assert (initial self ∈ states self) as Hi by (by apply validated_spec in Hv as (? & _)).
    destruct (walk_validated self _ input Hv Hi Hin) as (q' & Hw & Hq').
    exists q'. split_and!; [done|by apply walk_steps|].
    unfold accepts. by rewrite Hw.
Qed.

(** ** Lists and dicts in the outcome monad *)

Lemma mapM_cons {A B} (f : A → outcome B) x l :
  mapM f (x :: l) = y ← f x; k ← mapM f l; Ok (y :: k).
Proof. done. Qed.

Lemma mapM_Ok_fmap {A B} (f : A → outcome B) (g : A → B) l :
  Forall (λ x, f x = Ok (g x)) l → mapM f l = Ok (g <$> l).
Proof.
  induction 1 as [|x l Hx _ IH]; [done|].
  by rewrite mapM_cons, Hx, IH.
Qed.

Lemma mapM_Ok {A B} (f : A → outcome B) l k :
  mapM f l = Ok k → Forall2 (λ x y, f x = Ok y) l k.
Proof.
  revert k. induction l as [|x l IH]; intros k.
  - intros [= <-]. constructor.
  - rewrite mapM_cons. intros Hk. apply bind_Ok in Hk as (y & Hy & Hk).
    apply bind_Ok in Hk as (k' & Hk' & [= <-]). constructor; auto.
Qed.

Lemma dict_snoc `{Countable K} {V} (l : list (K * V)) k v :
  dict (l ++ [(k, v)]) = <[k := v]> (dict l).
Proof. unfold dict. by rewrite foldl_app. Qed.

Lemma dict_lookup_Some `{Countable K} {V} (l : list (K * V)) k v :
  dict l !! k = Some v → (k, v) ∈ l.
Proof.
  induction l as [|[k' v'] l IH] using rev_ind; [done|].
  rewrite dict_snoc, lookup_insert. case_decide; simplify_eq.
  - intros [= ->]. apply elem_of_app. right. by left.
  - intros Hl. apply elem_of_app. left. auto.
Qed.

Lemma dict_dom `{Countable K} {V} (l : list (K * V)) :
  dom (dict l) = list_to_set l.*1.
Proof.
  induction l as [|[k' v'] l IH] using rev_ind; [done|].
  rewrite dict_snoc, dom_insert_L, IH, fmap_app, list_to_set_app_L. simpl.
  set_solver.
Qed.

Lemma dict_reverse `{Countable K} {V} (l : list (K * V)) :
  dict l = list_to_map (reverse l).
Proof.
  induction l as [|[k' v'] l IH] using rev_ind; [done|].
  by rewrite dict_snoc, reverse_snoc, IH.
Qed.

Lemma dict_NoDup `{Countable K} {V} (l : list (K * V)) :
  NoDup l.*1 → dict l = list_to_map l.
Proof.
  intros Hl. rewrite dict_reverse. apply list_to_map_proper.
  - by rewrite fmap_reverse, reverse_Permutation.
  - apply reverse_Permutation.
Qed.

Lemma dict_fmap_to_list `{Countable K} {V W} (g : V → W) (m : gmap K V) :
  dict (prod_map id g <$> map_to_list m) = g <$> m.
Proof.
  rewrite dict_NoDup.
  - by rewrite list_to_map_fmap, list_to_map_to_list.
  - rewrite <- list_fmap_compose.
    rewrite (list_fmap_ext _ fst (map_to_list m)) by (by intros ? []).
    apply NoDup_fst_map_to_list.
Qed.

(** ** Valid automata *)

Lemma valid_validated self : valid self → validated self.
Proof. by intros (? & _). Qed.

Lemma valid_initial self : validated self → initial self ∈ states self.
Proof. rewrite validated_spec. naive_solver. Qed.

Lemma valid_key self q row :
  valid self → map self !! q = Some row → q ∈ states self.
Proof. intros (_ & <- & _) Hq. by apply elem_of_dom. Qed.

Lemma valid_row self q :
  valid self → q ∈ states self →
  ∃ row, map self !! q = Some row ∧ dom row = alphabet self ∧
         ∀ a next, row !! a = Some next → next ∈ states self.
Proof.
  intros (Hv & _ & Hrows) Hq. apply validated_spec in Hv as (_ & _ & Hc).
  destruct (Hc q Hq) as (row & Hrow & Hnext). exists row.
  pose proof (Hrows q row Hrow) as Hdom. simpl in Hdom. split_and!; [done..|].
  intros a next Ha.
  assert (a ∈ alphabet self) as Hin by (rewrite <- Hdom; by apply elem_of_dom).
  destruct (Hnext a Hin) as (next' & ? & ?). by simplify_eq.
Qed.

Lemma valid_step self q row a :
  valid self → q ∈ states self → map self !! q = Some row → a ∈ alphabet self →
  ∃ next, row !! a = Some next ∧ next ∈ states self.
Proof.
  intros Hv Hq Hrow Ha. destruct (valid_row self q Hv Hq) as (row' & ? & Hdom & Hn).
  simplify_eq. assert (is_Some (row !! a)) as [next Hnext].
  { apply elem_of_dom. by rewrite Hdom. }
  eauto.
Qed.

(** ** [equivalent] *)

Lemma equivalent_loop_true self s1 s2 symbols :
  equivalent_loop self s1 s2 symbols = Ok true →
  ∀ a, a ∈ symbols →
    ∃ row1 n1 row2 n2,
      map self !! s1 = Some row1 ∧ row1 !! a = Some n1 ∧
      map self !! s2 = Some row2 ∧ row2 !! a = Some n2 ∧
      rename s2 s1 n1 = rename s2 s1 n2.
Proof.
  induction symbols as [|b symbols IH]; simpl; [by intros _ a ?%elem_of_nil|].
  intros Hl. apply bind_Ok in Hl as (row1 & Hr1%getitem_Ok & Hl).
  apply bind_Ok in Hl as (n1 & Hn1%getitem_Ok & Hl).
  apply bind_Ok in Hl as (row2 & Hr2%getitem_Ok & Hl).
  apply bind_Ok in Hl as (n2 & Hn2%getitem_Ok & Hl).
  fold (rename s2 s1 n1) (rename s2 s1 n2) in Hl.
  destruct (decide (rename s2 s1 n1 ≠ rename s2 s1 n2)) as [|Hne]; [done|].
  apply dec_stable in Hne.
  intros a [->|Ha]%elem_of_cons; [|by apply IH].
  exists row1, n1, row2, n2. by split_and!.
Qed.

Lemma equivalent_true self s1 s2 :
  equivalent self s1 s2 = Ok true →
  (s1 ∈ finals self ↔ s2 ∈ finals self) ∧
  ∀ a, a ∈ alphabet self →
    ∃ row1 n1 row2 n2,
      map self !! s1 = Some row1 ∧ row1 !! a = Some n1 ∧
      map self !! s2 = Some row2 ∧ row2 !! a = Some n2 ∧
      rename s2 s1 n1 = rename s2 s1 n2.
Proof.
  unfold equivalent.
  destruct (decide (bool_decide (s1 ∈ finals self) ≠ bool_decide (s2 ∈ finals self)))
    as [|Hf]; [done|].
  apply dec_stable in Hf. intros Hl. split.
  - by rewrite <- (bool_decide_eq_true (s1 ∈ finals self)),
               <- (bool_decide_eq_true (s2 ∈ finals self)), Hf.
  - intros a Ha. eapply equivalent_loop_true; [done|]. by apply elem_of_elements.
Qed.

Lemma equivalent_loop_total self s1 s2 symbols :
  validated self → s1 ∈ states self → s2 ∈ states self →
  Forall (.∈ alphabet self) symbols →
  ∃ b, equivalent_loop self s1 s2 symbols = Ok b.
Proof.
  rewrite validated_spec. intros (_ & _ & Hc) H1 H2.
  induction 1 as [|a symbols Ha _ IH]; simpl; [by eauto|].
  destruct (Hc s1 H1) as (row1 & Hr1 & Hn1). destruct (Hn1 a Ha) as (n1 & Hn1' & _).
  destruct (Hc s2 H2) as (row2 & Hr2 & Hn2). destruct (Hn2 a Ha) as (n2 & Hn2' & _).
  unfold getitem. rewrite Hr1. simpl. rewrite Hn1'. simpl. rewrite Hr2. simpl.
  rewrite Hn2'. simpl. case_decide; eauto.
Qed.

Lemma equivalent_total self s1 s2 :
  validated self → s1 ∈ states self → s2 ∈ states self →
  ∃ b, equivalent self s1 s2 = Ok b.
Proof.
  intros Hv H1 H2. unfold equivalent. case_decide; [by eauto|].
  apply equivalent_loop_total; [done..|].
  apply Forall_forall. intros a. by rewrite elem_of_elements.
Qed.

(** ** [replace] *)

Lemma lookups_Ok self this that s :
  s ∈ states self → lookups self this that s = Ok (rename this that s).
Proof. intros Hs. unfold lookups. by rewrite decide_True. Qed.

Lemma rename_norm this that n1 n2 :
  rename that this n1 = rename that this n2 →
  rename this that n1 = rename this that n2.
Proof. unfold rename. repeat case_decide; congruence. Qed.

Lemma rename_merge_states this that (X : gset State) :
  this ∈ X → that ∈ X → this ≠ that →
  set_map (D:=gset State) (rename this that) X = X ∖ {[this]}.
Proof.
  intros H1 H2 Hne. apply set_eq. intros x.
  rewrite elem_of_map, elem_of_difference, elem_of_singleton. unfold rename.
  split.
  - intros (y & -> & Hy). case_decide; naive_solver.
  - intros (Hx & Hn). exists x. by rewrite decide_False.
Qed.

(** The map of [replace self this that], before the last binding of each key
    is taken. *)
Definition rename_row (this that : State) (sr : State * gmap symbol State)
    : State * gmap symbol State :=
  (rename this that sr.1, rename this that <$> sr.2).

Definition replace_rows (self : fsm) (this that : State)
    : list (State * gmap symbol State) :=
  rename_row this that <$> map_to_list (map self).

Lemma replace_Ok self this that :
  valid self →
  ∃ new, replace self this that = Ok new ∧
    alphabet new = alphabet self ∧
    states new = set_map (rename this that) (states self) ∧
    initial new = rename this that (initial self) ∧
    finals new = set_map (rename this that) (finals self) ∧
    map new = dict (replace_rows self this that) ∧
    validated new.
Proof.
  intros Hv. pose proof Hv as (Hvd & Hdom & Hrows).
  pose proof Hvd as (Hi & Hf & Hc)%validated_spec.
  unfold replace.
  rewrite (mapM_Ok_fmap _ (rename this that) (elements (states self))); last first.
  { apply Forall_forall. intros q Hq%elem_of_elements. by apply lookups_Ok. }
  simpl. rewrite lookups_Ok by done. simpl.
  rewrite (mapM_Ok_fmap _ (rename this that) (elements (finals self))); last first.
  { apply Forall_forall. intros q Hq%elem_of_elements. apply lookups_Ok. auto. }
  simpl.
  rewrite (mapM_Ok_fmap _ (rename_row this that)); last first.
  { apply Forall_forall. intros [q row] Hq%elem_of_map_to_list. simpl.
    rewrite lookups_Ok by (by eapply valid_key). simpl.
    rewrite (mapM_Ok_fmap _ (prod_map id (rename this that))); last first.
    { apply Forall_forall. intros [a next] Ha%elem_of_map_to_list.
      destruct (valid_row self q Hv) as (row' & ? & _ & Hn); [by eapply valid_key|].
      simplify_eq. rewrite lookups_Ok by eauto. done. }
    simpl. by rewrite dict_fmap_to_list. }
  simpl. fold (replace_rows self this that).
  change (list_to_set (rename this that <$> elements (states self)))
    with (set_map (D:=gset State) (rename this that) (states self)).
  change (list_to_set (rename this that <$> elements (finals self)))
    with (set_map (D:=gset State) (rename this that) (finals self)).
  assert (rename this that (initial self)
          ∈ set_map (D:=gset State) (rename this that) (states self)) as Hi'.
  { apply elem_of_map. eauto. }
  assert (set_map (D:=gset State) (rename this that) (finals self)
          ⊆ set_map (D:=gset State) (rename this that) (states self)) as Hf'.
  { intros x (y & -> & Hy)%elem_of_map. apply elem_of_map. eauto. }
  assert (complete (alphabet self)
            (set_map (D:=gset State) (rename this that) (states self))
            (dict (replace_rows self this that))) as Hc'.
  { intros q' (q & -> & Hq)%elem_of_map.
    destruct (valid_row self q Hv Hq) as (row & Hrow & Hd & Hn).
    assert (rename this that q ∈ dom (dict (replace_rows self this that)))
      as [r Hr]%elem_of_dom.
    { rewrite dict_dom. apply elem_of_list_to_set, list_elem_of_fmap.
      exists (rename_row this that (q, row)). split; [done|].
      apply list_elem_of_fmap. exists (q, row). split; [done|].
      by apply elem_of_map_to_list. }
    exists r. split; [done|].
    apply dict_lookup_Some in Hr.
    apply list_elem_of_fmap in Hr as ([q2 row2] & [= Hq2 ->] & Hr%elem_of_map_to_list).
    intros a Ha. simpl.
    destruct (valid_step self q2 row2 a Hv) as (next & Hnext & ?);
      [by eapply valid_key|done..|].
    exists (rename this that next). rewrite lookup_fmap, Hnext. split; [done|].
    apply elem_of_map. eauto. }
  eexists. split; [by apply init_Ok|]. split_and!; [done..|].
  by apply validated_spec.
Qed.

Lemma replace_rows_lookup self this that q' r :
  dict (replace_rows self this that) !! q' = Some r →
  ∃ q row, map self !! q = Some row ∧ q' = rename this that q ∧
           r = rename this that <$> row.
Proof.
  intros Hr%dict_lookup_Some.
  apply list_elem_of_fmap in Hr as ([q row] & [= -> ->] & Hr%elem_of_map_to_list).
  eauto.
Qed.

Lemma replace_rows_dom self this that :
  dom (dict (replace_rows self this that))
  = set_map (rename this that) (dom (map self)).
Proof.
  rewrite dict_dom. apply set_eq. intros x.
  rewrite elem_of_list_to_set, elem_of_map, list_elem_of_fmap. split.
  - intros ([q' r] & -> & Hr). simpl.
    apply list_elem_of_fmap in Hr as ([q row] & [= -> ->] & Hr%elem_of_map_to_list).
    exists q. split; [done|]. by apply elem_of_dom.
  - intros (q & -> & [row Hq]%elem_of_dom).
    exists (rename_row this that (q, row)). split; [done|].
    apply list_elem_of_fmap. exists (q, row). split; [done|].
    by apply elem_of_map_to_list.
Qed.

Lemma replace_valid self this that :
  valid self →
  ∃ new, replace self this that = Ok new ∧
    alphabet new = alphabet self ∧
    states new = set_map (rename this that) (states self) ∧
    initial new = rename this that (initial self) ∧
    finals new = set_map (rename this that) (finals self) ∧
    map new = dict (replace_rows self this that) ∧
    valid new.
Proof.
  intros Hv.
  destruct (replace_Ok self this that Hv) as (new & Hr & Ha & Hs & Hi & Hf & Hm & Hvd).
  exists new. split_and!; [done..|]. split_and!; [done| |].
  - rewrite Hm, Hs, replace_rows_dom. by destruct Hv as (_ & -> & _).
  - rewrite Hm, Ha. intros q' r (q & row & Hrow & -> & ->)%replace_rows_lookup.
    simpl. rewrite dom_fmap_L. by destruct Hv as (_ & _ & Hrows); apply (Hrows q).
Qed.

Lemma rename_same this that q1 q2 :
  rename this that q1 = rename this that q2 → q1 ≠ q2 →
  (q1 = this ∧ q2 = that) ∨ (q1 = that ∧ q2 = this).
Proof. unfold rename. repeat case_decide; naive_solver. Qed.

(** Merging two equivalent states. *)
Section merge.
Variables (self new : fsm) (this that : State).
Hypothesis Hv : valid self.
Hypothesis Hne : this ≠ that.
Hypothesis Heq : equivalent self this that = Ok true.
Hypothesis Hnew : replace self this that = Ok new.

Lemma merge_fields :
  alphabet new = alphabet self ∧
  states new = set_map (rename this that) (states self) ∧
  initial new = rename this that (initial self) ∧
  finals new = set_map (rename this that) (finals self) ∧
  map new = dict (replace_rows self this that) ∧
  valid new.
Proof.
  destruct (replace_valid self this that Hv) as (new' & Hr & ?).
  rewrite Hnew in Hr. by simplify_eq.
Qed.

Lemma merge_row q row :
  map self !! q = Some row →
  map new !! rename this that q = Some (rename this that <$> row).
Proof.
  intros Hrow. destruct merge_fields as (_ & _ & _ & _ & -> & _).
  assert (rename this that q ∈ dom (dict (replace_rows self this that)))
    as [r Hr]%elem_of_dom.
  { rewrite replace_rows_dom. apply elem_of_map. exists q. split; [done|].
    by apply elem_of_dom. }
  rewrite Hr. f_equal.
  apply replace_rows_lookup in Hr as (q2 & row2 & Hrow2 & Hq2 & ->).
  destruct (decide (q = q2)) as [->|Hq]; [by simplify_eq|].
  apply equivalent_true in Heq as (_ & Hsame).
  apply map_eq. intros a. rewrite !lookup_fmap.
  destruct (decide (a ∈ alphabet self)) as [Ha|Ha].
  - destruct (Hsame a Ha)
      as (row1 & n1 & row2' & n2 & Hr1 & Hn1 & Hr2 & Hn2 & Hn%rename_norm).
    destruct (rename_same _ _ _ _ Hq2 Hq) as [[-> ->]|[-> ->]]; simplify_eq;
      rewrite Hn1, Hn2; simpl; congruence.
  - destruct Hv as (_ & _ & Hrows).
    pose proof (Hrows _ _ Hrow) as Hd. pose proof (Hrows _ _ Hrow2) as Hd2.
    simpl in *.
    rewrite (not_elem_of_dom_1 row a), (not_elem_of_dom_1 row2 a);
      [done|by rewrite Hd2|by rewrite Hd].
Qed.

Lemma merge_walk q input q' :
  walk self q input = Ok q' →
  walk new (rename this that q) input = Ok (rename this that q').
Proof.
  revert q. induction input as [|a input IH]; intros q; simpl.
  - by intros [= ->].
  - intros Hw. apply bind_Ok in Hw as (row & Hrow%getitem_Ok & Hw).
    apply bind_Ok in Hw as (next & Hnext%getitem_Ok & Hw).
    unfold getitem. rewrite (merge_row q row Hrow). simpl.
    rewrite lookup_fmap, Hnext. simpl. by apply IH.
Qed.

Lemma merge_final q :
  rename this that q ∈ finals new ↔ q ∈ finals self.
Proof.
  destruct merge_fields as (_ & _ & _ & -> & _).
  rewrite elem_of_map. split; [|by eauto].
  intros (p & Hp & Hf). destruct (decide (q = p)) as [->|Hq]; [done|].
  apply equivalent_true in Heq as (Hfin & _).
  destruct (rename_same _ _ _ _ Hp Hq) as [[-> ->]|[-> ->]]; tauto.
Qed.

Lemma merge_accepts input :
  Forall (.∈ alphabet self) input → accepts new input = accepts self input.
Proof.
  intros Hin.
  destruct (walk_validated self (initial self) input) as (q' & Hw & Hq');
    [by apply valid_validated|by apply valid_initial, valid_validated|done|].
  unfold accepts. rewrite Hw.
  destruct merge_fields as (_ & _ & -> & _).
  rewrite (merge_walk _ _ _ Hw). simpl. f_equal.
  apply bool_decide_ext, merge_final.
Qed.

End merge.

(** ** [trymerge] and [automerge] *)

Lemma trymerge_that_Ok self this thats found :
  trymerge_that self this thats = Ok found →
  match found with
  | Some new =>
      ∃ that, that ∈ thats ∧ that ≠ this ∧
        equivalent self this that = Ok true ∧ replace self this that = Ok new
  | None =>
      ∀ that, that ∈ thats → that ≠ this → equivalent self this that = Ok false
  end.
Proof.
  induction thats as [|that thats IH]; simpl.
  - intros [= <-]. by intros that ?%elem_of_nil.
  - case_decide as Hthat.
    + intros Hf. specialize (IH Hf). destruct found as [new|].
      * destruct IH as (that' & ? & ?). exists that'. split; [by right|done].
      * intros that' [->|?]%elem_of_cons ?; [done|by apply IH].
    + intros Hf. apply bind_Ok in Hf as ([] & Hequiv & Hf).
      * apply bind_Ok in Hf as (new & Hnew & [= <-]).
        exists that. split; [by left|done].
      * specialize (IH Hf). destruct found as [new|].
        -- destruct IH as (that' & ? & ?). exists that'. split; [by right|done].
        -- intros that' [->|?]%elem_of_cons ?; [done|by apply IH].
Qed.

Lemma trymerge_this_Ok self thises keepMerging new :
  trymerge_this self thises = Ok (keepMerging, new) →
  if keepMerging then
    ∃ this that, this ∈ thises ∧ that ∈ states self ∧ that ≠ this ∧
      equivalent self this that = Ok true ∧ replace self this that = Ok new
  else
    new = self ∧
    ∀ this that, this ∈ thises → that ∈ states self → that ≠ this →
      equivalent self this that = Ok false.
Proof.
  induction thises as [|this thises IH]; simpl.
  - intros [= <- <-]. split; [done|]. by intros this that ?%elem_of_nil.
  - intros Hf. apply bind_Ok in Hf as (found & Hfound & Hf).
    apply trymerge_that_Ok in Hfound. destruct found as [new'|].
    + injection Hf as <- <-. destruct Hfound as (that & Hthat%elem_of_elements & ?).
      exists this, that. split; [by left|done].
    + specialize (IH Hf). destruct keepMerging.
      * destruct IH as (this' & that & ? & ?). exists this', that.
        split; [by right|done].
      * destruct IH as (-> & IH). split; [done|].
        intros this' that [->|?]%elem_of_cons ??; [|by apply IH].
        apply Hfound; [by apply elem_of_elements|done].
Qed.

Lemma trymerge_Ok self keepMerging new :
  trymerge self = Ok (keepMerging, new) →
  if keepMerging then
    ∃ this that, this ∈ states self ∧ that ∈ states self ∧ that ≠ this ∧
      equivalent self this that = Ok true ∧ replace self this that = Ok new
  else
    new = self ∧
    ∀ this that, this ∈ states self → that ∈ states self → that ≠ this →
      equivalent self this that = Ok false.
Proof.
  intros Hf%trymerge_this_Ok. destruct keepMerging.
  - destruct Hf as (this & that & ?%elem_of_elements & ?). eauto.
  - destruct Hf as (-> & Hf). split; [done|].
    intros this that ?%elem_of_elements. by apply Hf.
Qed.

Lemma trymerge_that_total self this thats :
  valid self → this ∈ states self → Forall (.∈ states self) thats →
  ∃ found, trymerge_that self this thats = Ok found.
Proof.
  intros Hv Hthis. induction 1 as [|that thats Hthat _ IH]; simpl; [by eauto|].
  case_decide; [done|].
  destruct (equivalent_total self this that) as ([] & ->);
    [by apply valid_validated|done..| |]; simpl; [|done].
  destruct (replace_Ok self this that Hv) as (new & -> & _). simpl. eauto.
Qed.

Lemma trymerge_this_total self thises :
  valid self → Forall (.∈ states self) thises →
  ∃ keepMerging new, trymerge_this self thises = Ok (keepMerging, new).
Proof.
  intros Hv. induction 1 as [|this thises Hthis _ IH]; simpl; [by eauto|].
  destruct (trymerge_that_total self this (elements (states self)))
    as ([new|] & ->); [done..| | |]; simpl; eauto.
  apply Forall_forall. intros q. by rewrite elem_of_elements.
Qed.

Lemma trymerge_total self :
  valid self → ∃ keepMerging new, trymerge self = Ok (keepMerging, new).
Proof.
  intros Hv. apply trymerge_this_total; [done|].
  apply Forall_forall. intros q. by rewrite elem_of_elements.
Qed.

(** One merge: the new automaton is valid, has one state less and accepts the
    same inputs. *)
Lemma trymerge_merge self new :
  valid self → trymerge self = Ok (true, new) →
  valid new ∧ alphabet new = alphabet self ∧
  states new ⊆ states self ∧ size (states new) < size (states self) ∧
  ∀ input, Forall (.∈ alphabet self) input →
    accepts new input = accepts self input.
Proof.
  intros Hv (this & that & Hthis & Hthat & Hne & Heq & Hnew)%trymerge_Ok.
  destruct (merge_fields self new this that Hv Hnew) as (Ha & Hs & _ & _ & _ & Hv').
  rewrite rename_merge_states in Hs by done.
  split_and!; [done..| | |].
  - rewrite Hs. set_solver.
  - rewrite Hs. apply subset_size. set_solver.
  - by apply (merge_accepts self new this that).
Qed.

Lemma automerge_loop_Ok fuel self :
  valid self → size (states self) ≤ fuel →
  ∃ new, automerge_loop fuel self = Ok new ∧
    valid new ∧ alphabet new = alphabet self ∧
    states new ⊆ states self ∧
    (∀ this that, this ∈ states new → that ∈ states new → that ≠ this →
       equivalent new this that = Ok false) ∧
    (∀ input, Forall (.∈ alphabet self) input →
       accepts new input = accepts self input).
Proof.
  revert self. induction fuel as [|fuel IH]; intros self Hv Hfuel.
  { apply valid_validated, valid_initial in Hv.
    assert (size (states self) ≠ 0); [|lia].
    apply size_non_empty_iff. set_solver. }
  simpl. destruct (trymerge_total self Hv) as (keepMerging & new & Ht).
  rewrite Ht. simpl. destruct keepMerging.
  - destruct (trymerge_merge self new Hv Ht) as (Hv' & Ha & Hs & Hsize & Hacc).
    destruct (IH new Hv') as (new' & Hl & Hv'' & Ha' & Hs' & Hno & Hacc'); [lia|].
    exists new'. split_and!; [done..|congruence|set_solver|done|].
    intros input Hin. rewrite Hacc' by (by rewrite Ha). by apply Hacc.
  - apply trymerge_Ok in Ht as (-> & Hno). exists self. by split_and!.
Qed.

(** C5. On a valid automaton a merge strictly reduces the number of states, so
    the loop of [automerge] ends within as many iterations as there are
    states; what it returns has no two distinct states that [equivalent]
    accepts, and has no more states than the automaton it started from. *)
Theorem automerge_minimizes self :
  valid self →
  (∀ new, trymerge self = Ok (true, new) →
     valid new ∧ size (states new) < size (states self)) ∧
  ∀ fuel, size (states self) ≤ fuel →
    ∃ new, automerge fuel self = Ok new ∧
      (∀ this that, this ∈ states new → that ∈ states new → that ≠ this →
         equivalent new this that = Ok false) ∧
      size (states new) ≤ size (states self).
Proof.
  intros Hv. split.
  - intros new Ht. by destruct (trymerge_merge self new Hv Ht) as (? & _ & _ & ? & _).
  - intros fuel Hfuel.
    destruct (automerge_loop_Ok fuel self Hv Hfuel) as (new & Hl & _ & _ & Hs & Hno & _).
    exists new. split_and!; [done..|]. by apply subseteq_size.
Qed.

(** ** [_crawl] *)

#[local] Instance state_of_nat_inj : Inj (=) (=) state_of_nat.
Proof. intros i j [= Hij]. lia. Qed.

Lemma elem_of_range q n : q ∈ range n ↔ ∃ k, k < n ∧ q = state_of_nat k.
Proof.
  unfold range. rewrite list_elem_of_fmap. setoid_rewrite elem_of_seq.
  split; intros (k & ? & ?); exists k; split; (done || lia).
Qed.

Lemma size_range n : size (list_to_set (C:=gset State) (range n)) = n.
Proof.
  rewrite size_list_to_set.
  - unfold range. by rewrite length_fmap, length_seq.
  - apply NoDup_fmap; [apply _|apply NoDup_seq].
Qed.

Lemma insort_Permutation a l : insort a l ≡ₚ a :: l.
Proof.
  induction l as [|b l IH]; simpl; [done|].
  destruct (String.leb (str a) (str b)); [done|].
  rewrite IH. apply perm_swap.
Qed.

Lemma sorted_Permutation l : sorted l ≡ₚ l.
Proof.
  induction l as [|a l IH]; simpl; [done|].
  by rewrite insort_Permutation, IH.
Qed.

Lemma elem_of_sorted_elements a (alphabet0 : gset symbol) :
  a ∈ sorted (elements alphabet0) ↔ a ∈ alphabet0.
Proof. by rewrite sorted_Permutation, elem_of_elements. Qed.

Lemma index_Some `{EqDecision A} (x : A) l j : index x l = Some j → l !! j = Some x.
Proof.
  revert j. induction l as [|y l IH]; intros j; simpl; [done|].
  case_decide as Hy; [by intros [= <-]; subst|].
  destruct (index x l) as [j'|]; simpl; [|done]. intros [= <-]. by apply IH.
Qed.

Lemma index_None `{EqDecision A} (x : A) l : index x l = None → x ∉ l.
Proof.
  induction l as [|y l IH]; simpl; [by intros _ ?%elem_of_nil|].
  case_decide as Hy; [done|].
  destruct (index x l) as [j'|]; simpl; [done|].
  intros _ [->|?]%elem_of_cons; [done|]. by apply IH.
Qed.

(** A crawl whose [getNext] and [isFinal] are the functions [next] and [final]
    on the superstates in [P], a set that is closed under [next] and within
    the list [univ]. *)
Section crawl_spec.
Context {X : Type} `{EqDecision X}.
Variable isFinal : X → outcome bool.
Variable getNext : X → symbol → outcome X.
Variable alphabet0 : gset symbol.
Variable initial0 : X.
Variable P : X → Prop.
Variable final : X → bool.
Variable next : X → symbol → X.
Variable univ : list X.
Hypothesis P_initial : P initial0.
Hypothesis P_next : ∀ x a, P x → a ∈ alphabet0 →
  getNext x a = Ok (next x a) ∧ P (next x a).
Hypothesis P_final : ∀ x, P x → isFinal x = Ok (final x).
Hypothesis P_univ : ∀ x, P x → x ∈ univ.

(** The entries of the row of [x] point to the superstates [next] gives. *)
Definition crawl_row_inv (x : X) (states : list X) (row : gmap symbol State)
    : Prop :=
  ∀ a q, row !! a = Some q →
    ∃ j, q = state_of_nat j ∧ states !! j = Some (next x a).

Lemma crawl_row_Ok x symbols states row :
  P x → Forall (.∈ alphabet0) symbols → NoDup states → Forall P states →
  crawl_row_inv x states row →
  ∃ states' row',
    crawl_row getNext x symbols states row = Ok (states', row') ∧
    states `prefix_of` states' ∧ NoDup states' ∧ Forall P states' ∧
    crawl_row_inv x states' row' ∧
    dom row' = dom row ∪ list_to_set symbols.
Proof.
  intros Hx Hsyms. revert states row.
  induction Hsyms as [|a symbols Ha _ IH]; intros states row Hnd HP Hrow; simpl.
  { exists states, row. split_and!; [done..|]. set_solver. }
  destruct (P_next x a Hx Ha) as (-> & Hnext). simpl.
  destruct (index (next x a) states) as [j|] eqn:Hj.
  - apply index_Some in Hj.
    destruct (IH states (<[a := state_of_nat j]> row)) as (states' & row' & ? & ? & ? & ? & ? & Hdom);
      [done..| |].
    { intros b q. rewrite lookup_insert. case_decide; [|by apply Hrow].
      intros [= <-]. subst. eauto. }
    exists states', row'. split_and!; [done..|].
    rewrite Hdom, dom_insert_L. set_solver.
  - apply index_None in Hj.
    destruct (IH (states ++ [next x a]) (<[a := state_of_nat (length states)]> row))
      as (states' & row' & ? & Hpre & ? & ? & ? & Hdom).
    + apply NoDup_app. split_and!; [done| |apply NoDup_singleton].
      intros y Hy ->%list_elem_of_singleton. done.
    + apply Forall_app. split; [done|]. by apply Forall_singleton.
    + intros b q. rewrite lookup_insert. case_decide.
      * intros [= <-]. subst. exists (length states). split; [done|].
        by rewrite lookup_app_r, Nat.sub_diag by lia.
      * intros (j & -> & Hl)%Hrow. exists j. split; [done|].
        by apply lookup_app_l_Some.
    + exists states', row'. split_and!; [done| |done..|].
      * etrans; [|done]. by apply prefix_app_r.
      * rewrite Hdom, dom_insert_L. set_solver.
Qed.

(** What the loop has recorded when it is at index [i]. *)
Definition crawl_inv (i : nat) (states : list X) (finals : gset State)
    (map : gmap State (gmap symbol State)) : Prop :=
  NoDup states ∧ Forall P states ∧ i ≤ length states ∧
  (∀ q, q ∈ dom map ↔ ∃ k, k < i ∧ q = state_of_nat k) ∧
  (∀ k x, k < i → states !! k = Some x →
     ∃ row, map !! state_of_nat k = Some row ∧ dom row = alphabet0 ∧
            crawl_row_inv x states row) ∧
  (∀ q, q ∈ finals ↔
     ∃ k x, k < i ∧ q = state_of_nat k ∧ states !! k = Some x ∧ final x = true).

Lemma crawl_row_inv_prefix x states states' row :
  states `prefix_of` states' → crawl_row_inv x states row →
  crawl_row_inv x states' row.
Proof.
  intros Hpre Hrow a q (j & -> & Hj)%Hrow. exists j. split; [done|].
  by eapply prefix_lookup_Some.
Qed.

Lemma crawl_inv_step i states finals map x states' row :
  crawl_inv i states finals map → states !! i = Some x →
  states `prefix_of` states' → NoDup states' → Forall P states' →
  crawl_row_inv x states' row → dom row = alphabet0 →
  crawl_inv (i + 1) states'
    (if final x then {[state_of_nat i]} ∪ finals else finals)
    (<[state_of_nat i := row]> map).
Proof.
  intros (Hnd & HP & Hi & Hdom & Hrows & Hfin) Hx Hpre Hnd' HP' Hrow Hd.
  assert (i < length states) by (by eapply lookup_lt_Some).
  assert (length states ≤ length states') by (by apply prefix_length).
  split_and!; [done..|lia| | |].
  - intros q. rewrite dom_insert_L, elem_of_union, elem_of_singleton, Hdom.
    split.
    + intros [->|(k & ? & ->)]; [exists i|exists k]; split; (done || lia).
    + intros (k & Hk & ->). destruct (decide (k = i)) as [->|]; [by left|].
      right. exists k. split; [lia|done].
  - intros k y Hk Hy. destruct (decide (k = i)) as [->|Hne].
    + rewrite lookup_insert_eq. exists row.
      assert (y = x) as ->; [|done].
      apply (prefix_lookup_Some _ states') in Hx; [|done]. congruence.
    + rewrite lookup_insert_ne by (by intros ?%(inj _)).
      assert (states !! k = Some y) as Hy'.
      { destruct (lookup_lt_is_Some_2 states k) as [y' Hy']; [lia|].
        rewrite (prefix_lookup_Some _ _ _ _ Hy' Hpre) in Hy. congruence. }
      destruct (Hrows k y) as (row' & ? & ? & ?); [lia|done|].
      exists row'. split_and!; [done..|]. by eapply crawl_row_inv_prefix.
  - intros q.
    assert (q ∈ finals ↔ ∃ k y, k < i ∧ q = state_of_nat k ∧
              states' !! k = Some y ∧ final y = true) as Hfin'.
    { rewrite Hfin. split; intros (k & y & ? & -> & Hy & ?); exists k, y;
        (split_and!; [done..| |done]).
      - by eapply prefix_lookup_Some.
      - destruct (lookup_lt_is_Some_2 states k) as [y' Hy']; [lia|].
        rewrite (prefix_lookup_Some _ _ _ _ Hy' Hpre) in Hy. congruence. }
    assert (states' !! i = Some x) as Hx' by (by eapply prefix_lookup_Some).
    destruct (final x) eqn:Hfx.
    + rewrite elem_of_union, elem_of_singleton, Hfin'. split.
      * intros [->|(k & y & ? & ?)]; [exists i, x|exists k, y];
          (split_and!; [lia|naive_solver..]).
      * intros (k & y & Hk & -> & Hy & ?).
        destruct (decide (k = i)) as [->|]; [by left|].
        right. exists k, y. split_and!; [lia|done..].
    + rewrite Hfin'. split; intros (k & y & Hk & -> & Hy & Hfy).
      * exists k, y. split_and!; [lia|done..].
      * exists k, y. split_and!; [|done..].
        destruct (decide (k = i)) as [->|]; [|lia]. congruence.
Qed.

Lemma crawl_loop_Ok fuel i states finals map :
  crawl_inv i states finals map → length univ - i < fuel →
  ∃ states' finals' map',
    crawl_loop isFinal getNext fuel (sorted (elements alphabet0)) i
               states finals map
    = Ok (states', finals', map') ∧
    crawl_inv (length states') states' finals' map' ∧
    states `prefix_of` states'.
Proof.
  revert i states finals map.
  induction fuel as [|fuel IH]; intros i states finals map Hinv Hfuel; [lia|].
  simpl. destruct (states !! i) as [x|] eqn:Hx.
  - pose proof Hinv as (Hnd & HP & Hi & _).
    assert (P x) as HPx.
    { eapply Forall_forall; [done|]. by eapply list_elem_of_lookup_2. }
    rewrite (P_final x HPx). simpl.
    destruct (crawl_row_Ok x (sorted (elements alphabet0)) states ∅)
      as (states' & row & -> & Hpre & Hnd' & HP' & Hrow & Hdom); [done| |done..| |].
    { apply Forall_forall. intros a. by rewrite elem_of_sorted_elements. }
    { by intros a q. }
    simpl.
    assert (dom row = alphabet0) as Hdom'.
    { rewrite Hdom, dom_empty_L, (left_id_L ∅ (∪)). apply set_eq. intros a.
      by rewrite elem_of_list_to_set, elem_of_sorted_elements. }
    destruct (IH (i + 1) states'
                (if final x then {[state_of_nat i]} ∪ finals else finals)
                (<[state_of_nat i := row]> map))
      as (states'' & finals'' & map'' & Hl & Hinv'' & Hpre'').
    + by eapply crawl_inv_step.
    + assert (i < length states) by (by eapply lookup_lt_Some).
      assert (length states ≤ length univ); [|lia].
      apply submseteq_length, NoDup_submseteq; [done|].
      intros y Hy. apply P_univ. revert y Hy. by apply Forall_forall.
    + exists states'', finals'', map''. split_and!; [done..|]. by etrans.
  - exists states, finals, map. split_and!; [done| |done].
    apply lookup_ge_None in Hx. destruct Hinv as (Hnd & HP & Hi & Hdom & Hrows & Hfin).
    assert (i = length states) as -> by lia. by split_and!.
Qed.

Lemma crawl_inv_length states finals map :
  crawl_inv (length states) states finals map → length states ≤ length univ.
Proof.
  intros (Hnd & HP & _). apply submseteq_length, NoDup_submseteq; [done|].
  intros y Hy. apply P_univ. revert y Hy. by apply Forall_forall.
Qed.

(** The automaton of the recorded states, before [automerge]. *)
Definition crawl_result (states : list X) (finals : gset State)
    (map : gmap State (gmap symbol State)) : fsm :=
  Fsm alphabet0 (list_to_set (range (length states))) (SInt 0) finals map.

Lemma crawl_result_valid states finals map :
  crawl_inv (length states) states finals map → [initial0] `prefix_of` states →
  __init__ alphabet0 (list_to_set (range (length states))) (SInt 0) finals map
  = Ok (crawl_result states finals map) ∧
  valid (crawl_result states finals map).
Proof.
  intros (Hnd & HP & _ & Hdom & Hrows & Hfin) Hpre.
  assert (0 < length states) as Hn.
  { apply prefix_length in Hpre. simpl in Hpre. lia. }
  assert (complete alphabet0 (list_to_set (range (length states))) map) as Hc.
  { intros q (k & Hk & ->)%elem_of_list_to_set%elem_of_range.
    destruct (lookup_lt_is_Some_2 states k Hk) as [x Hx].
    destruct (Hrows k x Hk Hx) as (row & Hrow & Hd & Hnext).
    exists row. split; [done|]. intros a Ha.
    assert (is_Some (row !! a)) as [q Hq] by (apply elem_of_dom; by rewrite Hd).
    exists q. split; [done|]. destruct (Hnext a q Hq) as (j & -> & Hj).
    apply elem_of_list_to_set, elem_of_range. exists j. split; [|done].
    by eapply lookup_lt_Some. }
  assert (SInt 0 ∈ list_to_set (C:=gset State) (range (length states))) as Hi.
  { apply elem_of_list_to_set, elem_of_range. by exists 0. }
  assert (finals ⊆ list_to_set (range (length states))) as Hf.
  { intros q (k & x & Hk & -> & _)%Hfin.
    apply elem_of_list_to_set, elem_of_range. eauto. }
  split; [by apply init_Ok|]. split_and!.
  - by apply validated_spec.
  - simpl. apply set_eq. intros q.
    by rewrite Hdom, elem_of_list_to_set, elem_of_range.
  - intros q row Hrow. simpl in *.
    assert (q ∈ dom map) as (k & Hk & ->)%Hdom by (by apply elem_of_dom).
    destruct (lookup_lt_is_Some_2 states k Hk) as [x Hx].
    destruct (Hrows k x Hk Hx) as (row' & Hrow' & Hd & _). congruence.
Qed.

Lemma crawl_result_walk states finals map input k x :
  crawl_inv (length states) states finals map →
  Forall (.∈ alphabet0) input → states !! k = Some x →
  ∃ j, walk (crawl_result states finals map) (state_of_nat k) input
       = Ok (state_of_nat j) ∧
       states !! j = Some (foldl next x input).
Proof.
  intros (Hnd & HP & _ & Hdom & Hrows & Hfin) Hin. revert k x.
  induction Hin as [|a input Ha _ IH]; intros k x Hx; simpl; [by eauto|].
  destruct (Hrows k x) as (row & Hrow & Hd & Hnext); [by eapply lookup_lt_Some|done|].
  assert (is_Some (row !! a)) as [q Hq] by (apply elem_of_dom; by rewrite Hd).
  destruct (Hnext a q Hq) as (j & -> & Hj).
  unfold getitem. rewrite Hrow. simpl. rewrite Hq. simpl. by apply IH.
Qed.

Lemma crawl_result_accepts states finals map input :
  crawl_inv (length states) states finals map → [initial0] `prefix_of` states →
  Forall (.∈ alphabet0) input →
  accepts (crawl_result states finals map) input
  = Ok (final (foldl next initial0 input)).
Proof.
  intros Hinv Hpre Hin.
  assert (states !! 0 = Some initial0) as H0.
  { by apply (prefix_lookup_Some [initial0]). }
  destruct (crawl_result_walk states finals map input 0 initial0 Hinv Hin H0)
    as (j & Hw & Hj).
  unfold accepts. change (initial (crawl_result states finals map))
    with (state_of_nat 0). rewrite Hw. simpl. f_equal.
  destruct Hinv as (_ & _ & _ & _ & _ & Hfin).
  destruct (final (foldl next initial0 input)) eqn:Hf.
  - apply bool_decide_eq_true_2, Hfin. exists j, (foldl next initial0 input).
    split_and!; [by eapply lookup_lt_Some|done..].
  - apply bool_decide_eq_false_2.
    intros (k & x & _ & ->%(inj _) & Hk & Hx)%Hfin. congruence.
Qed.

(** The crawl returns, and what it returns is valid and accepts the inputs on
    which [final] holds after [next] has been followed from the initial
    superstate. *)
Lemma crawl_Ok fuel :
  length univ < fuel →
  ∃ result,
    _crawl isFinal getNext fuel alphabet0 initial0 = Ok result ∧
    valid result ∧ alphabet result = alphabet0 ∧
    size (states result) ≤ length univ ∧
    ∀ input, Forall (.∈ alphabet0) input →
      accepts result input = Ok (final (foldl next initial0 input)).
Proof.
  intros Hfuel. unfold _crawl, _crawl_from.
  destruct (crawl_loop_Ok fuel 0 [initial0] ∅ ∅)
    as (states' & finals' & map' & -> & Hinv & Hpre); [|lia|].
  { split_and!.
    - apply NoDup_singleton.
    - by apply Forall_singleton.
    - simpl. lia.
    - intros q. rewrite dom_empty_L, elem_of_empty. split; [done|].
      intros (k & ? & _). lia.
    - intros k x ?. lia.
    - intros q. rewrite elem_of_empty. split; [done|]. intros (k & x & ? & _). lia. }
  simpl.
  destruct (crawl_result_valid states' finals' map' Hinv Hpre) as (-> & Hv).
  simpl.
  pose proof (crawl_inv_length _ _ _ Hinv) as Hlen.
  destruct (automerge_loop_Ok fuel (crawl_result states' finals' map') Hv)
    as (new & Hnew & Hv' & Ha & Hsub & _ & Hacc).
  { simpl. rewrite size_range. lia. }
  exists new. split_and!; [done..| |].
  - apply subseteq_size in Hsub. simpl in Hsub. rewrite size_range in Hsub. lia.
  - intros input Hin. rewrite Hacc by done. by apply crawl_result_accepts.
Qed.

End crawl_spec.

(** ** The transition function *)

Lemma delta_validated self q a :
  validated self → q ∈ states self → a ∈ alphabet self →
  ∃ row, map self !! q = Some row ∧ row !! a = Some (delta self q a) ∧
         delta self q a ∈ states self.
Proof.
  rewrite validated_spec. intros (_ & _ & Hc) Hq Ha.
  destruct (Hc q Hq) as (row & Hrow & Hnext).
  destruct (Hnext a Ha) as (next & Hn & ?).
  exists row. unfold delta. rewrite Hrow. simpl. rewrite Hn. done.
Qed.

Lemma delta_states self q a :
  validated self → q ∈ states self → a ∈ alphabet self →
  delta self q a ∈ states self.
Proof. intros Hv Hq Ha. by destruct (delta_validated self q a) as (? & ? & ? & ?). Qed.

Lemma getitem_delta self q a :
  validated self → q ∈ states self → a ∈ alphabet self →
  (getitem (map self) q ≫= λ row, getitem row a) = Ok (delta self q a).
Proof.
  intros Hv Hq Ha. destruct (delta_validated self q a) as (row & Hr & Hn & _); [done..|].
  unfold getitem. rewrite Hr. simpl. by rewrite Hn.
Qed.

Lemma foldl_delta_states self q input :
  validated self → q ∈ states self → Forall (.∈ alphabet self) input →
  foldl (delta self) q input ∈ states self.
Proof.
  intros Hv Hq Hin. revert q Hq.
  induction Hin as [|a input Ha _ IH]; intros q Hq; simpl; [done|].
  by apply IH, delta_states.
Qed.

Lemma walk_delta self q input :
  validated self → q ∈ states self → Forall (.∈ alphabet self) input →
  walk self q input = Ok (foldl (delta self) q input).
Proof.
  intros Hv Hq Hin. revert q Hq.
  induction Hin as [|a input Ha _ IH]; intros q Hq; simpl; [done|].
  destruct (delta_validated self q a) as (row & Hr & Hn & ?); [done..|].
  unfold getitem. rewrite Hr. simpl. rewrite Hn. simpl. by apply IH.
Qed.

(** The language of a validated automaton, on the inputs over its alphabet. *)
Definition lang (self : fsm) (input : list symbol) : bool :=
  bool_decide (foldl (delta self) (initial self) input ∈ finals self).

Lemma accepts_lang self input :
  validated self → Forall (.∈ alphabet self) input →
  accepts self input = Ok (lang self input).
Proof.
  intros Hv Hin. unfold accepts.
  by rewrite walk_delta by (done || by apply valid_initial).
Qed.

(** ** Alternation and intersection *)

Section product.
Variables self other : fsm.
Hypothesis Hself : validated self.
Hypothesis Hother : validated other.
Hypothesis Halphabet : alphabet other = alphabet self.

Definition product_P (x : State * State) : Prop :=
  x.1 ∈ states self ∧ x.2 ∈ states other.

Definition product_next (x : State * State) (a : symbol) : State * State :=
  (delta self x.1 a, delta other x.2 a).

Definition product_univ : list (State * State) :=
  list_prod (elements (states self)) (elements (states other)).

Lemma product_getNext x a :
  product_P x → a ∈ alphabet self →
  or_getNext self other x a = Ok (product_next x a) ∧
  product_P (product_next x a).
Proof.
  intros [H1 H2] Ha. unfold or_getNext.
  destruct (delta_validated self x.1 a) as (row0 & Hr0 & Hn0 & ?); [done..|].
  destruct (delta_validated other x.2 a) as (row1 & Hr1 & Hn1 & ?);
    [done..|by rewrite Halphabet|].
  unfold getitem. rewrite Hr0. simpl. rewrite Hn0. simpl. rewrite Hr1. simpl.
  rewrite Hn1. simpl. done.
Qed.

Lemma product_in_univ x : product_P x → x ∈ product_univ.
Proof.
  destruct x as [p q]. intros [? ?]. apply list_elem_of_In, in_prod.
  - by apply list_elem_of_In, elem_of_elements.
  - by apply list_elem_of_In, elem_of_elements.
Qed.

Lemma product_foldl input :
  foldl product_next (initial self, initial other) input
  = (foldl (delta self) (initial self) input,
     foldl (delta other) (initial other) input).
Proof.
  generalize (initial self) (initial other).
  induction input as [|a input IH]; intros p q; simpl; [done|]. apply IH.
Qed.

Lemma or_Ok fuel :
  length product_univ < fuel →
  ∃ result, __or__ fuel self other = Ok result ∧
    valid result ∧ alphabet result = alphabet self ∧
    size (states result) ≤ length product_univ ∧
    ∀ input, Forall (.∈ alphabet self) input →
      accepts result input = Ok (lang self input || lang other input).
Proof.
  intros Hfuel. unfold __or__. rewrite decide_False by (by intros []).
  edestruct (crawl_Ok (or_isFinal self other) (or_getNext self other)
    (alphabet self) (initial self, initial other) product_P
    (λ x, bool_decide (x.1 ∈ finals self) || bool_decide (x.2 ∈ finals other))
    product_next product_univ) as (result & Hr & Hv & Ha & Hsize & Hacc);
    [..|exact Hfuel|].
  - split; simpl; by apply valid_initial.
  - apply product_getNext.
  - done.
  - apply product_in_univ.
  - exists result. split_and!; [done..|].
    intros input Hin. rewrite Hacc by done. by rewrite product_foldl.
Qed.

Lemma and_Ok fuel :
  length product_univ < fuel →
  ∃ result, __and__ fuel self other = Ok result ∧
    valid result ∧ alphabet result = alphabet self ∧
    size (states result) ≤ length product_univ ∧
    ∀ input, Forall (.∈ alphabet self) input →
      accepts result input = Ok (lang self input && lang other input).
Proof.
  intros Hfuel. unfold __and__. rewrite decide_False by (by intros []).
  edestruct (crawl_Ok (and_isFinal self other) (and_getNext self other)
    (alphabet self) (initial self, initial other) product_P
    (λ x, bool_decide (x.1 ∈ finals self) && bool_decide (x.2 ∈ finals other))
    product_next product_univ) as (result & Hr & Hv & Ha & Hsize & Hacc);
    [..|exact Hfuel|].
  - split; simpl; by apply valid_initial.
  - apply product_getNext.
  - done.
  - apply product_in_univ.
  - exists result. split_and!; [done..|].
    intros input Hin. rewrite Hacc by done. by rewrite product_foldl.
Qed.

End product.

(** C2. For validated automata over one alphabet, [self & other] and
    [self | other] return, and on every input over the alphabet [self & other]
    accepts exactly when both accept, and [self | other] exactly when one of
    them accepts. *)
Theorem and_or_set_semantics self other :
  validated self → validated other → alphabet other = alphabet self →
  ∃ n, ∀ fuel, n ≤ fuel →
    ∃ both either,
      __and__ fuel self other = Ok both ∧
      __or__ fuel self other = Ok either ∧
      ∀ input, Forall (.∈ alphabet self) input →
        (accepts both input = Ok true ↔
           accepts self input = Ok true ∧ accepts other input = Ok true) ∧
        (accepts either input = Ok true ↔
           accepts self input = Ok true ∨ accepts other input = Ok true).
Proof.
  intros Hself Hother Ha.
  exists (S (length (product_univ self other))). intros fuel Hfuel.
  destruct (and_Ok self other Hself Hother Ha fuel) as (both & Hb & _ & _ & _ & Hboth);
    [lia|].
  destruct (or_Ok self other Hself Hother Ha fuel) as (either & He & _ & _ & _ & Heither);
    [lia|].
  exists both, either. split_and!; [done..|].
  intros input Hin. rewrite Hboth, Heither by done.
  rewrite (accepts_lang self), (accepts_lang other) by (done || by rewrite Ha).
  split.
  - split.
    + intros [= [??]%andb_true_iff]. by split; f_equal.
    + intros [[= ->] [= ->]]. done.
  - split.
    + intros [= [?|?]%orb_true_iff]; [left|right]; by f_equal.
    + intros [[= ->]|[= ->]]; [done|]. f_equal. apply orb_true_r.
Qed.

(** ** Concatenation *)

Lemma elem_of_subsets `{Countable A} (l : list A) (X : gset A) :
  X ⊆ list_to_set l → X ∈ subsets l.
Proof.
  revert X. induction l as [|x l IH]; intros X HX; simpl.
  - assert (X = ∅) as -> by set_solver. by left.
  - apply elem_of_app. destruct (decide (x ∈ X)) as [Hx|Hx].
    + right. apply list_elem_of_fmap. exists (X ∖ {[x]}). split.
      * apply set_eq. intros y. destruct (decide (y = x)); set_solver.
      * apply IH. set_solver.
    + left. apply IH. set_solver.
Qed.

Section concat.
Variables self other : fsm.
Hypothesis Hself : validated self.
Hypothesis Hother : validated other.
Hypothesis Halphabet : alphabet other = alphabet self.

Definition add_P_at (x : nat * State) : Prop :=
  (x.1 = 0 ∧ x.2 ∈ states self) ∨ (x.1 = 1 ∧ x.2 ∈ states other).

Definition add_P (S : gset (nat * State)) : Prop := ∀ x, x ∈ S → add_P_at x.

Definition add_step (a : symbol) (x : nat * State) : list (nat * State) :=
  if decide (x.1 = 0) then
    (0, delta self x.2 a)
      :: (if decide (delta self x.2 a ∈ finals self)
          then [(1, initial other)] else [])
  else [(1, delta other x.2 a)].

Definition add_next (S : gset (nat * State)) (a : symbol) : gset (nat * State) :=
  list_to_set (elements S ≫= add_step a).

Definition add_final_at (x : nat * State) : bool :=
  if decide (x.1 = 0)
  then bool_decide (x.2 ∈ finals self) && bool_decide (initial other ∈ finals other)
  else bool_decide (x.2 ∈ finals other).

Definition add_final (S : gset (nat * State)) : bool :=
  existsb add_final_at (elements S).

Definition add_initial : gset (nat * State) :=
  if decide (initial self ∈ finals self)
  then list_to_set [(0, initial self); (1, initial other)]
  else list_to_set [(0, initial self)].

Definition add_univ : list (gset (nat * State)) :=
  subsets (((0,.) <$> elements (states self))
           ++ ((1,.) <$> elements (states other))).

Lemma add_getNext_Ok a l nextStates :
  a ∈ alphabet self → Forall add_P_at l →
  add_getNext self other a l nextStates = Ok (nextStates ++ (l ≫= add_step a)).
Proof.
  intros Ha Hl. revert nextStates.
  induction Hl as [|[i q] l Hx _ IH]; intros nextStates; simpl.
  { by rewrite (right_id_L [] (++)). }
  destruct Hx as [[Hi Hq]|[Hi Hq]]; simpl in *; subst i.
  - rewrite decide_True by done.
    destruct (delta_validated self q a) as (row & Hr & Hn & ?); [done..|].
    unfold getitem. rewrite Hr. simpl. rewrite Hn. simpl. rewrite IH.
    unfold add_step at 2. simpl.
    case_decide; by rewrite <- !(assoc_L (++)).
  - rewrite decide_False, decide_True by done.
    destruct (delta_validated other q a) as (row & Hr & Hn & ?);
      [done..|by rewrite Halphabet|].
    unfold getitem. rewrite Hr. simpl. rewrite Hn. simpl. rewrite IH.
    by rewrite <- (assoc_L (++)).
Qed.

Lemma add_isFinal_Ok l :
  Forall add_P_at l → add_isFinal self other l = Ok (existsb add_final_at l).
Proof.
  induction 1 as [|[i q] l Hx _ IH]; simpl; [done|].
  unfold add_final_at at 1. simpl. rewrite !bool_decide_decide.
  destruct Hx as [[Hi Hq]|[Hi Hq]]; simpl in *; subst i;
    repeat case_decide; try lia; done.
Qed.

Lemma elem_of_add_next S a x :
  x ∈ add_next S a ↔ ∃ y, y ∈ S ∧ x ∈ add_step a y.
Proof.
  unfold add_next. rewrite elem_of_list_to_set, list_elem_of_bind.
  setoid_rewrite elem_of_elements. naive_solver.
Qed.

Lemma add_P_initial : add_P add_initial.
Proof.
  pose proof (valid_initial _ Hself). pose proof (valid_initial _ Hother).
  unfold add_initial, add_P, add_P_at.
  case_decide; intros x; rewrite elem_of_list_to_set;
    repeat (rewrite elem_of_cons); rewrite elem_of_nil; naive_solver.
Qed.

Lemma add_P_next S a : add_P S → a ∈ alphabet self → add_P (add_next S a).
Proof.
  intros HS Ha x (y & Hy & Hx)%elem_of_add_next.
  pose proof (valid_initial _ Hother).
  destruct (HS y Hy) as [[Hi Hq]|[Hi Hq]]; unfold add_step in Hx.
  - rewrite decide_True in Hx by done.
    pose proof (delta_states self y.2 a Hself Hq Ha).
    case_decide; repeat (apply elem_of_cons in Hx as [->|Hx]);
      try (by apply elem_of_nil in Hx); unfold add_P_at; naive_solver.
  - rewrite decide_False in Hx by lia.
    apply list_elem_of_singleton in Hx as ->. right. split; [done|].
    apply delta_states; [done..|by rewrite Halphabet].
Qed.

Lemma add_P_univ S : add_P S → S ∈ add_univ.
Proof.
  intros HS. apply elem_of_subsets. intros [i q] Hx.
  rewrite list_to_set_app, elem_of_union, !elem_of_list_to_set, !list_elem_of_fmap.
  setoid_rewrite elem_of_elements.
  destruct (HS _ Hx) as [[Hi Hq]|[Hi Hq]]; simpl in *; subst; eauto.
Qed.

Lemma add_P_foldl input :
  Forall (.∈ alphabet self) input → add_P (foldl add_next add_initial input).
Proof.
  induction input as [|a input IH] using rev_ind; intros Hin; simpl.
  - apply add_P_initial.
  - rewrite Forall_app, Forall_singleton in Hin. destruct Hin as [Hin Ha].
    rewrite foldl_app. simpl. apply add_P_next; [|done]. by apply IH.
Qed.

Lemma add_foldl input :
  Forall (.∈ alphabet self) input →
  ∀ q,
    ((0, q) ∈ foldl add_next add_initial input ↔
       q = foldl (delta self) (initial self) input) ∧
    ((1, q) ∈ foldl add_next add_initial input ↔
       ∃ u v, input = u ++ v ∧ lang self u = true ∧
              q = foldl (delta other) (initial other) v).
Proof.
  induction input as [|a input IH] using rev_ind; intros Hin q.
  - simpl. unfold add_initial, lang. split.
    + case_decide; rewrite elem_of_list_to_set; repeat (rewrite elem_of_cons);
        rewrite elem_of_nil; naive_solver.
    + split.
      * case_decide; rewrite elem_of_list_to_set; repeat (rewrite elem_of_cons);
          rewrite elem_of_nil; [|naive_solver].
        intros [[=]|[[= ->]|[]]]. exists [], []. split_and!; [done| |done].
        by apply bool_decide_eq_true_2.
      * intros (u & v & Huv & Hu & ->). symmetry in Huv.
        apply app_eq_nil in Huv as [-> ->]. simpl in *.
        apply bool_decide_eq_true_1 in Hu. rewrite decide_True by done.
        set_solver.
  - rewrite Forall_app, Forall_singleton in Hin. destruct Hin as [Hin Ha].
    specialize (IH Hin). pose proof (add_P_foldl input Hin) as HP.
    rewrite !foldl_app. simpl. rewrite !elem_of_add_next.
    set (S := foldl add_next add_initial input) in *.
    set (qA := foldl (delta self) (initial self) input) in *.
    split.
    + split.
      * intros ([i p] & Hy & Hx). unfold add_step in Hx. simpl in Hx.
        destruct (decide (i = 0)) as [->|Hi].
        -- apply (IH p) in Hy as ->.
           case_decide; repeat (apply elem_of_cons in Hx as [Hx|Hx]);
             try (by apply elem_of_nil in Hx); congruence.
        -- apply list_elem_of_singleton in Hx. congruence.
      * intros ->. exists (0, qA). split; [by apply IH|].
        unfold add_step. simpl. by left.
    + split.
      * intros ([i p] & Hy & Hx). unfold add_step in Hx. simpl in Hx.
        destruct (decide (i = 0)) as [->|Hi].
        -- apply (IH p) in Hy as ->.
           case_decide as Hfin; repeat (apply elem_of_cons in Hx as [Hx|Hx]);
             try (by apply elem_of_nil in Hx); try congruence.
           injection Hx as ->. exists (input ++ [a]), []. split_and!.
           ++ by rewrite (right_id_L [] (++)).
           ++ unfold lang. rewrite foldl_app. simpl. by apply bool_decide_eq_true_2.
           ++ done.
        -- apply list_elem_of_singleton in Hx. injection Hx as ->.
           destruct (HP _ Hy) as [[? _]|[? _]]; simpl in *; [done|subst i].
           apply (IH p) in Hy as (u & v & -> & Hu & ->).
           exists u, (v ++ [a]). split_and!; [by rewrite (assoc_L (++))|done|].
           by rewrite foldl_app.
      * intros (u & v & Huv & Hu & ->).
        destruct v as [|b v _] using rev_ind.
        -- rewrite (right_id_L [] (++)) in Huv. subst u.
           exists (0, qA). split; [by apply IH|].
           unfold add_step. simpl. unfold lang in Hu. rewrite foldl_app in Hu.
           simpl in Hu. apply bool_decide_eq_true_1 in Hu.
           rewrite decide_True by done. right. by left.
        -- rewrite (assoc_L (++)) in Huv. apply app_inj_tail in Huv as [-> ->].
           exists (1, foldl (delta other) (initial other) v). split.
           ++ apply IH. eauto.
           ++ unfold add_step. simpl. rewrite foldl_app. simpl. by left.
Qed.

Lemma add_final_foldl input :
  Forall (.∈ alphabet self) input →
  add_final (foldl add_next add_initial input) = true ↔
  ∃ u v, input = u ++ v ∧ lang self u = true ∧ lang other v = true.
Proof.
  intros Hin. unfold add_final. rewrite existsb_exists.
  setoid_rewrite <- list_elem_of_In. setoid_rewrite elem_of_elements.
  pose proof (add_P_foldl input Hin) as HP. split.
  - intros ([i q] & Hx & Hf). unfold add_final_at in Hf. simpl in Hf.
    destruct (decide (i = 0)) as [->|Hi].
    + apply andb_true_iff in Hf as [Hq%bool_decide_eq_true_1 Ho].
      apply (add_foldl input Hin) in Hx as ->.
      exists input, []. split_and!; [by rewrite (right_id_L [] (++))| |done].
      by apply bool_decide_eq_true_2.
    + destruct (HP _ Hx) as [[? _]|[? _]]; simpl in *; [done|subst i].
      apply (add_foldl input Hin) in Hx as (u & v & -> & Hu & ->).
      exists u, v. done.
  - intros (u & v & -> & Hu & Hv).
    exists (1, foldl (delta other) (initial other) v). split.
    + apply (add_foldl (u ++ v) Hin). eauto.
    + done.
Qed.

Lemma add_Ok fuel :
  length add_univ < fuel →
  ∃ result, __add__ fuel self other = Ok result ∧
    valid result ∧ alphabet result = alphabet self ∧
    size (states result) ≤ length add_univ ∧
    ∀ input, Forall (.∈ alphabet self) input →
      ∃ b, accepts result input = Ok b ∧
        (b = true ↔
         ∃ u v, input = u ++ v ∧ lang self u = true ∧ lang other v = true).
Proof.
  intros Hfuel. unfold __add__. rewrite decide_False by (by intros []).
  fold add_initial.
  edestruct (crawl_Ok
    (λ currentState : gset (nat * State),
       add_isFinal self other (elements currentState))
    (λ (currentState : gset (nat * State)) a,
       nextStates ← add_getNext self other a (elements currentState) [];
       Ok (list_to_set nextStates))
    (alphabet self) add_initial add_P add_final add_next add_univ)
    as (result & Hr & Hv & Ha & Hsize & Hacc); [..|exact Hfuel|].
  - apply add_P_initial.
  - intros S a HS Ha. split; [|by apply add_P_next].
    rewrite add_getNext_Ok; [done..|].
    apply Forall_forall. intros x Hx%elem_of_elements. by apply HS.
  - intros S HS. apply add_isFinal_Ok.
    apply Forall_forall. intros x Hx%elem_of_elements. by apply HS.
  - apply add_P_univ.
  - exists result. split_and!; [done..|].
    intros input Hin. eexists. split; [by apply Hacc|].
    by apply add_final_foldl.
Qed.

End concat.

(** ** [epsilon] *)

Lemma epsilon_Ok (alphabet0 : gset symbol) :
  ∃ e, epsilon alphabet0 = Ok e ∧ valid e ∧ alphabet e = alphabet0 ∧
    ∀ input, Forall (.∈ alphabet0) input →
      lang e input = true ↔ input = [].
Proof.
  set (row := gset_to_gmap (SInt 1) alphabet0).
  set (e := Fsm alphabet0 {[SInt 0; SInt 1]} (SInt 0) {[SInt 0]}
              (<[SInt 0 := row]> {[SInt 1 := row]})).
  assert (complete alphabet0 {[SInt 0; SInt 1]}
            (<[SInt 0 := row]> {[SInt 1 := row]})) as Hc.
  { intros q Hq. exists row. split.
    - apply elem_of_union in Hq as [->%elem_of_singleton| ->%elem_of_singleton].
      + by rewrite lookup_insert_eq.
      + by rewrite lookup_insert_ne, lookup_singleton_eq.
    - intros a Ha. exists (SInt 1). split; [|set_solver].
      by apply lookup_gset_to_gmap_Some. }
  assert (validated e) as Hvd.
  { apply validated_spec. simpl. split_and!; [set_solver..|done]. }
  exists e. split_and!.
  - unfold epsilon. apply init_Ok. split_and!; [done|set_solver..|done].
  - split_and!; [done| |].
    + simpl. rewrite dom_insert_L, dom_singleton_L. done.
    + intros q r. simpl. rewrite lookup_insert. case_decide.
      * intros [= <-]. apply dom_gset_to_gmap.
      * rewrite lookup_singleton. case_decide; [|done].
        intros [= <-]. apply dom_gset_to_gmap.
  - done.
  - assert (∀ q a, q ∈ states e → a ∈ alphabet0 → delta e q a = SInt 1) as Hd.
    { intros q a Hq Ha. destruct (Hc q Hq) as (r & Hr & _).
      assert (r = row) as ->.
      { simpl in Hq.
        apply elem_of_union in Hq as [->%elem_of_singleton| ->%elem_of_singleton].
        - rewrite lookup_insert_eq in Hr. congruence.
        - rewrite lookup_insert_ne, lookup_singleton_eq in Hr by done. congruence. }
      unfold delta. simpl in *. rewrite Hr. simpl. subst row.
      by rewrite (proj2 (lookup_gset_to_gmap_Some _ _ _ _) (conj Ha eq_refl)). }
    assert (∀ input, Forall (.∈ alphabet0) input →
              foldl (delta e) (SInt 1) input = SInt 1) as H1.
    { induction 1 as [|a input Ha _ IH]; simpl; [done|].
      rewrite Hd; [done| |done]. simpl. set_solver. }
    intros input Hin. unfold lang. destruct Hin as [|a input Ha Hin]; simpl.
    + split; [done|]. intros _. by apply bool_decide_eq_true_2, elem_of_singleton.
    + rewrite Hd, H1; [|done| |done].
      * split; [|done]. intros [=]%bool_decide_eq_true_1%elem_of_singleton.
      * simpl. set_solver.
Qed.

(** C3. For a validated automaton [self], [self + epsilon(self.alphabet)] and
    [epsilon(self.alphabet) + self] return, and both accept the inputs over
    the alphabet that [self] accepts, and no other. *)
Theorem concat_epsilon_identity self :
  validated self →
  ∃ n, ∀ fuel, n ≤ fuel →
    ∃ e left right,
      epsilon (alphabet self) = Ok e ∧
      __add__ fuel self e = Ok left ∧
      __add__ fuel e self = Ok right ∧
      ∀ input, Forall (.∈ alphabet self) input →
        accepts left input = accepts self input ∧
        accepts right input = accepts self input.
Proof.
  intros Hself.
  destruct (epsilon_Ok (alphabet self)) as (e & He & Hv & Ha & Hlang).
  pose proof (valid_validated e Hv) as Hvd.
  exists (S (length (add_univ self e) `max` length (add_univ e self))).
  intros fuel Hfuel.
  destruct (add_Ok self e Hself Hvd Ha fuel) as (left & Hl & _ & _ & _ & Hleft); [lia|].
  destruct (add_Ok e self Hvd Hself (eq_sym Ha) fuel)
    as (right & Hr & _ & _ & _ & Hright); [lia|].
  exists e, left, right. split_and!; [done..|].
  intros input Hin. rewrite (accepts_lang self) by done. split.
  - destruct (Hleft input Hin) as (b & -> & Hb). f_equal.
    apply eq_true_iff_eq. rewrite Hb. split.
    + intros (u & v & -> & Hu & Hv0). apply Forall_app in Hin as [_ Hin].
      apply Hlang in Hv0 as ->; [|done]. by rewrite (right_id_L [] (++)).
    + intros Hu. exists input, []. split_and!; [by rewrite (right_id_L [] (++))|done|].
      by apply Hlang.
  - destruct (Hright input) as (b & -> & Hb); [by rewrite Ha|]. f_equal.
    apply eq_true_iff_eq. rewrite Hb. split.
    + intros (u & v & -> & Hu & Hv0). apply Forall_app in Hin as [Hin _].
      apply Hlang in Hu as ->; [|done]. done.
    + intros Hu. exists [], input. split_and!; [done| |done].
      by apply Hlang.
Qed.

(** ** Kleene star *)

Lemma in_star_concat L u v : in_star L u → in_star L v → in_star L (u ++ v).
Proof.
  induction 1 as [|u1 u2 H1 _ IH]; intros Hv; [done|].
  rewrite <- (assoc_L (++)). apply in_star_app; auto.
Qed.

Lemma in_star_snoc L u v : in_star L u → L v → in_star L (u ++ v).
Proof.
  intros Hu Hv. apply in_star_concat; [done|].
  rewrite <- (right_id_L [] (++) v). apply in_star_app; [done|constructor].
Qed.

(** A word of the closure that is not empty ends with a word of [L] that is
    not empty. *)
Lemma in_star_last L w :
  in_star L w → w ≠ [] →
  ∃ u v, w = u ++ v ∧ in_star L u ∧ L v ∧ v ≠ [].
Proof.
  induction 1 as [|u v Hu Hv IH]; intros Hw; [done|].
  destruct (decide (v = [])) as [->|Hne].
  - rewrite (right_id_L [] (++)) in Hw |- *.
    exists [], u. split_and!; [done|constructor|done..].
  - destruct (IH Hne) as (u1 & v1 & -> & ? & ? & ?).
    exists (u ++ u1), v1. split_and!; [by rewrite (assoc_L (++))| |done..].
    by apply in_star_app.
Qed.

Lemma in_star_ext (P : symbol → Prop) (L1 L2 : list symbol → Prop) w :
  (∀ u, Forall P u → L1 u → L2 u) → Forall P w → in_star L1 w → in_star L2 w.
Proof.
  intros HL Hw Hs. induction Hs as [|u v Hu Hv IH]; [constructor|].
  apply Forall_app in Hw as [? ?]. apply in_star_app; auto.
Qed.

Lemma in_star_idemp L w : in_star (in_star L) w ↔ in_star L w.
Proof.
  split.
  - induction 1 as [|u v Hu _ IH]; [constructor|]. by apply in_star_concat.
  - intros Hw. rewrite <- (right_id_L [] (++) w). apply in_star_app; [done|constructor].
Qed.

Lemma length_subsets `{Countable A} (l : list A) : length (subsets l) = 2 ^ length l.
Proof.
  induction l as [|x l IH]; simpl; [done|].
  rewrite length_app, length_fmap, IH. lia.
Qed.

Lemma star_omega_fuel fuel self k :
  star_omega fuel self k = OutOfFuel →
  ∀ j, j < fuel → SInt (k + Z.of_nat j) ∈ states self.
Proof.
  revert k. induction fuel as [|fuel IH]; intros k; simpl; [intros _ j; lia|].
  case_decide as Hk; [|done]. intros Hf j Hj.
  destruct j as [|j]; [by rewrite Z.add_0_r|].
  replace (k + Z.of_nat (S j))%Z with ((k + 1) + Z.of_nat j)%Z by lia.
  apply IH; [done|lia].
Qed.

Lemma star_omega_Ok fuel self :
  size (states self) < fuel →
  ∃ omega, star_omega fuel self 0 = Ok omega ∧ SInt omega ∉ states self.
Proof.
  intros Hfuel. destruct (star_omega fuel self 0) as [omega|e|] eqn:Ho.
  - exists omega. split; [done|]. clear Hfuel. revert Ho. generalize 0%Z.
    induction fuel as [|fuel IH]; intros k; simpl; [done|].
    case_decide; [by apply IH|]. by intros [= <-].
  - exfalso. clear Hfuel. revert Ho. generalize 0%Z.
    induction fuel as [|fuel IH]; intros k; simpl; [done|].
    case_decide; [by apply IH|done].
  - exfalso. pose proof (star_omega_fuel _ _ _ Ho) as Hin.
    assert (fuel ≤ size (states self)); [|lia].
    pose (l := (λ j : nat, SInt (Z.of_nat j)) <$> seq 0 fuel).
    assert (length l = fuel) as Hlen by (subst l; by rewrite length_fmap, length_seq).
    rewrite <- Hlen, <- (size_list_to_set (C:=gset State) l).
    + apply subseteq_size. intros q (j & -> & Hj%elem_of_seq)%elem_of_list_to_set%list_elem_of_fmap.
      apply (Hin j). lia.
    + apply NoDup_fmap; [|apply NoDup_seq]. intros i j [= ?]. lia.
Qed.

Section star.
Variable self : fsm.
Variable omegaState : State.
Hypothesis Hself : validated self.
Hypothesis Homega : omegaState ∉ states self.

Definition star_P (S : gset State) : Prop :=
  ∀ q, q ∈ S → q = omegaState ∨ q ∈ states self.

Definition star_real (q : State) : State :=
  if decide (q = omegaState) then initial self else q.

Definition star_step (a : symbol) (q : State) : list State :=
  delta self (star_real q) a
    :: (if decide (delta self (star_real q) a ∈ finals self)
        then [omegaState] else []).

Definition star_next (S : gset State) (a : symbol) : gset State :=
  list_to_set (elements S ≫= star_step a).

Definition star_univ : list (gset State) :=
  subsets (omegaState :: elements (states self)).

Lemma star_real_states q :
  q = omegaState ∨ q ∈ states self → star_real q ∈ states self.
Proof.
  unfold star_real. intros [->|Hq].
  - rewrite decide_True by done. by apply valid_initial.
  - rewrite decide_False; [done|]. by intros ->.
Qed.

Lemma star_getNext_Ok a l nextState :
  a ∈ alphabet self → Forall (λ q, q = omegaState ∨ q ∈ states self) l →
  star_getNext self omegaState a l nextState
  = Ok (nextState ++ (l ≫= star_step a)).
Proof.
  intros Ha Hl. revert nextState.
  induction Hl as [|q l Hq _ IH]; intros nextState; simpl.
  { by rewrite (right_id_L [] (++)). }
  fold (star_real q).
  destruct (delta_validated self (star_real q) a) as (row & Hr & Hn & ?);
    [done|by apply star_real_states|done|].
  unfold getitem. rewrite Hr. simpl. rewrite Hn. simpl. rewrite IH.
  unfold star_step at 2. case_decide; by rewrite <- !(assoc_L (++)).
Qed.

Lemma elem_of_star_next S a x :
  x ∈ star_next S a ↔ ∃ y, y ∈ S ∧ x ∈ star_step a y.
Proof.
  unfold star_next. rewrite elem_of_list_to_set, list_elem_of_bind.
  setoid_rewrite elem_of_elements. naive_solver.
Qed.

Lemma elem_of_star_step a y x :
  x ∈ star_step a y ↔
  x = delta self (star_real y) a ∨
  (x = omegaState ∧ delta self (star_real y) a ∈ finals self).
Proof.
  unfold star_step. rewrite elem_of_cons.
  case_decide; rewrite ?list_elem_of_singleton, ?elem_of_nil; naive_solver.
Qed.

Lemma star_P_next S a : star_P S → a ∈ alphabet self → star_P (star_next S a).
Proof.
  intros HS Ha x (y & Hy & Hx)%elem_of_star_next.
  apply elem_of_star_step in Hx as [->|[-> _]]; [right|by left].
  apply delta_states; [done| |done]. by apply star_real_states, HS.
Qed.

Lemma star_P_foldl input :
  Forall (.∈ alphabet self) input →
  star_P (foldl star_next (list_to_set [omegaState]) input).
Proof.
  induction input as [|a input IH] using rev_ind; intros Hin; simpl.
  - intros q Hq. left. set_solver.
  - rewrite Forall_app, Forall_singleton in Hin. destruct Hin as [Hin Ha].
    rewrite foldl_app. simpl. apply star_P_next; [|done]. by apply IH.
Qed.

Lemma star_P_univ S : star_P S → S ∈ star_univ.
Proof.
  intros HS. apply elem_of_subsets. intros q Hq.
  rewrite list_to_set_cons, elem_of_union, elem_of_singleton, elem_of_list_to_set,
    elem_of_elements.
  by apply HS.
Qed.

Lemma star_foldl input :
  Forall (.∈ alphabet self) input →
  (omegaState ∈ foldl star_next (list_to_set [omegaState]) input ↔
     in_star (λ u, lang self u = true) input) ∧
  ∀ q, q ≠ omegaState →
    (q ∈ foldl star_next (list_to_set [omegaState]) input ↔
       ∃ u v, input = u ++ v ∧ v ≠ [] ∧ in_star (λ u, lang self u = true) u ∧
              q = foldl (delta self) (initial self) v).
Proof.
  induction input as [|a input IH] using rev_ind; intros Hin.
  - simpl. split.
    + split; [constructor|]. intros _. set_solver.
    + intros q Hq. split; [set_solver|].
      intros (u & v & Huv & Hv & _). symmetry in Huv.
      by apply app_eq_nil in Huv as [_ ->].
  - rewrite Forall_app, Forall_singleton in Hin. destruct Hin as [Hin Ha].
    destruct (IH Hin) as [IHo IHq]. pose proof (star_P_foldl input Hin) as HP.
    rewrite !foldl_app. simpl.
    set (S := foldl star_next (list_to_set [omegaState]) input) in *.
    assert (∀ y, y ∈ S →
              ∃ u v, input = u ++ v ∧ in_star (λ u, lang self u = true) u ∧
                     star_real y = foldl (delta self) (initial self) v ∧
                     (y = omegaState ↔ v = [])) as Hfrom.
    { intros y Hy. unfold star_real. destruct (decide (y = omegaState)) as [->|Hne].
      - exists input, []. split_and!; [by rewrite (right_id_L [] (++))|by apply IHo|done..].
      - apply (IHq y Hne) in Hy as (u & v & -> & Hv & Hu & ->).
        exists u, v. split_and!; done. }
    assert (∀ u v, input = u ++ v → in_star (λ u, lang self u = true) u →
              ∃ y, y ∈ S ∧ star_real y = foldl (delta self) (initial self) v)
      as Hto.
    { intros u v -> Hu. destruct (decide (v = [])) as [->|Hv].
      - exists omegaState. split.
        + apply IHo. by rewrite (right_id_L [] (++)).
        + unfold star_real. by rewrite decide_True.
      - assert (foldl (delta self) (initial self) v ∈ states self) as Hst.
        { apply Forall_app in Hin as [_ Hin].
          apply foldl_delta_states; [done|by apply valid_initial|done]. }
        exists (foldl (delta self) (initial self) v). split.
        + apply IHq; [by intros Heq; rewrite Heq in Hst|].
          exists u, v. by split_and!.
        + unfold star_real. rewrite decide_False; [done|].
          by intros Heq; rewrite Heq in Hst. }
    split.
    + rewrite elem_of_star_next. split.
      * intros (y & Hy & Hx). apply elem_of_star_step in Hx as [Hx|[_ Hx]].
        { exfalso. apply Homega. rewrite Hx.
          apply delta_states; [done| |done]. by apply star_real_states, HP. }
        destruct (Hfrom y Hy) as (u & v & -> & Hu & Hv & _).
        rewrite <- (assoc_L (++)). apply in_star_snoc; [done|].
        unfold lang. rewrite foldl_app. simpl. rewrite <- Hv.
        by apply bool_decide_eq_true_2.
      * intros Hs. apply in_star_last in Hs as (u & v & Huv & Hu & Hv & Hne);
          [|by intros []%app_eq_nil].
        destruct v as [|b v _] using rev_ind; [done|].
        rewrite (assoc_L (++)) in Huv. apply app_inj_tail in Huv as [-> ->].
        destruct (Hto u v eq_refl Hu) as (y & Hy & Hr). exists y. split; [done|].
        apply elem_of_star_step. right. split; [done|].
        unfold lang in Hv. rewrite foldl_app in Hv. simpl in Hv. rewrite Hr.
        by apply bool_decide_eq_true_1 in Hv.
    + intros q Hq. rewrite elem_of_star_next. split.
      * intros (y & Hy & Hx). apply elem_of_star_step in Hx as [->|[-> _]]; [|done].
        destruct (Hfrom y Hy) as (u & v & -> & Hu & Hv & _).
        exists u, (v ++ [a]). split_and!.
        -- by rewrite (assoc_L (++)).
        -- by intros []%app_eq_nil.
        -- done.
        -- rewrite foldl_app. simpl. by rewrite Hv.
      * intros (u & v & Huv & Hne & Hu & ->).
        destruct v as [|b v _] using rev_ind; [done|].
        rewrite (assoc_L (++)) in Huv. apply app_inj_tail in Huv as [-> ->].
        destruct (Hto u v eq_refl Hu) as (y & Hy & Hr). exists y. split; [done|].
        apply elem_of_star_step. left. rewrite foldl_app. simpl. by rewrite Hr.
Qed.

Lemma star_crawl_Ok fuel :
  length star_univ < fuel →
  ∃ result,
    _crawl (λ currentState : gset State,
              Ok (bool_decide (omegaState ∈ currentState)))
           (λ (currentState : gset State) a,
              nextState ← star_getNext self omegaState a (elements currentState) [];
              Ok (list_to_set nextState))
           fuel (alphabet self) (list_to_set [omegaState]) = Ok result ∧
    valid result ∧ alphabet result = alphabet self ∧
    size (states result) ≤ length star_univ ∧
    ∀ input, Forall (.∈ alphabet self) input →
      ∃ b, accepts result input = Ok b ∧
        (b = true ↔ in_star (λ u, lang self u = true) input).
Proof.
  intros Hfuel.
  edestruct (crawl_Ok
    (λ currentState : gset State, Ok (bool_decide (omegaState ∈ currentState)))
    (λ (currentState : gset State) a,
       nextState ← star_getNext self omegaState a (elements currentState) [];
       Ok (list_to_set nextState))
    (alphabet self) (list_to_set [omegaState]) star_P
    (λ S : gset State, bool_decide (omegaState ∈ S)) star_next star_univ)
    as (result & Hr & Hv & Ha & Hsize & Hacc); [..|exact Hfuel|].
  - intros q Hq. left. set_solver.
  - intros S a HS Ha. split; [|by apply star_P_next].
    rewrite star_getNext_Ok; [done..|].
    apply Forall_forall. intros x Hx%elem_of_elements. by apply HS.
  - done.
  - apply star_P_univ.
  - exists result. split_and!; [done..|].
    intros input Hin. eexists. split; [by apply Hacc|].
    rewrite bool_decide_eq_true. by apply star_foldl.
Qed.

End star.

Lemma star_Ok self fuel :
  validated self → 2 ^ S (size (states self)) < fuel →
  ∃ result, star fuel self = Ok result ∧
    valid result ∧ alphabet result = alphabet self ∧
    size (states result) ≤ 2 ^ S (size (states self)) ∧
    ∀ input, Forall (.∈ alphabet self) input →
      ∃ b, accepts result input = Ok b ∧
        (b = true ↔ in_star (λ u, lang self u = true) input).
Proof.
  intros Hself Hfuel.
  assert (size (states self) < 2 ^ S (size (states self))) as Hlt.
  { apply Nat.lt_trans with (S (size (states self))); [lia|].
    apply Nat.pow_gt_lin_r. lia. }
  destruct (star_omega_Ok fuel self) as (omega & Ho & Homega); [lia|].
  assert (length (star_univ self (SInt omega)) = 2 ^ S (size (states self))) as Hlen.
  { unfold star_univ. by rewrite length_subsets. }
  destruct (star_crawl_Ok self (SInt omega) Hself Homega fuel)
    as (result & Hr & Hrest); [by rewrite Hlen|].
  rewrite Hlen in Hrest. exists result. split; [|done].
  unfold star. rewrite Ho. exact Hr.
Qed.

(** C4. For a validated automaton [self], [self.star()] and
    [self.star().star()] return, and they accept the same inputs over the
    alphabet: the concatenations of inputs that [self] accepts. *)
Theorem star_idempotent self :
  validated self →
  ∃ n, ∀ fuel, n ≤ fuel →
    ∃ once twice,
      star fuel self = Ok once ∧
      star fuel once = Ok twice ∧
      ∀ input, Forall (.∈ alphabet self) input →
        accepts twice input = accepts once input ∧
        (accepts once input = Ok true ↔
         in_star (λ u, accepts self u = Ok true) input).
Proof.
  intros Hself.
  exists (S (2 ^ S (2 ^ S (size (states self))))). intros fuel Hfuel.
  assert (2 ^ S (size (states self)) < 2 ^ S (2 ^ S (size (states self)))) as Hlt.
  { pose proof (Nat.pow_gt_lin_r 2 (S (size (states self)))).
    apply Nat.pow_lt_mono_r; lia. }
  destruct (star_Ok self fuel Hself) as (once & Honce & Hv1 & Ha1 & Hs1 & Hacc1); [lia|].
  pose proof (valid_validated once Hv1) as Hvd1.
  destruct (star_Ok once fuel Hvd1) as (twice & Htwice & _ & _ & _ & Hacc2).
  { apply Nat.le_lt_trans with (2 ^ S (2 ^ S (size (states self)))); [|lia].
    apply Nat.pow_le_mono_r; lia. }
  exists once, twice. split_and!; [done..|].
  intros input Hin.
  assert (∀ u, Forall (.∈ alphabet self) u →
            (accepts once u = Ok true ↔ in_star (λ u, lang self u = true) u))
    as Honce_lang.
  { intros u Hu. destruct (Hacc1 u Hu) as (b & -> & Hb). rewrite <- Hb.
    split; [by intros [= ->]|by intros ->]. }
  assert (∀ w, Forall (.∈ alphabet self) w →
            (in_star (λ u, lang self u = true) w ↔
             in_star (λ u, accepts self u = Ok true) w)) as Hself_lang.
  { intros w Hw. split; apply (in_star_ext (.∈ alphabet self)); try done.
    - intros u Hu Hl. by rewrite accepts_lang, Hl.
    - intros u Hu Hl. rewrite accepts_lang in Hl by done. by injection Hl. }
  split; [|by rewrite Honce_lang, Hself_lang].
  destruct (Hacc1 input Hin) as (b1 & -> & Hb1).
  destruct (Hacc2 input) as (b2 & -> & Hb2); [by rewrite Ha1|].
  f_equal. apply eq_true_iff_eq. rewrite Hb1, Hb2.
  rewrite <- (in_star_idemp (λ u, lang self u = true)).
  split; apply (in_star_ext (.∈ alphabet self)); try done.
  - intros u Hu Hl. apply Honce_lang; [done|].
    rewrite accepts_lang by (done || by rewrite Ha1). by rewrite Hl.
  - intros u Hu Hl%Honce_lang; [|done].
    rewrite accepts_lang in Hl by (done || by rewrite Ha1). by injection Hl.
Qed.

(** ** Binary operators on different alphabets *)

(** C7. On automata whose alphabets differ, [+], [|] and [&] raise
    [Exception] whatever the fuel, also with none: before the crawl starts. *)
Theorem alphabet_mismatch self other fuel :
  alphabet other ≠ alphabet self →
  __add__ fuel self other = Raise Exception ∧
  __or__ fuel self other = Raise Exception ∧
  __and__ fuel self other = Raise Exception.
Proof.
  intros Hne. unfold __add__, __or__, __and__. by rewrite !decide_True.
Qed.

(** ** Multiplication *)

Lemma length_add_univ self other :
  length (add_univ self other) = 2 ^ (size (states self) + size (states other)).
Proof.
  unfold add_univ. by rewrite length_subsets, length_app, !length_fmap.
Qed.

Lemma mul_fuel_mono n s s' t : s ≤ s' → mul_fuel n s t ≤ mul_fuel n s' t.
Proof.
  revert s s'. induction n as [|n IH]; intros s s' Hs; simpl; [done|].
  assert (2 ^ (s + t) ≤ 2 ^ (s' + t)) as Hpow by (apply Nat.pow_le_mono_r; lia).
  specialize (IH _ _ Hpow). lia.
Qed.

Lemma in_power_ext (P : symbol → Prop) (L1 L2 : list symbol → Prop) n w :
  (∀ u, Forall P u → L1 u → L2 u) → Forall P w →
  in_power L1 n w → in_power L2 n w.
Proof.
  intros HL. revert w. induction n as [|n IH]; intros w Hw; simpl; [done|].
  intros (u & v & -> & Hu & Hv). apply Forall_app in Hw as [? ?].
  exists u, v. split_and!; auto.
Qed.

Lemma mul_loop_Ok n fuel output q :
  validated output → validated q → alphabet q = alphabet output →
  mul_fuel n (size (states output)) (size (states q)) < fuel →
  ∃ result, mul_loop n fuel output q = Ok result ∧
    validated result ∧ alphabet result = alphabet output ∧
    ∀ input, Forall (.∈ alphabet output) input →
      lang result input = true ↔
      ∃ u v, input = u ++ v ∧ lang output u = true ∧
             in_power (λ w, lang q w = true) n v.
Proof.
  intros Hout Hq. revert output Hout.
  induction n as [|n IH]; intros output Hout Ha Hfuel; simpl in *.
  - exists output. split_and!; [done..|]. intros input Hin. split.
    + intros Hl. exists input, []. by rewrite (right_id_L [] (++)).
    + intros (u & v & -> & Hu & ->). by rewrite (right_id_L [] (++)).
  - destruct (add_Ok output q Hout Hq Ha fuel)
      as (result1 & -> & Hv1 & Ha1 & Hs1 & Hacc1).
    { rewrite length_add_univ. lia. }
    simpl. rewrite length_add_univ in Hs1.
    pose proof (valid_validated _ Hv1) as Hvd1.
    destruct (IH result1 Hvd1) as (result & Hr & Hvd & Ha' & Hlang);
      [congruence| |].
    { pose proof (mul_fuel_mono n _ _ (size (states q)) Hs1). lia. }
    exists result. split_and!; [done..|congruence|].
    intros input Hin. rewrite Hlang by (by rewrite Ha1). split.
    + intros (u & v & -> & Hu & Hv). apply Forall_app in Hin as [Hin1 Hin2].
      destruct (Hacc1 u Hin1) as (b & Hb & Hiff).
      rewrite accepts_lang in Hb by (done || by rewrite Ha1).
      injection Hb as <-. apply Hiff in Hu as (u1 & u2 & -> & Hu1 & Hu2).
      exists u1, (u2 ++ v). split_and!; [by rewrite (assoc_L (++))|done|].
      by exists u2, v.
    + intros (u1 & v' & -> & Hu1 & u2 & v & -> & Hu2 & Hv).
      exists (u1 ++ u2), v. split_and!; [by rewrite (assoc_L (++))| |done].
      rewrite (assoc_L (++)) in Hin. apply Forall_app in Hin as [Hin1 Hin2].
      destruct (Hacc1 (u1 ++ u2) Hin1) as (b & Hb & Hiff).
      rewrite accepts_lang in Hb by (done || by rewrite Ha1).
      injection Hb as <-. apply Hiff. by exists u1, u2.
Qed.

(** C10. For a validated automaton and [max < min], [self * (min, max)]
    returns what [self * (min, min)] returns, without raising; it accepts the
    inputs over the alphabet that are [min] inputs in a row that [self]
    accepts (none when [min] is negative), and no other. *)
Theorem mul_max_below_min self min max :
  validated self → (max < min)%Z →
  ∃ n, ∀ fuel, n ≤ fuel →
    ∃ result,
      __mul__ fuel self (min, Some max) = Ok result ∧
      __mul__ fuel self (min, Some min) = Ok result ∧
      ∀ input, Forall (.∈ alphabet self) input →
        ∃ b, accepts result input = Ok b ∧
          (b = true ↔
           in_power (λ u, accepts self u = Ok true) (Z.to_nat min) input).
Proof.
  intros Hself Hlt.
  destruct (epsilon_Ok (alphabet self)) as (e & He & Hve & Hae & Hlange).
  pose proof (valid_validated e Hve) as Hvde.
  exists (S (mul_fuel (Z.to_nat min) (size (states e)) (size (states self))
             `max` length (product_univ self e))).
  intros fuel Hfuel.
  destruct (mul_loop_Ok (Z.to_nat min) fuel e self Hvde Hself)
    as (result & Hr & Hvd & Ha & Hlang); [done|lia|].
  destruct (or_Ok self e Hself Hvde Hae fuel) as (q & Hq & _); [lia|].
  exists result. split_and!.
  - unfold __mul__. rewrite He. simpl. rewrite Hr. simpl. rewrite Hq. simpl.
    by replace (Z.to_nat (max - min)) with 0 by lia.
  - unfold __mul__. rewrite He. simpl. rewrite Hr. simpl. rewrite Hq. simpl.
    by replace (Z.to_nat (min - min)) with 0 by lia.
  - intros input Hin. exists (lang result input). split.
    { apply accepts_lang; [done|]. by rewrite Ha, Hae. }
    rewrite Hlang by (by rewrite Hae). split.
    + intros (u & v & -> & Hu & Hv). apply Forall_app in Hin as [Hin1 Hin2].
      apply Hlange in Hu as ->; [|done]. simpl.
      revert Hv. apply (in_power_ext (.∈ alphabet self)); [|done].
      intros w Hw Hl. by rewrite accepts_lang, Hl.
    + intros Hp. exists [], input. split_and!; [done|by apply Hlange|].
      revert Hp. apply (in_power_ext (.∈ alphabet self)); [|done].
      intros w Hw Hl. rewrite accepts_lang in Hl by done. by injection Hl.
Qed.

(** ** Patterns *)








(** *** Dicts in insertion order *)

Section odict_spec.
Context {K V : Type} `{EqDecision K}.
Implicit Types (d : list (K * V)) (k : K) (v : V).



Lemma od_lookup_None d k : od_lookup k d = None ↔ k ∉ d.*1.
Proof.
  induction d as [|[k' v'] d IH]; simpl; [split; [by intros _ ?%elem_of_nil|done]|].
  rewrite not_elem_of_cons. case_decide; [naive_solver|]. rewrite IH. naive_solver.
Qed.

Lemma od_set_keys d k v :
  (od_set k v d).*1 = if decide (k ∈ d.*1) then d.*1 else d.*1 ++ [k].
Proof.
  induction d as [|[k' v'] d IH]; csimpl.
  - done.
  - destruct (decide (k' = k)) as [->|Hne]; csimpl.
    + rewrite decide_True; [done|]. by left.
    + rewrite IH. destruct (decide (k ∈ d.*1)) as [Hin|Hin].
      * rewrite decide_True; [done|]. by right.
      * rewrite decide_False; [done|]. by intros [?|?]%elem_of_cons.
Qed.


Lemma elem_of_od_set_keys d k v k' :
  k' ∈ (od_set k v d).*1 ↔ k' = k ∨ k' ∈ d.*1.
Proof.
  rewrite od_set_keys. case_decide.
  - naive_solver.
  - rewrite elem_of_app, list_elem_of_singleton. naive_solver.
Qed.



Lemma elem_of_od_del d k k' v' :
  NoDup d.*1 → (k', v') ∈ od_del k d ↔ k' ≠ k ∧ (k', v') ∈ d.
Proof.
  induction d as [|[k0 v0] d IH]; simpl; intros Hd.
  - rewrite elem_of_nil. naive_solver.
  - apply NoDup_cons in Hd as [Hk0 Hd]. specialize (IH Hd).
    destruct (decide (k0 = k)) as [->|Hne].
    + rewrite elem_of_cons. split.
      * intros Hin. split; [|by right].
        intros ->. apply Hk0. apply list_elem_of_fmap. by exists (k, v').
      * intros [Hne [[= -> ->]|Hin]]; done.
    + rewrite !elem_of_cons, IH. naive_solver.
Qed.

End odict_spec.

(** *** Entries of [lefts] *)

Lemma od_lookup_od_set_ne {K V} `{EqDecision K} (d : list (K * V)) k k' v :
  k' ≠ k → od_lookup k' (od_set k v d) = od_lookup k' d.
Proof.
  intros Hne. induction d as [|[k0 v0] d IH]; simpl.
  - by rewrite decide_False.
  - destruct (decide (k0 = k)) as [->|?]; simpl.
    + by rewrite !decide_False.
    + case_decide; [done|apply IH].
Qed.

Section lefts_spec.
Variable self : fsm.
Implicit Types (lefts : list (option (gset State) * lego)).




Lemma elem_of_addTransition_keys lefts k e k' :
  k' ∈ (addTransition lefts k e).*1 ↔ k' = k ∨ k' ∈ lefts.*1.
Proof. unfold addTransition. destruct (od_lookup k lefts); apply elem_of_od_set_keys. Qed.

Lemma od_lookup_addTransition_ne lefts k e k' :
  k' ≠ k → od_lookup k' (addTransition lefts k e) = od_lookup k' lefts.
Proof.
  intros Hne. unfold addTransition.
  destruct (od_lookup k lefts); by apply od_lookup_od_set_ne.
Qed.



End lefts_spec.

(** *** [equation.__init__] *)

Section equation_spec.
Variable self : fsm.
Hypothesis Hv : valid self.














End equation_spec.

(** *** [applyLoops] and [eliminate] *)




Section eliminate_spec.
Variable self : fsm.
Hypothesis Hv : valid self.








End eliminate_spec.

(** *** The equations of [pattern] *)

Section pattern_spec.
Variable self : fsm.
Hypothesis Hv : valid self.












End pattern_spec.


(** ** The order of iteration over the alphabet *)

Lemma ascii_compare_lt_trans a b c :
  Ascii.compare a b = Lt → Ascii.compare b c = Lt → Ascii.compare a c = Lt.
Proof.
  unfold Ascii.compare. rewrite !N.compare_lt_iff. apply N.lt_trans.
Qed.

Lemma string_compare_lt_trans s1 s2 s3 :
  String.compare s1 s2 = Lt → String.compare s2 s3 = Lt →
  String.compare s1 s3 = Lt.
Proof.
  revert s2 s3. induction s1 as [|c1 s1 IH]; intros [|c2 s2] [|c3 s3]; simpl;
    try done.
  destruct (Ascii.compare c1 c2) eqn:H12; [|idtac|done];
    destruct (Ascii.compare c2 c3) eqn:H23; try done.
  - apply Ascii.compare_eq_iff in H12 as ->. rewrite H23. apply IH.
  - apply Ascii.compare_eq_iff in H12 as ->. by rewrite H23.
  - apply Ascii.compare_eq_iff in H23 as <-. by rewrite H12.
  - by rewrite (ascii_compare_lt_trans _ _ _ H12 H23).
Qed.

Lemma string_leb_trans s1 s2 s3 :
  String.leb s1 s2 = true → String.leb s2 s3 = true → String.leb s1 s3 = true.
Proof.
  unfold String.leb.
  destruct (String.compare s1 s2) eqn:H12; [|idtac|done];
    destruct (String.compare s2 s3) eqn:H23; try done.
  - apply String.compare_eq_iff in H12 as ->. by rewrite H23.
  - apply String.compare_eq_iff in H12 as ->. by rewrite H23.
  - apply String.compare_eq_iff in H23 as <-. by rewrite H12.
  - by rewrite (string_compare_lt_trans _ _ _ H12 H23).
Qed.

(** The order of [sorted(..., key=str)]. *)
Definition str_le (a b : symbol) : Prop := String.leb (str a) (str b) = true.

#[local] Instance str_le_trans : Transitive str_le.
Proof. intros a b c. apply string_leb_trans. Qed.

Lemma str_le_total a b : str_le a b ∨ str_le b a.
Proof. apply String.leb_total. Qed.

Lemma insort_HdRel a b l :
  str_le b a → HdRel str_le b l → HdRel str_le b (insort a l).
Proof.
  intros Hba Hl. destruct l as [|c l]; simpl; [by constructor|].
  destruct (String.leb (str a) (str c)); constructor; [done|]. by inversion Hl.
Qed.

Lemma insort_Sorted a l : Sorted str_le l → Sorted str_le (insort a l).
Proof.
  induction 1 as [|b l Hl IH Hb]; simpl; [by repeat constructor|].
  destruct (String.leb (str a) (str b)) eqn:Hab.
  - constructor; [by constructor|]. by constructor.
  - constructor; [done|]. apply insort_HdRel; [|done].
    destruct (str_le_total a b) as [Hle|Hle]; [|done].
    unfold str_le in Hle. congruence.
Qed.

Lemma sorted_Sorted l : Sorted str_le (sorted l).
Proof. induction l as [|a l IH]; simpl; [constructor|by apply insort_Sorted]. Qed.

(** Where no two symbols have the same [str], [sorted] gives one list for all
    the enumerations of a set of symbols. *)
Lemma sorted_unique enum enum' :
  enum ≡ₚ enum' →
  (∀ a b, a ∈ enum → b ∈ enum → str a = str b → a = b) →
  sorted enum = sorted enum'.
Proof.
  intros Hperm Hinj.
  apply (Sorted_unique_strong str_le); [|apply sorted_Sorted..|].
  - intros a b Ha Hb Hab Hba. rewrite sorted_Permutation in Ha, Hb.
    rewrite <- Hperm in Hb. apply Hinj; [done..|]. by apply String.leb_antisym.
  - by rewrite !sorted_Permutation.
Qed.

(** * Further properties of the module *)

(** ** [automerge], [trymerge] and [equivalent] *)

(** [automerge] keeps the language: on a valid automaton, with a loop bound of
    the number of states, it returns a valid automaton over the same alphabet,
    whose states are states of the original, and which accepts the same
    inputs. *)
Theorem automerge_accepts self fuel :
  valid self → size (states self) ≤ fuel →
  ∃ new, automerge fuel self = Ok new ∧ valid new ∧
    alphabet new = alphabet self ∧ states new ⊆ states self ∧
    ∀ input, Forall (.∈ alphabet self) input →
      accepts new input = accepts self input.
Proof.
  intros Hv Hfuel.
  destruct (automerge_loop_Ok fuel self Hv Hfuel)
    as (new & Hnew & ? & ? & ? & _ & ?).
  by exists new.
Qed.

(** A successful [trymerge] merges one state [this] into an equivalent state
    [that]: the new automaton has the states and the final states of the old
    one but [this], and [that] for its initial state where [this] was. *)
Theorem trymerge_drops_one self new :
  valid self → trymerge self = Ok (true, new) →
  ∃ this that, this ∈ states self ∧ that ∈ states self ∧ that ≠ this ∧
    equivalent self this that = Ok true ∧
    states new = states self ∖ {[this]} ∧
    finals new = finals self ∖ {[this]} ∧
    initial new = (if decide (initial self = this) then that else initial self) ∧
    size (states new) + 1 = size (states self).
Proof.
  intros Hv Hnew.
  apply trymerge_Ok in Hnew as (this & that & Hthis & Hthat & Hne & Heq & Hnew).
  destruct (replace_valid self this that Hv)
    as (new' & Hnew' & _ & Hstates & Hinitial & Hfinals & _).
  rewrite Hnew in Hnew'. injection Hnew' as <-.
  exists this, that. split_and!; [done..| | |done|].
  - rewrite Hstates. by apply rename_merge_states.
  - rewrite Hfinals. apply equivalent_true in Heq as (Hf & _).
    destruct Hv as (Hv%validated_spec & _). destruct Hv as (_ & Hsub & _).
    destruct (decide (this ∈ finals self)) as [Hin|Hin].
    + apply rename_merge_states; [done|by apply Hf|done].
    + apply set_eq. intros x.
      rewrite elem_of_map, elem_of_difference, elem_of_singleton. unfold rename.
      split.
      * intros (y & -> & Hy). case_decide; naive_solver.
      * intros (Hx & Hn). exists x. by rewrite decide_False.
  - rewrite Hstates, rename_merge_states by done.
    rewrite size_difference by set_solver. rewrite size_singleton.
    assert (size (states self) ≠ 0); [|lia].
    apply size_non_empty_iff. set_solver.
Qed.

Lemma equivalent_loop_sym self s1 s2 symbols :
  equivalent_loop self s1 s2 symbols = equivalent_loop self s2 s1 symbols.
Proof.
  induction symbols as [|a symbols IH]; simpl; [done|].
  unfold getitem.
  destruct (map self !! s1) as [row1|], (map self !! s2) as [row2|]; simpl;
    try done.
  - destruct (row1 !! a) as [n1|], (row2 !! a) as [n2|]; simpl; try done.
    rewrite IH. repeat case_decide; congruence.
  - by destruct (row1 !! a).
  - by destruct (row2 !! a).
Qed.

(** [equivalent] does not depend on the order of its two states: it gives the
    same answer, or fails in the same way, on [state1, state2] and on
    [state2, state1]. *)
Theorem equivalent_sym self state1 state2 :
  equivalent self state1 state2 = equivalent self state2 state1.
Proof.
  unfold equivalent. rewrite equivalent_loop_sym.
  repeat case_decide; congruence.
Qed.

(** Every state of a validated automaton is equivalent to itself. *)
Theorem equivalent_refl self state :
  validated self → state ∈ states self → equivalent self state state = Ok true.
Proof.
  intros Hv Hs. unfold equivalent. rewrite decide_False by naive_solver.
  assert (Forall (.∈ alphabet self) (elements (alphabet self))) as Hsym.
  { apply Forall_forall. intros a. by rewrite elem_of_elements. }
  apply validated_spec in Hv as (_ & _ & Hc).
  destruct (Hc state Hs) as (row & Hrow & Hnext).
  induction Hsym as [|a symbols Ha _ IH]; simpl; [done|].
  destruct (Hnext a Ha) as (next & Hn & _).
  unfold getitem. rewrite Hrow. simpl. rewrite Hn. simpl.
  by rewrite decide_False by naive_solver.
Qed.

(** Two states that [equivalent] finds equivalent cannot be told apart by any
    input: the runs from the two states end in states that are both final or
    both not final. *)
Theorem equivalent_sound self state1 state2 input :
  validated self → state1 ∈ states self → state2 ∈ states self →
  equivalent self state1 state2 = Ok true →
  Forall (.∈ alphabet self) input →
  ∃ end1 end2, walk self state1 input = Ok end1 ∧
    walk self state2 input = Ok end2 ∧
    (end1 ∈ finals self ↔ end2 ∈ finals self).
Proof.
  intros Hv H1 H2 Heq Hin.
  apply equivalent_true in Heq as (Hf & Hstep).
  assert (∀ q1 q2, q1 ∈ states self → q2 ∈ states self →
            rename state2 state1 q1 = rename state2 state1 q2 →
            ∃ end1 end2, walk self q1 input = Ok end1 ∧
              walk self q2 input = Ok end2 ∧
              (end1 ∈ finals self ↔ end2 ∈ finals self)) as Hgen.
  { induction Hin as [|a input Ha _ IH]; intros q1 q2 Hq1 Hq2 Hr; simpl.
    - exists q1, q2. split_and!; [done..|].
      unfold rename in Hr. repeat case_decide; naive_solver.
    - pose proof Hv as (_ & _ & Hc)%validated_spec.
      destruct (Hc q1 Hq1) as (row1 & Hrow1 & Hn1).
      destruct (Hn1 a Ha) as (n1 & Hn1' & Hn1s).
      destruct (Hc q2 Hq2) as (row2 & Hrow2 & Hn2).
      destruct (Hn2 a Ha) as (n2 & Hn2' & Hn2s).
      unfold getitem. rewrite Hrow1, Hrow2. simpl. rewrite Hn1', Hn2'. simpl.
      apply IH; [done..|].
      destruct (Hstep a Ha) as (r1 & m1 & r2 & m2 & Hr1 & Hm1 & Hr2 & Hm2 & Hm).
      unfold rename in Hr. repeat case_decide; simplify_eq; try done.
      all: by rewrite ?Hm. }
  apply Hgen; [done..|]. unfold rename. repeat case_decide; congruence.
Qed.

(** ** [accepts] outside the alphabet *)

Lemma walk_outside self q input :
  valid self → q ∈ states self → ¬ Forall (.∈ alphabet self) input →
  walk self q input = Raise KeyError.
Proof.
  intros Hv. revert q.
  induction input as [|a input IH]; intros q Hq Hn; [by destruct Hn|].
  simpl. destruct (valid_row self q Hv Hq) as (row & Hrow & Hdom & Hnext).
  unfold getitem. rewrite Hrow. simpl.
  destruct (row !! a) as [next|] eqn:Ha; simpl; [|done].
  apply IH; [by eapply Hnext|]. intros Hin. apply Hn. constructor; [|done].
  rewrite <- Hdom. apply elem_of_dom. eauto.
Qed.

(** On an input with a symbol that is not in the alphabet, [accepts] raises
    [KeyError]: the row of the state reached has no entry for the symbol. *)
Theorem accepts_outside_alphabet self input :
  valid self → ¬ Forall (.∈ alphabet self) input →
  accepts self input = Raise KeyError.
Proof.
  intros Hv Hn. unfold accepts.
  rewrite walk_outside; [done..|by apply valid_initial, valid_validated|done].
Qed.

(** ** [null] and [epsilon] *)

Lemma null_Ok (alphabet0 : gset symbol) :
  ∃ n, null alphabet0 = Ok n ∧ valid n ∧ alphabet n = alphabet0 ∧
    ∀ input, lang n input = false.
Proof.
  set (row := gset_to_gmap (SInt 0) alphabet0).
  set (n := Fsm alphabet0 {[SInt 0]} (SInt 0) ∅ {[SInt 0 := row]}).
  assert (complete alphabet0 {[SInt 0]} {[SInt 0 := row]}) as Hc.
  { intros q ->%elem_of_singleton. exists row. split.
    - by rewrite lookup_singleton_eq.
    - intros a Ha. exists (SInt 0). split; [|set_solver].
      by apply lookup_gset_to_gmap_Some. }
  exists n. split_and!.
  - unfold null. apply init_Ok. split_and!; [done|set_solver..|done].
  - split_and!.
    + apply validated_spec. simpl. split_and!; [set_solver..|done].
    + simpl. by rewrite dom_singleton_L.
    + intros q r. simpl. rewrite lookup_singleton. case_decide; [|done].
      intros [= <-]. apply dom_gset_to_gmap.
  - done.
  - intros input. unfold lang. simpl. by apply bool_decide_eq_false.
Qed.

(** [null(alphabet)] is built for every alphabet, and accepts no input over
    it, the empty one included. *)
Theorem null_accepts_nothing (alphabet0 : gset symbol) :
  ∃ n, null alphabet0 = Ok n ∧ valid n ∧ alphabet n = alphabet0 ∧
    ∀ input, Forall (.∈ alphabet0) input → accepts n input = Ok false.
Proof.
  destruct (null_Ok alphabet0) as (n & Hn & Hv & Ha & Hlang).
  exists n. split_and!; [done..|]. intros input Hin.
  rewrite accepts_lang; [by rewrite Hlang|by apply valid_validated|by rewrite Ha].
Qed.

(** [epsilon(alphabet)] is built for every alphabet, and accepts the empty
    input and no other input over it. *)
Theorem epsilon_accepts_empty (alphabet0 : gset symbol) :
  ∃ e, epsilon alphabet0 = Ok e ∧ valid e ∧ alphabet e = alphabet0 ∧
    ∀ input, Forall (.∈ alphabet0) input →
      accepts e input = Ok (bool_decide (input = [])).
Proof.
  destruct (epsilon_Ok alphabet0) as (e & He & Hv & Ha & Hlang).
  exists e. split_and!; [done..|]. intros input Hin.
  rewrite accepts_lang; [|by apply valid_validated|by rewrite Ha]. f_equal.
  apply eq_true_iff_eq. rewrite bool_decide_eq_true. by apply Hlang.
Qed.

(** ** The language of a concatenation *)

(** [self + other] accepts the inputs that are an input [self] accepts
    followed by an input [other] accepts. *)
Theorem add_accepts_concat self other :
  validated self → validated other → alphabet other = alphabet self →
  ∃ n, ∀ fuel, n ≤ fuel →
    ∃ result, __add__ fuel self other = Ok result ∧
      ∀ input, Forall (.∈ alphabet self) input →
        ∃ b, accepts result input = Ok b ∧
          (b = true ↔
           ∃ u v, input = u ++ v ∧
             accepts self u = Ok true ∧ accepts other v = Ok true).
Proof.
  intros Hself Hother Ha. exists (S (length (add_univ self other))).
  intros fuel Hfuel.
  destruct (add_Ok self other Hself Hother Ha fuel)
    as (result & Hr & _ & _ & _ & Hlang); [lia|].
  exists result. split; [done|]. intros input Hin.
  destruct (Hlang input Hin) as (b & Hb & Hiff). exists b. split; [done|].
  rewrite Hiff. split.
  - intros (u & v & -> & Hu & Hv0). apply Forall_app in Hin as [Hinu Hinv].
    exists u, v. split_and!; [done| |].
    + by rewrite accepts_lang, Hu.
    + rewrite accepts_lang, Hv0; [done..|by rewrite Ha].
  - intros (u & v & -> & Hu & Hv0). apply Forall_app in Hin as [Hinu Hinv].
    exists u, v. split_and!; [done| |].
    + rewrite accepts_lang in Hu by done. by injection Hu.
    + rewrite accepts_lang in Hv0; [by injection Hv0|done|by rewrite Ha].
Qed.

(** ** The results of the operators *)

Lemma automerge_loop_merged fuel self new :
  automerge_loop fuel self = Ok new → merged new.
Proof.
  revert self. induction fuel as [|fuel IH]; intros self; simpl; [done|].
  intros Hl. apply bind_Ok in Hl as ([keepMerging new'] & Ht & Hl).
  destruct keepMerging; [by apply IH in Hl|].
  injection Hl as <-. apply trymerge_Ok in Ht as [-> Hno]. exact Hno.
Qed.

Lemma crawl_merged {X : Type} `{EqDecision X} (isFinal : X → outcome bool)
    (getNext : X → symbol → outcome X) symbols fuel alphabet0 initial0 result :
  _crawl_from isFinal getNext symbols fuel alphabet0 initial0 = Ok result →
  merged result.
Proof.
  unfold _crawl_from. intros Hc.
  apply bind_Ok in Hc as ([[states0 finals0] map0] & _ & Hc).
  apply bind_Ok in Hc as (r & _ & Hc). by apply automerge_loop_merged in Hc.
Qed.

(** The operators keep the invariants of the data model: on validated
    automata over one alphabet, [+], [|], [&] and [star] return valid automata
    over that alphabet in which no two distinct states are equivalent. *)
Theorem operators_closed self other :
  validated self → validated other → alphabet other = alphabet self →
  ∃ n, ∀ fuel, n ≤ fuel →
    ∃ sum either both closure,
      __add__ fuel self other = Ok sum ∧
      __or__ fuel self other = Ok either ∧
      __and__ fuel self other = Ok both ∧
      star fuel self = Ok closure ∧
      Forall (λ result, valid result ∧ alphabet result = alphabet self ∧
                        merged result) [sum; either; both; closure].
Proof.
  intros Hself Hother Ha.
  exists (S ((length (add_univ self other) `max` length (product_univ self other))
             `max` 2 ^ S (size (states self)))).
  intros fuel Hfuel.
  destruct (add_Ok self other Hself Hother Ha fuel)
    as (sum & Hsum & ? & ? & _); [lia|].
  destruct (or_Ok self other Hself Hother Ha fuel)
    as (either & Heither & ? & ? & _); [lia|].
  destruct (and_Ok self other Hself Hother Ha fuel)
    as (both & Hboth & ? & ? & _); [lia|].
  destruct (star_Ok self fuel Hself) as (closure & Hclosure & ? & ? & _); [lia|].
  exists sum, either, both, closure. split_and!; [done..|].
  assert (merged sum).
  { unfold __add__ in Hsum. case_decide; [done|]. by apply crawl_merged in Hsum. }
  assert (merged either).
  { unfold __or__ in Heither. case_decide; [done|].
    by apply crawl_merged in Heither. }
  assert (merged both).
  { unfold __and__ in Hboth. case_decide; [done|].
    by apply crawl_merged in Hboth. }
  assert (merged closure).
  { unfold star in Hclosure. apply bind_Ok in Hclosure as (omega & _ & Hclosure).
    by apply crawl_merged in Hclosure. }
  repeat (apply Forall_cons; split; [done|]). apply Forall_nil_2.
Qed.

(** ** The language of a multiplication *)

Lemma mul_fuel_mono2 n s s' t t' :
  s ≤ s' → t ≤ t' → mul_fuel n s t ≤ mul_fuel n s' t'.
Proof.
  revert s s'. induction n as [|n IH]; intros s s' Hs Ht; simpl; [done|].
  assert (2 ^ (s + t) ≤ 2 ^ (s' + t')) as Hpow by (apply Nat.pow_le_mono_r; lia).
  specialize (IH _ _ Hpow Ht). lia.
Qed.

Lemma mul_size_mono n s s' t : s ≤ s' → mul_size n s t ≤ mul_size n s' t.
Proof.
  revert s s'. induction n as [|n IH]; intros s s' Hs; simpl; [done|].
  apply IH, Nat.pow_le_mono_r; lia.
Qed.

Lemma mul_loop_size n fuel output q result :
  validated output → validated q → alphabet q = alphabet output →
  mul_fuel n (size (states output)) (size (states q)) < fuel →
  mul_loop n fuel output q = Ok result →
  size (states result) ≤ mul_size n (size (states output)) (size (states q)).
Proof.
  intros Hout Hq. revert output Hout.
  induction n as [|n IH]; intros output Hout Ha Hfuel; simpl in *.
  - by intros [= <-].
  - destruct (add_Ok output q Hout Hq Ha fuel)
      as (result1 & -> & Hv1 & Ha1 & Hs1 & _).
    { rewrite length_add_univ. lia. }
    simpl. rewrite length_add_univ in Hs1. intros Hr.
    apply IH in Hr; [|by apply valid_validated|congruence|].
    + etrans; [done|]. by apply mul_size_mono.
    + pose proof (mul_fuel_mono n _ _ (size (states q)) Hs1). lia.
Qed.

Lemma in_power_app L m j u v :
  in_power L m u → in_power L j v → in_power L (m + j) (u ++ v).
Proof.
  revert u. induction m as [|m IH]; intros u; simpl; [by intros ->|].
  intros (u1 & u2 & -> & Hu1 & Hu2) Hv. exists u1, (u2 ++ v).
  split_and!; [by rewrite (assoc_L (++))|done|by apply IH].
Qed.

Lemma in_power_split L m j w :
  in_power L (m + j) w → ∃ u v, w = u ++ v ∧ in_power L m u ∧ in_power L j v.
Proof.
  revert w. induction m as [|m IH]; intros w; simpl.
  - intros Hw. by exists [], w.
  - intros (u1 & w' & -> & Hu1 & Hw). apply IH in Hw as (u2 & v & -> & Hu2 & Hv).
    exists (u1 ++ u2), v. split_and!; [by rewrite (assoc_L (++))| |done].
    by exists u1, u2.
Qed.

Lemma in_power_optional L k v :
  in_power (λ w, L w ∨ w = []) k v ↔ ∃ j, j ≤ k ∧ in_power L j v.
Proof.
  revert v. induction k as [|k IH]; intros v; simpl.
  - split; [intros ->; by exists 0|]. intros (j & Hj & Hv).
    by replace j with 0 in Hv by lia.
  - split.
    + intros (u & v' & -> & [Hu| ->] & Hv).
      * apply IH in Hv as (j & Hj & Hv). exists (S j). split; [lia|].
        by exists u, v'.
      * apply IH in Hv as (j & Hj & Hv). exists j. split; [lia|done].
    + intros (j & Hj & Hv). destruct (decide (j = S k)) as [->|Hne].
      * destruct Hv as (u & v' & -> & Hu & Hv). exists u, v'.
        split_and!; [done|by left|]. apply IH. by exists k.
      * exists [], v. split_and!; [done|by right|]. apply IH. exists j.
        split; [lia|done].
Qed.

Lemma in_star_power L v : in_star L v ↔ ∃ j, in_power L j v.
Proof.
  split.
  - induction 1 as [|u v Hu _ (j & Hj)]; [by exists 0|].
    exists (S j), u, v. by split_and!.
  - intros (j & Hj). revert v Hj. induction j as [|j IH]; intros v; simpl.
    + intros ->. constructor.
    + intros (u & v' & -> & Hu & Hv). constructor; auto.
Qed.

Lemma in_star_ext_over (P : symbol → Prop) (L1 L2 : list symbol → Prop) w :
  (∀ u, Forall P u → L1 u → L2 u) → Forall P w → in_star L1 w → in_star L2 w.
Proof.
  intros HL Hw Hs. induction Hs as [|u v Hu _ IH]; [constructor|].
  apply Forall_app in Hw as [? ?]. constructor; auto.
Qed.

(** What [self * (min, max)] accepts: the inputs that are [k] inputs in a
    row that [self] accepts, for some [k] from [min] (from 0 when [min] is
    negative) and, when [max] is not [None], up to the [max - min] further
    copies of the second loop (none when [max < min]). *)
Theorem mul_accepts_copies self min max :
  validated self →
  ∃ n, ∀ fuel, n ≤ fuel →
    ∃ result, __mul__ fuel self (min, max) = Ok result ∧
      ∀ input, Forall (.∈ alphabet self) input →
        ∃ b, accepts result input = Ok b ∧
          (b = true ↔
           ∃ k, Z.to_nat min ≤ k ∧
             match max with
             | None => True
             | Some max => k ≤ Z.to_nat min + Z.to_nat (max - min)
             end ∧
             in_power (λ u, accepts self u = Ok true) k input).
Proof.
  intros Hself.
  destruct (epsilon_Ok (alphabet self)) as (e & He & Hve & Hae & Hlange).
  pose proof (valid_validated e Hve) as Hvde.
  set (m := Z.to_nat min). set (s := size (states self)).
  set (s1 := mul_size m (size (states e)) s).
  set (t2 := length (product_univ self e)).
  set (d := match max with None => 0 | Some max => Z.to_nat (max - min) end).
  exists (S (mul_fuel m (size (states e)) s + 2 ^ S s + 2 ^ (s1 + 2 ^ S s)
             + t2 + mul_fuel d s1 t2)).
  intros fuel Hfuel.
  destruct (mul_loop_Ok m fuel e self Hvde Hself)
    as (out1 & Hout1 & Hvd1 & Ha1 & Hlang1); [done|fold s; lia|].
  assert (size (states out1) ≤ s1) as Hs1.
  { apply (mul_loop_size m fuel e self out1 Hvde Hself); [done|fold s; lia|done]. }
  set (L := λ u, accepts self u = Ok true).
  assert (∀ k w, Forall (.∈ alphabet self) w →
            in_power (λ u, lang self u = true) k w ↔ in_power L k w) as HL.
  { intros k w Hw. split; apply (in_power_ext (.∈ alphabet self)); try done.
    - intros u Hu Hl. unfold L. by rewrite accepts_lang, Hl.
    - intros u Hu Hl. unfold L in Hl. rewrite accepts_lang in Hl by done.
      by injection Hl. }
  assert (∀ w, Forall (.∈ alphabet self) w →
            lang out1 w = true ↔ in_power L m w) as Hout1lang.
  { intros w Hw. rewrite Hlang1 by (by rewrite Hae). split.
    - intros (u & v & -> & Hu & Hv). apply Forall_app in Hw as [Hw1 Hw2].
      apply Hlange in Hu as ->; [|done]. by apply HL.
    - intros Hp. exists [], w. split_and!; [done|by apply Hlange|by apply HL]. }
  destruct max as [max|].
  - destruct (or_Ok self e Hself Hvde Hae fuel)
      as (q & Hq & Hvq & Haq & Hsq & Hlq); [fold t2; lia|].
    pose proof (valid_validated q Hvq) as Hvdq.
    destruct (mul_loop_Ok d fuel out1 q Hvd1 Hvdq)
      as (result & Hr & Hvdr & Har & Hlangr); [congruence| |].
    { pose proof (mul_fuel_mono2 d _ _ _ _ Hs1 Hsq) as Hmono.
      fold t2 in Hmono. lia. }
    exists result. split.
    { unfold __mul__. rewrite He. simpl. fold m. rewrite Hout1. simpl.
      rewrite Hq. simpl. done. }
    intros input Hin. exists (lang result input). split.
    { apply accepts_lang; [done|]. by rewrite Har, Ha1, Hae. }
    rewrite Hlangr by (by rewrite Ha1, Hae).
    assert (∀ w, Forall (.∈ alphabet self) w →
              in_power (λ u, lang q u = true) d w ↔
              ∃ j, j ≤ d ∧ in_power L j w) as Hopt.
    { intros w Hw. rewrite <- in_power_optional.
      split; apply (in_power_ext (.∈ alphabet self)); try done.
      - intros u Hu Hl. specialize (Hlq u Hu).
        rewrite accepts_lang in Hlq by (done || by rewrite Haq).
        injection Hlq as Hlq. rewrite Hlq in Hl.
        apply orb_true_iff in Hl as [Hl|Hl].
        + left. unfold L. by rewrite accepts_lang, Hl.
        + right. by apply Hlange in Hl.
      - intros u Hu Hl. specialize (Hlq u Hu).
        rewrite accepts_lang in Hlq by (done || by rewrite Haq).
        injection Hlq as Hlq. rewrite Hlq. apply orb_true_iff.
        destruct Hl as [Hl| ->].
        + left. unfold L in Hl. rewrite accepts_lang in Hl by done.
          by injection Hl.
        + right. by apply Hlange. }
    split.
    + intros (u & v & -> & Hu & Hv). apply Forall_app in Hin as [Hin1 Hin2].
      apply Hout1lang in Hu; [|done]. apply Hopt in Hv as (j & Hj & Hv); [|done].
      exists (m + j). split_and!; [lia|lia|]. by apply in_power_app.
    + intros (k & Hk1 & Hk2 & Hp).
      replace k with (m + (k - m)) in Hp by lia.
      apply in_power_split in Hp as (u & v & -> & Hu & Hv).
      apply Forall_app in Hin as [Hin1 Hin2].
      exists u, v. split_and!; [done|by apply Hout1lang|].
      apply Hopt; [done|]. exists (k - m). split; [lia|done].
  - destruct (star_Ok self fuel Hself)
      as (st & Hst & Hvst & Hast & Hsst & Hlst); [fold s; lia|].
    pose proof (valid_validated st Hvst) as Hvdst.
    destruct (add_Ok out1 st Hvd1 Hvdst (eq_trans Hast (eq_sym (eq_trans Ha1 Hae)))
                fuel)
      as (result & Hr & Hvr & Har & _ & Hlangr).
    { rewrite length_add_univ.
      assert (2 ^ (size (states out1) + size (states st)) ≤ 2 ^ (s1 + 2 ^ S s))
        by (apply Nat.pow_le_mono_r; [done|fold s in Hsst; lia]).
      lia. }
    exists result. split.
    { unfold __mul__. rewrite He. simpl. fold m. rewrite Hout1. simpl.
      rewrite Hst. simpl. done. }
    intros input Hin. destruct (Hlangr input) as (b & Hb & Hiff).
    { by rewrite Ha1, Hae. }
    exists b. split; [done|]. rewrite Hiff.
    assert (∀ w, Forall (.∈ alphabet self) w →
              lang st w = true ↔ ∃ j, in_power L j w) as Hstar.
    { intros w Hw. destruct (Hlst w Hw) as (b' & Hb' & Hiff').
      rewrite accepts_lang in Hb' by (done || by rewrite Hast).
      injection Hb' as <-. rewrite Hiff', <- in_star_power.
      split; apply (in_star_ext_over (.∈ alphabet self)); try done.
      - intros u Hu Hl. unfold L. by rewrite accepts_lang, Hl.
      - intros u Hu Hl. unfold L in Hl. rewrite accepts_lang in Hl by done.
        by injection Hl. }
    split.
    + intros (u & v & -> & Hu & Hv). apply Forall_app in Hin as [Hin1 Hin2].
      apply Hout1lang in Hu; [|done]. apply Hstar in Hv as (j & Hv); [|done].
      exists (m + j). split_and!; [lia|done|]. by apply in_power_app.
    + intros (k & Hk1 & _ & Hp).
      replace k with (m + (k - m)) in Hp by lia.
      apply in_power_split in Hp as (u & v & -> & Hu & Hv).
      apply Forall_app in Hin as [Hin1 Hin2].
      exists u, v. split_and!; [done|by apply Hout1lang|].
      apply Hstar; [done|]. by exists (k - m).
Qed.

(** ** [_crawl] *)

(** [_crawl] builds the automaton of the machine it is given.  When, on the
    states [X] that the inputs over the alphabet lead to from [initial],
    [getNext] and [isFinal] return the values of the functions [next] and
    [final], and these states are all in a list [univ], [_crawl] returns with
    a loop bound above the length of [univ]; the automaton returned is valid,
    has at most that many states, and accepts an input exactly when the state
    the input leads to is final. *)
Theorem crawl_correct {X : Type} `{EqDecision X} (isFinal : X → outcome bool)
    (getNext : X → symbol → outcome X) (alphabet0 : gset symbol) (initial0 : X)
    (final : X → bool) (next : X → symbol → X) (univ : list X) fuel :
  (∀ input, Forall (.∈ alphabet0) input →
     foldl next initial0 input ∈ univ ∧
     isFinal (foldl next initial0 input) = Ok (final (foldl next initial0 input)) ∧
     ∀ a, a ∈ alphabet0 →
       getNext (foldl next initial0 input) a
       = Ok (next (foldl next initial0 input) a)) →
  length univ < fuel →
  ∃ result,
    _crawl isFinal getNext fuel alphabet0 initial0 = Ok result ∧
    valid result ∧ alphabet result = alphabet0 ∧
    size (states result) ≤ length univ ∧
    ∀ input, Forall (.∈ alphabet0) input →
      accepts result input = Ok (final (foldl next initial0 input)).
Proof.
  intros Hreach Hfuel.
  apply (crawl_Ok isFinal getNext alphabet0 initial0
           (λ x, ∃ input, Forall (.∈ alphabet0) input ∧
                          x = foldl next initial0 input)
           final next univ); [| | | |done].
  - by exists [].
  - intros x a (input & Hin & ->) Ha. split; [by apply Hreach|].
    exists (input ++ [a]). split; [|by rewrite foldl_app].
    apply Forall_app. split; [done|]. by apply Forall_singleton.
  - intros x (input & Hin & ->). by apply Hreach.
  - intros x (input & Hin & ->). by apply Hreach.
Qed.

Lemma index_seq (x start n : nat) :
  index x (seq start n)
  = if decide (start ≤ x < start + n) then Some (x - start) else None.
Proof.
  revert start. induction n as [|n IH]; intros start; simpl.
  - by rewrite decide_False by lia.
  - case_decide as Hx.
    + subst. rewrite decide_True by lia. f_equal. lia.
    + rewrite IH. case_decide.
      * rewrite decide_True by lia. simpl. f_equal. lia.
      * by rewrite decide_False by lia.
Qed.

Lemma crawl_row_succ (x : nat) symbols k row :
  S x ≤ k →
  ∃ row', crawl_row (λ n _, Ok (S n)) x symbols (seq 0 (S k)) row
          = Ok (seq 0 (S k), row').
Proof.
  intros Hx. revert row. induction symbols as [|a symbols IH]; intros row.
  - by exists row.
  - remember (seq 0 (S k)) as l eqn:Hl. simpl. subst l.
    rewrite index_seq, decide_True by lia. apply IH.
Qed.

Lemma crawl_row_succ_grow (x : nat) symbols k row :
  x ≤ k → symbols ≠ [] →
  ∃ k' row', crawl_row (λ n _, Ok (S n)) x symbols (seq 0 (S k)) row
             = Ok (seq 0 (S k'), row') ∧ S x ≤ k'.
Proof.
  intros Hx Hs. destruct symbols as [|a symbols]; [done|].
  remember (seq 0 (S k)) as l eqn:Hl. simpl. subst l.
  rewrite index_seq. case_decide.
  - destruct (crawl_row_succ x symbols k
                (<[a := state_of_nat (S x - 0)]> row)) as (row' & Hr); [lia|].
    exists k, row'. split; [done|lia].
  - rewrite length_seq.
    replace (seq 0 (S k) ++ [S x]) with (seq 0 (S (S k))).
    + destruct (crawl_row_succ x symbols (S k)
                  (<[a := state_of_nat (S k)]> row)) as (row' & Hr); [lia|].
      exists (S k), row'. split; [done|lia].
    + rewrite (seq_S (S k)). replace (0 + S k) with (S x) by lia. done.
Qed.

Lemma crawl_loop_unbounded (isFinal : nat → outcome bool) fuel symbols i k
    finals0 map0 :
  symbols ≠ [] → (∀ n, ∃ b, isFinal n = Ok b) → i ≤ k →
  crawl_loop isFinal (λ n _, Ok (S n)) fuel symbols i (seq 0 (S k)) finals0 map0
  = OutOfFuel.
Proof.
  intros Hs Hfinal. revert i k finals0 map0.
  induction fuel as [|fuel IH]; intros i k finals0 map0 Hi; [done|].
  remember (seq 0 (S k)) as l eqn:Hl. simpl. subst l.
  rewrite lookup_seq_lt by lia. simpl.
  destruct (Hfinal i) as [b ->]. simpl.
  change (0 :: seq 1 k) with (seq 0 (S k)).
  destruct (crawl_row_succ_grow i symbols k ∅ Hi Hs) as (k' & row' & -> & Hk').
  simpl. apply IH. lia.
Qed.

(** [_crawl] can go on forever: over an alphabet that is not empty, a
    [getNext] that leads from every state to a new one (here from [n] to
    [n + 1]) makes the list of states grow with every state visited, and no
    loop bound lets the crawl return. *)
Theorem crawl_unbounded (isFinal : nat → outcome bool) (alphabet0 : gset symbol)
    fuel :
  alphabet0 ≠ ∅ → (∀ n, ∃ b, isFinal n = Ok b) →
  _crawl isFinal (λ n _, Ok (S n)) fuel alphabet0 0 = OutOfFuel.
Proof.
  intros Hne Hfinal. unfold _crawl, _crawl_from.
  rewrite (crawl_loop_unbounded isFinal fuel _ 0 0 ∅ ∅); [done| |done|done].
  intros Hs. apply Hne. apply leibniz_equiv, elements_empty_iff.
  apply Permutation_nil_r. by rewrite <- sorted_Permutation, Hs.
Qed.

(** ** [automerge] on its own result *)

(** The result of [automerge] is a fixed point: [trymerge] finds nothing to
    merge in it and returns it unchanged, and so does [automerge]. *)
Theorem automerge_idempotent self fuel :
  valid self → size (states self) ≤ fuel →
  ∃ new, automerge fuel self = Ok new ∧ merged new ∧
    trymerge new = Ok (false, new) ∧ automerge fuel new = Ok new.
Proof.
  intros Hv Hfuel.
  destruct (automerge_loop_Ok fuel self Hv Hfuel)
    as (new & Hnew & Hvnew & _ & _ & Hmerged & _).
  assert (trymerge new = Ok (false, new)) as Htry.
  { destruct (trymerge_total new Hvnew) as (keepMerging & new' & Ht).
    pose proof (trymerge_Ok new keepMerging new' Ht) as Hcases.
    destruct keepMerging.
    - destruct Hcases as (this & that & Hthis & Hthat & Hne & Heq & _).
      by rewrite (Hmerged this that) in Heq.
    - destruct Hcases as [-> _]. done. }
  exists new. split_and!; [done..|].
  assert (size (states self) ≠ 0) as Hsize.
  { apply size_non_empty_iff. pose proof (valid_initial self (valid_validated _ Hv)).
    set_solver. }
  destruct fuel as [|fuel]; [lia|].
  unfold automerge. simpl. by rewrite Htry.
Qed.

(** ** The omega state of [star] *)

Lemma star_omega_least_from fuel self k omega :
  star_omega fuel self k = Ok omega →
  (k ≤ omega)%Z ∧ (SInt omega ∉ states self) ∧
  ∀ j, (k ≤ j < omega)%Z → SInt j ∈ states self.
Proof.
  revert k. induction fuel as [|fuel IH]; intros k; simpl; [done|].
  case_decide as Hk.
  - intros (Hle & Hout & Hin)%IH. split_and!; [lia|done|].
    intros j Hj. destruct (decide (j = k)) as [->|Hne]; [done|]. apply Hin. lia.
  - intros [= <-]. split_and!; [lia|done|]. intros j Hj. lia.
Qed.

(** The loop of [star] that looks for the omega state ends within one
    iteration more than there are states, on the least non-negative int that
    is not a state. *)
Theorem star_omega_least fuel self :
  size (states self) < fuel →
  ∃ omega, star_omega fuel self 0 = Ok omega ∧
    (0 ≤ omega ≤ Z.of_nat (size (states self)))%Z ∧
    (SInt omega ∉ states self) ∧
    ∀ k, (0 ≤ k < omega)%Z → SInt k ∈ states self.
Proof.
  intros Hfuel. destruct (star_omega_Ok fuel self Hfuel) as (omega & Homega & _).
  exists omega. split; [done|].
  apply star_omega_least_from in Homega as (Hle & Hout & Hin).
  split_and!; [done| |done..].
  assert (list_to_set (C:=gset State) (range (Z.to_nat omega)) ⊆ states self)
    as Hsub.
  { intros q (k & Hk & ->)%elem_of_list_to_set%elem_of_range. apply Hin.
    lia. }
  apply subseteq_size in Hsub. rewrite size_range in Hsub. lia.
Qed.

(** ** [null] under the operators *)

(** [null] is neutral for [|] and absorbing for [&] and [+]: over the
    alphabet of [self], [self | null] accepts what [self] accepts, and
    [self & null], [self + null] and [null + self] accept nothing. *)
Theorem null_absorbs self :
  validated self →
  ∃ n, ∀ fuel, n ≤ fuel →
    ∃ nul either both sum sum',
      null (alphabet self) = Ok nul ∧
      __or__ fuel self nul = Ok either ∧
      __and__ fuel self nul = Ok both ∧
      __add__ fuel self nul = Ok sum ∧
      __add__ fuel nul self = Ok sum' ∧
      ∀ input, Forall (.∈ alphabet self) input →
        accepts either input = accepts self input ∧
        accepts both input = Ok false ∧
        accepts sum input = Ok false ∧
        accepts sum' input = Ok false.
Proof.
  intros Hself.
  destruct (null_Ok (alphabet self)) as (nul & Hnul & Hvn & Han & Hlang).
  pose proof (valid_validated nul Hvn) as Hvdn.
  exists (S (length (product_univ self nul) + length (add_univ self nul)
             + length (add_univ nul self))).
  intros fuel Hfuel.
  destruct (or_Ok self nul Hself Hvdn Han fuel)
    as (either & Heither & _ & _ & _ & Hor); [lia|].
  destruct (and_Ok self nul Hself Hvdn Han fuel)
    as (both & Hboth & _ & _ & _ & Hand); [lia|].
  destruct (add_Ok self nul Hself Hvdn Han fuel)
    as (sum & Hsum & _ & _ & _ & Hadd); [lia|].
  destruct (add_Ok nul self Hvdn Hself (eq_sym Han) fuel)
    as (sum' & Hsum' & _ & _ & _ & Hadd'); [lia|].
  exists nul, either, both, sum, sum'. split_and!; [done..|].
  intros input Hin. split_and!.
  - by rewrite Hor, Hlang, orb_false_r, accepts_lang.
  - by rewrite Hand, Hlang, andb_false_r.
  - destruct (Hadd input Hin) as (b & -> & Hb). f_equal.
    destruct b; [|done]. destruct Hb as [(u & v & _ & _ & Hv) _]; [done|].
    by rewrite Hlang in Hv.
  - destruct (Hadd' input) as (b & -> & Hb); [by rewrite Han|]. f_equal.
    destruct b; [|done]. destruct Hb as [(u & v & _ & Hu & _) _]; [done|].
    by rewrite Hlang in Hu.
Qed.

(** ** [replace] *)

Lemma lookups_cases self this that s :
  (s ∈ states self ∧ lookups self this that s = Ok (rename this that s)) ∨
  ((s ∉ states self) ∧ lookups self this that s = Raise KeyError).
Proof. unfold lookups, rename. case_decide; [left|right]; done. Qed.

Lemma mapM_Ok_or_KeyError {A B} (f : A → outcome B) l :
  (∀ x, x ∈ l → (∃ y, f x = Ok y) ∨ f x = Raise KeyError) →
  (∃ k, mapM f l = Ok k) ∨ mapM f l = Raise KeyError.
Proof.
  induction l as [|x l IH]; intros Hf; [left; by exists []|].
  rewrite mapM_cons. destruct (Hf x) as [[y ->]| ->]; [by left| |by right].
  simpl. destruct IH as [[k ->]| ->]; [|left; eauto|by right].
  intros x' Hx'. apply Hf. by right.
Qed.

Lemma mapM_Ok_elem {A B} (f : A → outcome B) l k x :
  mapM f l = Ok k → x ∈ l → ∃ y, f x = Ok y.
Proof.
  intros Hk%mapM_Ok Hx. revert Hx. induction Hk as [|x' y l k Hy _ IH].
  - by intros ?%elem_of_nil.
  - intros [->|Hx]%elem_of_cons; eauto.
Qed.

Lemma replace_closed_Ok self this that :
  validated self → map_closed self →
  ∃ new, replace self this that = Ok new ∧
    alphabet new = alphabet self ∧
    states new = set_map (rename this that) (states self) ∧
    initial new = rename this that (initial self) ∧
    finals new = set_map (rename this that) (finals self) ∧
    map new = dict (replace_rows self this that) ∧
    validated new.
Proof.
  intros Hvd Hclosed.
  pose proof Hvd as (Hi & Hf & Hc)%validated_spec.
  unfold replace.
  rewrite (mapM_Ok_fmap _ (rename this that) (elements (states self))); last first.
  { apply Forall_forall. intros q Hq%elem_of_elements. by apply lookups_Ok. }
  simpl. rewrite lookups_Ok by done. simpl.
  rewrite (mapM_Ok_fmap _ (rename this that) (elements (finals self))); last first.
  { apply Forall_forall. intros q Hq%elem_of_elements. apply lookups_Ok. auto. }
  simpl.
  rewrite (mapM_Ok_fmap _ (rename_row this that)); last first.
  { apply Forall_forall. intros [q row] Hq%elem_of_map_to_list. simpl.
    destruct (Hclosed q row Hq) as [Hqs Hrow].
    rewrite lookups_Ok by done. simpl.
    rewrite (mapM_Ok_fmap _ (prod_map id (rename this that))); last first.
    { apply Forall_forall. intros [a next] Ha%elem_of_map_to_list.
      rewrite lookups_Ok by (by apply (Hrow a)). done. }
    simpl. by rewrite dict_fmap_to_list. }
  simpl. fold (replace_rows self this that).
  change (list_to_set (rename this that <$> elements (states self)))
    with (set_map (D:=gset State) (rename this that) (states self)).
  change (list_to_set (rename this that <$> elements (finals self)))
    with (set_map (D:=gset State) (rename this that) (finals self)).
  assert (rename this that (initial self)
          ∈ set_map (D:=gset State) (rename this that) (states self)) as Hi'.
  { apply elem_of_map. eauto. }
  assert (set_map (D:=gset State) (rename this that) (finals self)
          ⊆ set_map (D:=gset State) (rename this that) (states self)) as Hf'.
  { intros x (y & -> & Hy)%elem_of_map. apply elem_of_map. eauto. }
  assert (complete (alphabet self)
            (set_map (D:=gset State) (rename this that) (states self))
            (dict (replace_rows self this that))) as Hc'.
  { intros q' (q & -> & Hq)%elem_of_map.
    destruct (Hc q Hq) as (row & Hrow & Hn).
    assert (rename this that q ∈ dom (dict (replace_rows self this that)))
      as [r Hr]%elem_of_dom.
    { rewrite replace_rows_dom. apply elem_of_map. exists q. split; [done|].
      by apply elem_of_dom. }
    exists r. split; [done|].
    apply replace_rows_lookup in Hr as (q2 & row2 & Hrow2 & _ & ->).
    intros a Ha. destruct (Hclosed q2 row2 Hrow2) as [Hq2 _].
    destruct (Hc q2 Hq2) as (row2' & Hrow2' & Hn2). simplify_eq.
    destruct (Hn2 a Ha) as (next & Hnext & ?).
    exists (rename this that next). rewrite lookup_fmap, Hnext. split; [done|].
    apply elem_of_map. eauto. }
  eexists. split; [by apply init_Ok|]. split_and!; [done..|].
  by apply validated_spec.
Qed.

(** [replace] raises [KeyError] exactly when the transition map mentions a
    value that is not a state, as a key or in a row (the constructor accepts
    such a map); otherwise it returns a validated automaton, the states of
    which are the states of [self] with [that] in the place of [this]. *)
Theorem replace_KeyError self this that :
  validated self →
  (¬ map_closed self → replace self this that = Raise KeyError) ∧
  (map_closed self →
   ∃ new, replace self this that = Ok new ∧ validated new ∧
     alphabet new = alphabet self ∧
     states new = set_map (rename this that) (states self) ∧
     initial new = rename this that (initial self) ∧
     finals new = set_map (rename this that) (finals self)).
Proof.
  intros Hvd. split.
  - intros Hopen. pose proof Hvd as (Hi & Hf & Hc)%validated_spec.
    unfold replace.
    rewrite (mapM_Ok_fmap _ (rename this that) (elements (states self)));
      last first.
    { apply Forall_forall. intros q Hq%elem_of_elements. by apply lookups_Ok. }
    simpl. rewrite lookups_Ok by done. simpl.
    rewrite (mapM_Ok_fmap _ (rename this that) (elements (finals self)));
      last first.
    { apply Forall_forall. intros q Hq%elem_of_elements. apply lookups_Ok. auto. }
    simpl.
    match goal with
    | |- mapM ?f ?l ≫= _ = _ =>
        destruct (mapM_Ok_or_KeyError f l) as [[k Hk]| ->]; [| |done]
    end.
    + intros [q row] _.
      destruct (lookups_cases self this that q) as [[_ ->]|[_ ->]]; [|by right].
      simpl.
      match goal with
      | |- context [mapM ?g ?l'] =>
          destruct (mapM_Ok_or_KeyError g l') as [[k' ->]| ->]; [|by eauto|by right]
      end.
      intros [a next] _.
      by destruct (lookups_cases self this that next) as [[_ ->]|[_ ->]];
        [left; eauto|right].
    + exfalso. apply Hopen. intros q row Hq%elem_of_map_to_list.
      destruct (mapM_Ok_elem _ _ _ _ Hk Hq) as (y & Hy). simpl in Hy.
      apply bind_Ok in Hy as (q' & Hq' & Hy).
      apply bind_Ok in Hy as (row' & Hrow' & _). split.
      * by destruct (lookups_cases self this that q) as [[? _]|[_ Hl]];
          [|rewrite Hl in Hq'].
      * intros a next Ha%elem_of_map_to_list.
        destruct (mapM_Ok_elem _ _ _ _ Hrow' Ha) as (y' & Hy'). simpl in Hy'.
        apply bind_Ok in Hy' as (next' & Hnext' & _).
        by destruct (lookups_cases self this that next) as [[? _]|[_ Hl]];
          [|rewrite Hl in Hnext'].
  - intros Hclosed.
    destruct (replace_closed_Ok self this that Hvd Hclosed)
      as (new & ? & ? & ? & ? & ? & _ & ?).
    by exists new.
Qed.

Lemma valid_map_closed self : valid self → map_closed self.
Proof.
  intros Hv q row Hrow. pose proof (valid_key self q row Hv Hrow) as Hq.
  split; [done|]. intros a next Ha.
  destruct (valid_row self q Hv Hq) as (row' & ? & _ & Hn). simplify_eq. eauto.
Qed.

Lemma replace_rows_id self this that :
  map_closed self → (∀ q, q ∈ states self → rename this that q = q) →
  dict (replace_rows self this that) = map self.
Proof.
  intros Hclosed Hid. unfold replace_rows.
  replace (rename_row this that <$> map_to_list (map self))
    with (map_to_list (map self)).
  - rewrite dict_NoDup by apply NoDup_fst_map_to_list.
    apply list_to_map_to_list.
  - rewrite <- (list_fmap_id (map_to_list (map self))) at 1.
    apply Forall_fmap_ext, Forall_forall.
    intros [q row] Hq%elem_of_map_to_list.
    destruct (Hclosed q row Hq) as [Hqs Hrow]. unfold rename_row. simpl.
    rewrite Hid by done. f_equal. apply map_eq. intros a.
    rewrite lookup_fmap. destruct (row !! a) as [next|] eqn:Ha; [|done].
    simpl. f_equal. symmetry. apply Hid. by apply (Hrow a).
Qed.

(** [replace] changes nothing when there is nothing to replace: for a state
    [this] that is not a state of [self], or for [that = this], it returns
    [self]. *)
Theorem replace_unchanged self this that :
  valid self → this ∉ states self ∨ this = that →
  replace self this that = Ok self.
Proof.
  intros Hv Hcase.
  assert (∀ q, q ∈ states self → rename this that q = q) as Hid.
  { intros q Hq. unfold rename. case_decide; [|done]. naive_solver. }
  assert (∀ Q : gset State, Q ⊆ states self →
            set_map (D:=gset State) (rename this that) Q = Q) as Hset.
  { intros Q HQ. apply set_eq. intros x. rewrite elem_of_map. split.
    - intros (y & -> & Hy). by rewrite Hid by auto.
    - intros Hx. exists x. by rewrite Hid by auto. }
  destruct (replace_valid self this that Hv)
    as (new & -> & Ha & Hs & Hi & Hf & Hm & _).
  f_equal. rewrite Hset in Hs by done.
  rewrite Hid in Hi by (by apply valid_initial, valid_validated).
  rewrite Hset in Hf.
  2:{ by destruct Hv as ((_ & ? & _)%validated_spec & _). }
  rewrite replace_rows_id in Hm by (done || by apply valid_map_closed).
  destruct new, self. simpl in *. by subst.
Qed.

(** Renaming a state to a new one. *)
Section rename_fresh.
Variables (self new : fsm) (this that : State).
Hypothesis Hv : valid self.
Hypothesis Hfresh : that ∉ states self.
Hypothesis Hnew : replace self this that = Ok new.

Lemma rename_fresh_inj q1 q2 :
  q1 ∈ states self → q2 ∈ states self →
  rename this that q1 = rename this that q2 → q1 = q2.
Proof using Hfresh.
  unfold rename. intros H1 H2. repeat case_decide; congruence.
Qed.

Lemma rename_fresh_fields :
  alphabet new = alphabet self ∧
  states new = set_map (rename this that) (states self) ∧
  initial new = rename this that (initial self) ∧
  finals new = set_map (rename this that) (finals self) ∧
  map new = dict (replace_rows self this that) ∧
  valid new.
Proof using Hv Hnew.
  destruct (replace_valid self this that Hv) as (new' & Hr & ?).
  rewrite Hnew in Hr. by simplify_eq.
Qed.

Lemma rename_fresh_row q row :
  map self !! q = Some row →
  map new !! rename this that q = Some (rename this that <$> row).
Proof using Hv Hfresh Hnew.
  intros Hrow. destruct rename_fresh_fields as (_ & _ & _ & _ & -> & _).
  assert (rename this that q ∈ dom (dict (replace_rows self this that)))
    as [r Hr]%elem_of_dom.
  { rewrite replace_rows_dom. apply elem_of_map. exists q. split; [done|].
    by apply elem_of_dom. }
  rewrite Hr. f_equal.
  apply replace_rows_lookup in Hr as (q2 & row2 & Hrow2 & Hq2 & ->).
  apply rename_fresh_inj in Hq2; [by simplify_eq|by eapply valid_key..].
Qed.

Lemma rename_fresh_walk q input q' :
  walk self q input = Ok q' →
  walk new (rename this that q) input = Ok (rename this that q').
Proof using Hv Hfresh Hnew.
  revert q. induction input as [|a input IH]; intros q; simpl.
  - by intros [= ->].
  - intros Hw. apply bind_Ok in Hw as (row & Hrow%getitem_Ok & Hw).
    apply bind_Ok in Hw as (next & Hnext%getitem_Ok & Hw).
    unfold getitem. rewrite (rename_fresh_row q row Hrow). simpl.
    rewrite lookup_fmap, Hnext. simpl. by apply IH.
Qed.

Lemma rename_fresh_accepts input :
  Forall (.∈ alphabet self) input → accepts new input = accepts self input.
Proof using Hv Hfresh Hnew.
  intros Hin.
  destruct (walk_validated self (initial self) input) as (q' & Hw & Hq');
    [by apply valid_validated|by apply valid_initial, valid_validated|done|].
  unfold accepts. rewrite Hw.
  destruct rename_fresh_fields as (_ & _ & -> & Hf & _).
  rewrite (rename_fresh_walk _ _ _ Hw). simpl. f_equal.
  apply bool_decide_ext. rewrite Hf, elem_of_map.
  assert (finals self ⊆ states self) as Hsub.
  { by destruct Hv as ((_ & ? & _)%validated_spec & _). }
  split; [|by eauto]. intros (p & Hp & Hpf).
  apply rename_fresh_inj in Hp; [by subst|done|auto].
Qed.

End rename_fresh.

(** [replace] renames: for a state [that] that is not yet a state of [self],
    it returns a valid automaton with [that] in the place of [this], which
    accepts the same inputs. *)
Theorem replace_renames self this that :
  valid self → that ∉ states self →
  ∃ new, replace self this that = Ok new ∧ valid new ∧
    alphabet new = alphabet self ∧
    states new = set_map (rename this that) (states self) ∧
    size (states new) = size (states self) ∧
    ∀ input, Forall (.∈ alphabet self) input →
      accepts new input = accepts self input.
Proof.
  intros Hv Hfresh.
  destruct (replace_valid self this that Hv)
    as (new & Hnew & Ha & Hs & _ & _ & _ & Hvnew).
  exists new. split_and!; [done..| |].
  - rewrite Hs. unfold set_map. rewrite size_list_to_set.
    + by rewrite length_fmap.
    + apply NoDup_fmap_2_strong; [|apply NoDup_elements].
      intros q1 q2 H1%elem_of_elements H2%elem_of_elements.
      by apply (rename_fresh_inj self this that).
  - intros input Hin. by apply (rename_fresh_accepts self new this that).
Qed.

(** ** [equation.eliminate] and [equation.applyLoops] *)

Lemma eliminate_lefts_Exception R other_lefts lefts0 :
  is_Some (od_lookup (Some R) lefts0) → Some R ∈ other_lefts.*1 →
  eliminate_lefts R other_lefts lefts0 = Raise Exception.
Proof.
  revert lefts0. induction other_lefts as [|[otherLeft e] other_lefts IH];
    intros lefts0 Hsome Hin; [by apply elem_of_nil in Hin|].
  simpl. case_decide as Hl; [done|].
  unfold od_getitem. destruct Hsome as [e' He']. rewrite He'. simpl.
  apply IH.
  - rewrite od_lookup_addTransition_ne by done. eauto.
  - csimpl in Hin. apply elem_of_cons in Hin as [?|?]; [congruence|done].
Qed.

Lemma eliminate_lefts_keys R other_lefts lefts0 :
  is_Some (od_lookup (Some R) lefts0) → Some R ∉ other_lefts.*1 →
  ∃ lefts', eliminate_lefts R other_lefts lefts0 = Ok lefts' ∧
    ∀ k, k ∈ lefts'.*1 ↔ k ∈ lefts0.*1 ∨ k ∈ other_lefts.*1.
Proof.
  revert lefts0. induction other_lefts as [|[otherLeft e] other_lefts IH];
    intros lefts0 Hsome Hin.
  { exists lefts0. split; [done|]. intros k. csimpl. set_solver. }
  csimpl in Hin. apply not_elem_of_cons in Hin as [Hne Hin].
  simpl. rewrite decide_False by congruence.
  unfold od_getitem. destruct Hsome as [e' He']. rewrite He'. simpl.
  destruct (IH (addTransition lefts0 otherLeft (lego_add e e')))
    as (lefts' & -> & Hkeys); [|done|].
  { rewrite od_lookup_addTransition_ne by congruence. eauto. }
  exists lefts'. split; [done|]. intros k.
  rewrite Hkeys, elem_of_addTransition_keys. csimpl. rewrite elem_of_cons.
  tauto.
Qed.

Lemma applyLoops_no_loop e :
  NoDup (lefts e).*1 →
  right (applyLoops e) = right e ∧
  Some (right e) ∉ (lefts (applyLoops e)).*1.
Proof.
  intros Hd. unfold applyLoops.
  destruct (od_lookup (Some (right e)) (lefts e)) as [A|] eqn:Hk.
  2:{ split; [done|]. by apply od_lookup_None. }
  simpl. split; [done|]. rewrite <- list_fmap_compose.
  intros ([k' e'] & Hk' & [Hne _]%elem_of_od_del)%list_elem_of_fmap; [|done].
  simpl in Hk'. congruence.
Qed.

(** [eliminate] raises its exception exactly when [other] still has a
    transition from its own state-set while [self] has one from [other]'s.
    With no transition from [other] in [self] it leaves [self] as it is;
    otherwise it returns an equation for the same state-set, the state-sets
    of which are those of [self] and of [other].  After [applyLoops] on
    [other], it does not raise. *)
Theorem eliminate_raises (self other : equation) :
  (Some (right other) ∈ (lefts self).*1 →
   Some (right other) ∈ (lefts other).*1 →
   eliminate self other = Raise Exception) ∧
  (Some (right other) ∉ (lefts self).*1 → eliminate self other = Ok self) ∧
  (Some (right other) ∈ (lefts self).*1 →
   Some (right other) ∉ (lefts other).*1 →
   ∃ e, eliminate self other = Ok e ∧ right e = right self ∧
     ∀ k, k ∈ (lefts e).*1 → k ∈ (lefts self).*1 ∨ k ∈ (lefts other).*1) ∧
  (NoDup (lefts other).*1 →
   ∃ e, eliminate self (applyLoops other) = Ok e ∧ right e = right self).
Proof.
  assert (∀ k (d : list (option (gset State) * lego)),
            k ∈ d.*1 → is_Some (od_lookup k d)) as Hsome.
  { intros k d Hk. destruct (od_lookup k d) eqn:Hl; [by eauto|].
    by apply od_lookup_None in Hl. }
  assert (∀ oth, Some (right oth) ∈ (lefts self).*1 →
            Some (right oth) ∉ (lefts oth).*1 →
            ∃ e, eliminate self oth = Ok e ∧ right e = right self ∧
              ∀ k, k ∈ (lefts e).*1 →
                k ∈ (lefts self).*1 ∨ k ∈ (lefts oth).*1) as Hok.
  { intros oth Hin Hout. unfold eliminate.
    destruct (Hsome _ _ Hin) as [c Hc]. rewrite Hc.
    destruct (eliminate_lefts_keys (right oth) (lefts oth) (lefts self))
      as (lefts' & -> & Hkeys); [by eauto|done|].
    simpl. eexists. split_and!; [done..|]. simpl. intros k Hk. apply Hkeys.
    apply list_elem_of_fmap in Hk as ([k' e'] & -> & Hk). simpl.
    apply list_elem_of_fmap. exists (k', e'). split; [done|].
    clear -Hk. induction lefts' as [|[k0 e0] lefts' IH]; simpl in *; [done|].
    case_decide; [by right|].
    apply elem_of_cons in Hk as [->|Hk]; [by left|right; auto]. }
  split_and!.
  - intros Hin Hloop. unfold eliminate.
    destruct (Hsome _ _ Hin) as [c Hc]. rewrite Hc.
    rewrite eliminate_lefts_Exception; [done|by eauto|done].
  - intros Hout%od_lookup_None. unfold eliminate. by rewrite Hout.
  - apply Hok.
  - intros Hd. destruct (applyLoops_no_loop other Hd) as [Hr Hout].
    destruct (decide (Some (right other) ∈ (lefts self).*1)) as [Hin|Hin].
    + destruct (Hok (applyLoops other)) as (e & He & ? & _);
        [by rewrite Hr..|]. by exists e.
    + exists self. split; [|done]. unfold eliminate. rewrite Hr.
      apply od_lookup_None in Hin. by rewrite Hin.
Qed.

(** ** [pattern] of an automaton without final states *)

Lemma addTransition_single (k : option (gset State)) p e :
  addTransition [(k, p)] k e = [(k, lego_or p e)].
Proof.
  unfold addTransition. simpl. rewrite decide_True by done. simpl.
  by rewrite decide_True.
Qed.

Lemma equation_symbols_empty self symbols lefts0 :
  lefts0 = [] ∨ (∃ p, lefts0 = [(Some ∅, p)]) →
  ∃ lefts', equation_symbols self ∅ symbols lefts0 = Ok lefts' ∧
    (lefts' = [] ∨ ∃ p, lefts' = [(Some ∅, p)]).
Proof.
  revert lefts0. induction symbols as [|a symbols IH]; intros lefts0 Hform.
  { by exists lefts0. }
  simpl. rewrite elements_empty. simpl. apply IH.
  right. destruct Hform as [->|[p ->]].
  - case_decide; by eauto.
  - rewrite !addTransition_single. case_decide; eauto.
Qed.

(** For an automaton with no final state, [pattern] returns [nothing]: the one
    equation it builds has no transition from outside, and the lookup of
    [outside] in it fails. *)
Theorem pattern_no_finals self fuel :
  finals self = ∅ → 2 ≤ fuel → pattern fuel self = Ok nothing.
Proof.
  intros Hf Hfuel. unfold pattern, equation_init, equation_init_from.
  rewrite Hf.
  destruct (equation_symbols_empty self (sorted (elements (alphabet self))) [])
    as (lefts0 & -> & Hform); [by left|].
  simpl. rewrite decide_False by set_solver. simpl.
  destruct fuel as [|[|fuel]]; [lia..|].
  assert (pattern_record self lefts0.*1 [Equation ∅ lefts0]
          = Ok [Equation ∅ lefts0]) as Hrec.
  { destruct Hform as [->|[p ->]]; simpl; [done|].
    rewrite decide_False; [done|]. intros Hn. apply Hn. simpl. by left. }
  simpl. rewrite Hrec. simpl.
  unfold applyLoops. simpl.
  destruct Hform as [->|[p ->]]; simpl; [done|].
  rewrite decide_True by done. simpl. by rewrite decide_True by done.
Qed.

(** ** [__repr__] *)

Lemma length_append (s1 s2 : string) :
  String.length (s1 +:+ s2) = String.length s1 + String.length s2.
Proof. induction s1 as [|c s1 IH]; simpl; [done|]. by rewrite IH. Qed.

Lemma length_str_mul s n : String.length (str_mul s n) = n * String.length s.
Proof. induction n as [|n IH]; simpl; [done|]. rewrite length_append. lia. Qed.

Lemma length_ljust s width :
  String.length s ≤ width → String.length (ljust s width) = width.
Proof.
  intros Hs. unfold ljust. rewrite length_append, length_str_mul. simpl. lia.
Qed.

Lemma length_join l : String.length (join l) = sum_list (String.length <$> l).
Proof.
  induction l as [|s l IH]; csimpl; [done|]. by rewrite length_append, IH.
Qed.

Lemma sum_list_const {A} (f : A → nat) c l :
  Forall (λ x, f x = c) l → sum_list (f <$> l) = length l * c.
Proof. induction 1 as [|x l Hx _ IH]; csimpl; [done|]. by rewrite Hx, IH. Qed.

Lemma outcome_bind_Ok {A B} (a : A) (f : A → outcome B) : Ok a ≫= f = f a.
Proof. done. Qed.

Lemma mapM_seq_Ok {B} (f : nat → outcome B) (g : nat → B) n :
  (∀ x, x < n → f x = Ok (g x)) → mapM f (seq 0 n) = Ok (g <$> seq 0 n).
Proof.
  intros Hf. apply mapM_Ok_fmap, Forall_forall. intros x Hx%elem_of_seq.
  apply Hf. lia.
Qed.

Lemma fmap_seq_lookup {A B} (l : list A) (g : nat → B) (f : A → B) :
  (∀ x a, l !! x = Some a → g x = f a) → g <$> seq 0 (length l) = f <$> l.
Proof.
  intros Hg. apply list_eq. intros i. rewrite !list_lookup_fmap.
  destruct (l !! i) as [a|] eqn:Hi; simpl.
  - rewrite lookup_seq_lt by (by eapply lookup_lt_Some). simpl. f_equal.
    by apply Hg.
  - rewrite lookup_seq_ge; [done|]. by apply lookup_ge_None.
Qed.

Lemma repr_rows_Ok self :
  validated self →
  repr_rows self
  = Ok (repr_names self :: (repr_line self <$> elements (states self))).
Proof.
  intros Hv. unfold repr_rows.
  set (symbols := sorted (elements (alphabet self))).
  assert (Forall (.∈ alphabet self) symbols) as Hsym.
  { apply Forall_forall. intros a Ha. by apply elem_of_sorted_elements. }
  rewrite (mapM_Ok_fmap _ (repr_line self)); [done|].
  apply Forall_forall. intros q Hq%elem_of_elements.
  unfold repr_state, repr_cells.
  rewrite (mapM_Ok_fmap _ (λ a, str (delta self q a))); [done|].
  eapply Forall_impl; [exact Hsym|]. intros a Ha. simpl.
  destruct (delta_validated self q a) as (row & Hr & Hn & _); [done..|].
  unfold getitem. rewrite Hr. simpl. by rewrite Hn.
Qed.

Lemma length_repr_names self : length (repr_names self) = size (alphabet self) + 3.
Proof.
  unfold repr_names. simpl. rewrite length_fmap, sorted_Permutation.
  change (length (elements (alphabet self))) with (size (alphabet self)). lia.
Qed.

Lemma length_repr_line self state :
  length (repr_line self state) = size (alphabet self) + 3.
Proof.
  unfold repr_line. simpl. rewrite length_fmap, sorted_Permutation.
  change (length (elements (alphabet self))) with (size (alphabet self)). lia.
Qed.

Lemma repr_colwidths_Ok (rows : list (list string)) row0 n :
  rows !! 0 = Some row0 → Forall (λ row, length row = n) rows →
  ∃ colwidths, repr_colwidths rows = Ok colwidths ∧ length colwidths = n ∧
    ∀ x width, colwidths !! x = Some width →
      (∀ row cell, row ∈ rows → row !! x = Some cell →
         String.length cell + 1 ≤ width) ∧
      ∃ row cell, row ∈ rows ∧ row !! x = Some cell ∧
        width = String.length cell + 1.
Proof.
  intros H0 Hlen. unfold repr_colwidths.
  assert (getidx rows 0 = Ok row0) as -> by (unfold getidx; by rewrite H0).
  simpl.
  assert (length row0 = n) as ->.
  { eapply Forall_forall in Hlen; [done|]. by eapply list_elem_of_lookup_2. }
  set (col x := (λ row : list string, default "" (row !! x)) <$> rows).
  rewrite (mapM_seq_Ok _ (λ x, max_list (String.length <$> col x) + 1));
    last first.
  { intros x Hx. rewrite (mapM_Ok_fmap _ (λ row, default "" (row !! x))); [done|].
    eapply Forall_impl; [exact Hlen|]. intros row Hrow. simpl in *.
    destruct (lookup_lt_is_Some_2 row x) as [cell Hcell]; [lia|].
    unfold getidx. by rewrite Hcell. }
  eexists. split; [done|]. split; [by rewrite length_fmap, length_seq|].
  intros x width Hw.
  assert (x < n) as Hx.
  { apply lookup_lt_Some in Hw. by rewrite length_fmap, length_seq in Hw. }
  rewrite list_lookup_fmap, lookup_seq_lt in Hw by done. simpl in Hw.
  injection Hw as <-. split.
  - intros row cell Hrow Hcell.
    assert (String.length cell ≤ max_list (String.length <$> col x)); [|lia].
    apply max_list_elem_of_le, list_elem_of_fmap. exists cell. split; [done|].
    apply list_elem_of_fmap. exists row. by rewrite Hcell.
  - assert (String.length <$> col x ≠ []) as Hne.
    { unfold col. by destruct rows. }
    apply max_list_elem_of in Hne.
    apply list_elem_of_fmap in Hne as (cell & Hmax & Hcell).
    apply list_elem_of_fmap in Hcell as (row & -> & Hrow).
    destruct (lookup_lt_is_Some_2 row x) as [cell Hcell].
    { eapply Forall_forall in Hlen; [|done]. simpl in Hlen. lia. }
    exists row, cell. rewrite Hcell in Hmax. simpl in Hmax.
    split_and!; [done..|]. by rewrite Hmax.
Qed.

Lemma repr_pad_Ok colwidths (row : list string) :
  length row = length colwidths →
  repr_pad colwidths row = Ok (zip_with ljust row colwidths).
Proof.
  intros Hlen. unfold repr_pad.
  rewrite (mapM_seq_Ok _ (λ x, ljust (default "" (row !! x))
                                      (default 0 (colwidths !! x))));
    last first.
  { intros x Hx. unfold getidx.
    destruct (lookup_lt_is_Some_2 row x) as [cell ->]; [lia|].
    destruct (lookup_lt_is_Some_2 colwidths x) as [w ->]; [lia|]. done. }
  f_equal. apply list_eq. intros i.
  rewrite list_lookup_fmap, lookup_zip_with.
  destruct (row !! i) as [cell|] eqn:Hcell; simpl.
  - rewrite lookup_seq_lt by (by eapply lookup_lt_Some). simpl.
    rewrite Hcell.
    destruct (lookup_lt_is_Some_2 colwidths i) as [w ->]; [|done].
    rewrite <- Hlen. by eapply lookup_lt_Some.
  - rewrite lookup_seq_ge; [done|]. by apply lookup_ge_None.
Qed.

Lemma length_padded colwidths (row : list string) :
  length row = length colwidths →
  (∀ x cell width, row !! x = Some cell → colwidths !! x = Some width →
                   String.length cell + 1 ≤ width) →
  String.length <$> zip_with ljust row colwidths = colwidths.
Proof.
  intros Hlen Hw. apply list_eq. intros i.
  rewrite list_lookup_fmap, lookup_zip_with.
  destruct (colwidths !! i) as [w|] eqn:Hi.
  - destruct (lookup_lt_is_Some_2 row i) as [cell Hcell].
    { rewrite Hlen. by eapply lookup_lt_Some. }
    rewrite Hcell. simpl. f_equal. apply length_ljust.
    specialize (Hw _ _ _ Hcell Hi). lia.
  - destruct (row !! i) as [cell|] eqn:Hcell; [|done].
    apply lookup_lt_Some in Hcell. apply lookup_ge_None in Hi. lia.
Qed.

Lemma repr_rule_Ok colwidths (rows : list (list string)) row0 :
  rows !! 0 = Some row0 → length row0 = length colwidths →
  repr_rule colwidths rows = Ok (str_mul "-" <$> colwidths).
Proof.
  intros H0 Hlen. unfold repr_rule.
  assert (getidx rows 0 = Ok row0) as -> by (unfold getidx; by rewrite H0).
  simpl.
  rewrite (mapM_seq_Ok _ (λ x, str_mul "-" (default 0 (colwidths !! x)))).
  - f_equal. rewrite Hlen. apply fmap_seq_lookup. by intros x w ->.
  - intros x Hx. unfold getidx.
    destruct (lookup_lt_is_Some_2 colwidths x) as [w ->]; [lia|]. done.
Qed.

(** [__repr__] returns a rectangular table.  On a validated automaton it
    returns the line of the names of the columns, a line of dashes, and one
    line per state, with the mark of the initial state, the name of the
    state, its finality and its transitions.  There are three columns and
    one per symbol; the width of a column is one more than the length of its
    longest entry (the names included); every cell is its entry with spaces
    on its right up to the width of its column, so that all lines have the
    same length. *)
Theorem repr_rectangular self :
  validated self →
  ∃ colwidths,
    length colwidths = size (alphabet self) + 3 ∧
    (∀ x width, colwidths !! x = Some width →
       (∀ row cell,
          row ∈ repr_names self :: (repr_line self <$> elements (states self)) →
          row !! x = Some cell → String.length cell + 1 ≤ width) ∧
       ∃ row cell,
         row ∈ repr_names self :: (repr_line self <$> elements (states self)) ∧
         row !! x = Some cell ∧ width = String.length cell + 1) ∧
    let rows :=
      zip_with ljust (repr_names self) colwidths
      :: (str_mul "-" <$> colwidths)
      :: ((λ state, zip_with ljust (repr_line self state) colwidths)
          <$> elements (states self)) in
    repr_table self = Ok rows ∧
    __repr__ self = Ok (join ((λ row, join row +:+ newline) <$> rows)) ∧
    Forall (λ row, String.length <$> row = colwidths) rows ∧
    String.length (join ((λ row, join row +:+ newline) <$> rows))
    = (size (states self) + 2) * (sum_list colwidths + 1).
Proof.
  intros Hv. pose proof (repr_rows_Ok self Hv) as Hrows.
  set (raw := repr_names self :: (repr_line self <$> elements (states self)))
    in *.
  assert (Forall (λ row, length row = size (alphabet self) + 3) raw) as Hcols.
  { constructor; [apply length_repr_names|].
    apply Forall_fmap, Forall_forall. intros q _. apply length_repr_line. }
  destruct (repr_colwidths_Ok raw (repr_names self) (size (alphabet self) + 3))
    as (colwidths & Hcw & Hcwlen & Hwide); [done..|].
  exists colwidths. split; [done|]. split; [done|].
  set (pad := λ row : list string, zip_with ljust row colwidths).
  assert (mapM (repr_pad colwidths) raw = Ok (pad <$> raw)) as Hpadded.
  { apply mapM_Ok_fmap. eapply Forall_impl; [exact Hcols|].
    intros row Hrow. simpl in Hrow. apply repr_pad_Ok. by rewrite Hcwlen. }
  assert (∀ row, row ∈ raw → String.length <$> pad row = colwidths) as Hlens.
  { intros row Hrow. apply length_padded.
    - eapply Forall_forall in Hcols; [|done]. simpl in Hcols.
      by rewrite Hcwlen.
    - intros x cell width Hcell Hw. destruct (Hwide x width Hw) as [Hle _].
      by apply (Hle row). }
  assert (repr_rule colwidths (pad <$> raw) = Ok (str_mul "-" <$> colwidths))
    as Hrule.
  { apply (repr_rule_Ok _ _ (pad (repr_names self))); [done|].
    unfold pad. rewrite length_zip_with, length_repr_names. lia. }
  assert (repr_table self
          = Ok (pad (repr_names self) :: (str_mul "-" <$> colwidths)
                :: (pad <$> (repr_line self <$> elements (states self)))))
    as Htable.
  { unfold repr_table.
    rewrite Hrows, outcome_bind_Ok, Hcw, outcome_bind_Ok, Hpadded,
      outcome_bind_Ok, Hrule, outcome_bind_Ok.
    done. }
  rewrite <- list_fmap_compose in Htable.
  assert (Forall (λ row, String.length <$> row = colwidths)
            (pad (repr_names self) :: (str_mul "-" <$> colwidths)
             :: ((λ state, pad (repr_line self state))
                 <$> elements (states self)))) as Hall.
  { apply Forall_cons. split; [apply Hlens; by left|].
    apply Forall_cons. split.
    - rewrite <- list_fmap_compose.
      rewrite <- (list_fmap_id colwidths) at 2. apply list_fmap_ext.
      intros i w _. simpl. rewrite length_str_mul. simpl. lia.
    - apply Forall_fmap, Forall_forall. intros q Hq. simpl. apply Hlens.
      right. apply list_elem_of_fmap. by exists q. }
  cbv zeta. split_and!; [exact Htable| |exact Hall|].
  - unfold __repr__. by rewrite Htable.
  - rewrite length_join, <- list_fmap_compose.
    rewrite (sum_list_const _ (sum_list colwidths + 1)).
    + simpl. rewrite length_fmap.
      change (length (elements (states self))) with (size (states self)). lia.
    + eapply Forall_impl; [exact Hall|]. intros row Hrow. simpl.
      by rewrite length_append, length_join, Hrow.
Qed.

End Fsm.

(** Equality of outcomes and of automata is decidable. *)
#[global] Instance bad_fsm_eq_dec : EqDecision bad_fsm.
Proof. solve_decision. Defined.

#[global] Instance exn_eq_dec : EqDecision exn.
Proof. solve_decision. Defined.

#[global] Instance outcome_eq_dec `{EqDecision A} : EqDecision (outcome A).
Proof. solve_decision. Defined.

#[global] Instance fsm_eq_dec `{Countable symbol} : EqDecision (@fsm symbol _ _).
Proof. solve_decision. Defined.

(** * The automata of the module's tests *)

(** Python values as symbols: strings, ints, and one value in the place of
    [lego.otherchars]. *)
Inductive Symbol : Type :=
  | Chr (c : string)
  | Int (n : Z)
  | Otherchars.

#[global] Instance Symbol_eq_dec : EqDecision Symbol.
Proof. solve_decision. Defined.

#[global] Instance Symbol_countable : Countable Symbol :=
  inj_countable'
    (λ a, match a with
          | Chr c => inl c
          | Int n => inr (inl n)
          | Otherchars => inr (inr ())
          end)
    (λ x, match x with
          | inl c => Chr c
          | inr (inl n) => Int n
          | inr (inr ()) => Otherchars
          end)
    (λ a, match a with Chr _ | Int _ | Otherchars => eq_refl end).

#[global] Instance Symbol_str : Str Symbol := λ a,
  match a with
  | Chr c => c
  | Int n => pretty n
  | Otherchars => "None"
  end.

(** A row of a transition map, from its list of bindings. *)
Definition row (l : list (Symbol * State)) : gmap Symbol State := list_to_map l.

(** The automaton [a] of the tests: it accepts ["a"]. *)
Definition test_a : fsm :=
  Fsm (list_to_set [Chr "a"; Chr "b"])
      (list_to_set [SInt 0; SInt 1; SStr "ob"]) (SInt 0) (list_to_set [SInt 1])
      (list_to_map
         [(SInt 0, row [(Chr "a", SInt 1); (Chr "b", SStr "ob")]);
          (SInt 1, row [(Chr "a", SStr "ob"); (Chr "b", SStr "ob")]);
          (SStr "ob", row [(Chr "a", SStr "ob"); (Chr "b", SStr "ob")])]).

(** The automaton [b] of the tests: it accepts ["b"]. *)
Definition test_b : fsm :=
  Fsm (list_to_set [Chr "a"; Chr "b"])
      (list_to_set [SInt 0; SInt 1; SStr "ob"]) (SInt 0) (list_to_set [SInt 1])
      (list_to_map
         [(SInt 0, row [(Chr "a", SStr "ob"); (Chr "b", SInt 1)]);
          (SInt 1, row [(Chr "a", SStr "ob"); (Chr "b", SStr "ob")]);
          (SStr "ob", row [(Chr "a", SStr "ob"); (Chr "b", SStr "ob")])]).

(** The automaton [merged] of the tests, [0*1] with states to merge. *)
Definition test_merged : fsm :=
  Fsm (list_to_set [Chr "0"; Chr "1"])
      (list_to_set [SInt 1; SInt 2; SInt 3; SInt 4; SStr "oblivion"]) (SInt 1)
      (list_to_set [SInt 4])
      (list_to_map
         [(SInt 1, row [(Chr "0", SInt 2); (Chr "1", SInt 4)]);
          (SInt 2, row [(Chr "0", SInt 3); (Chr "1", SInt 4)]);
          (SInt 3, row [(Chr "0", SInt 3); (Chr "1", SInt 4)]);
          (SInt 4, row [(Chr "0", SStr "oblivion"); (Chr "1", SStr "oblivion")]);
          (SStr "oblivion",
           row [(Chr "0", SStr "oblivion"); (Chr "1", SStr "oblivion")])]).

(** The automaton of the test of [pattern], for [0[01]]. *)
Definition test_pattern : fsm :=
  Fsm (list_to_set [Chr "0"; Chr "1"])
      (list_to_set [SInt 0; SInt 1; SInt 2; SInt 3]) (SInt 3)
      (list_to_set [SInt 1])
      (list_to_map
         [(SInt 0, row [(Chr "0", SInt 1); (Chr "1", SInt 1)]);
          (SInt 1, row [(Chr "0", SInt 2); (Chr "1", SInt 2)]);
          (SInt 2, row [(Chr "0", SInt 2); (Chr "1", SInt 2)]);
          (SInt 3, row [(Chr "0", SInt 0); (Chr "1", SInt 2)])]).

(** An automaton over the int [1] and the string ["1"], which have one [str]:
    it accepts the int alone. *)
Definition test_one : fsm :=
  Fsm (list_to_set [Int 1; Chr "1"])
      (list_to_set [SInt 0; SInt 1; SInt 2]) (SInt 0) (list_to_set [SInt 1])
      (list_to_map
         [(SInt 0, row [(Int 1, SInt 1); (Chr "1", SInt 2)]);
          (SInt 1, row [(Int 1, SInt 2); (Chr "1", SInt 2)]);
          (SInt 2, row [(Int 1, SInt 2); (Chr "1", SInt 2)])]).

(** An automaton without final states. *)
Definition test_dead : fsm :=
  Fsm (list_to_set [Chr "a"; Chr "b"]) (list_to_set [SInt 0]) (SInt 0) ∅
      (list_to_map [(SInt 0, row [(Chr "a", SInt 0); (Chr "b", SInt 0)])]).

(** What the crawl of [test_one | test_one] returns when the alphabet is
    enumerated with the string before the int: the states [1] and [2] of
    [test_one] have changed places. *)
Definition test_one_swapped : fsm :=
  Fsm (list_to_set [Int 1; Chr "1"])
      (list_to_set [SInt 0; SInt 1; SInt 2]) (SInt 0) (list_to_set [SInt 2])
      (list_to_map
         [(SInt 0, row [(Int 1, SInt 2); (Chr "1", SInt 1)]);
          (SInt 1, row [(Int 1, SInt 1); (Chr "1", SInt 1)]);
          (SInt 2, row [(Int 1, SInt 1); (Chr "1", SInt 1)])]).


(** * The properties on the automata of the tests *)

Lemma test_a_validated : validated test_a.
Proof. apply validated_check_validated. by vm_compute. Qed.

Lemma test_b_validated : validated test_b.
Proof. apply validated_check_validated. by vm_compute. Qed.

Lemma test_merged_valid : valid test_merged.
Proof. apply valid_check_valid. by vm_compute. Qed.


Lemma test_alphabets_equal : alphabet test_b = alphabet test_a.
Proof. done. Qed.

Lemma test_alphabets_differ : alphabet test_pattern ≠ alphabet test_a.
Proof.
  intros Heq. apply (f_equal (λ X, bool_decide (Chr "a" ∈ X))) in Heq.
  vm_compute in Heq. discriminate.
Qed.




Lemma and_or_set_semantics_witness :
  validated test_a ∧ validated test_b ∧ alphabet test_b = alphabet test_a ∧
  ∃ n, ∀ fuel, n ≤ fuel →
    ∃ both either,
      __and__ fuel test_a test_b = Ok both ∧
      __or__ fuel test_a test_b = Ok either ∧
      ∀ input, Forall (.∈ alphabet test_a) input →
        (accepts both input = Ok true ↔
           accepts test_a input = Ok true ∧ accepts test_b input = Ok true) ∧
        (accepts either input = Ok true ↔
           accepts test_a input = Ok true ∨ accepts test_b input = Ok true).
Proof.
  split_and!; [exact test_a_validated|exact test_b_validated|
               exact test_alphabets_equal|].
  apply and_or_set_semantics;
    [exact test_a_validated|exact test_b_validated|exact test_alphabets_equal].
Defined.

Lemma concat_epsilon_identity_witness :
  validated test_a ∧
  ∃ n, ∀ fuel, n ≤ fuel →
    ∃ e left right,
      epsilon (alphabet test_a) = Ok e ∧
      __add__ fuel test_a e = Ok left ∧
      __add__ fuel e test_a = Ok right ∧
      ∀ input, Forall (.∈ alphabet test_a) input →
        accepts left input = accepts test_a input ∧
        accepts right input = accepts test_a input.
Proof.
  split; [exact test_a_validated|].
  apply concat_epsilon_identity. exact test_a_validated.
Defined.

Lemma star_idempotent_witness :
  validated test_a ∧
  ∃ n, ∀ fuel, n ≤ fuel →
    ∃ once twice,
      star fuel test_a = Ok once ∧
      star fuel once = Ok twice ∧
      ∀ input, Forall (.∈ alphabet test_a) input →
        accepts twice input = accepts once input ∧
        (accepts once input = Ok true ↔
         in_star (λ u, accepts test_a u = Ok true) input).
Proof.
  split; [exact test_a_validated|].
  apply star_idempotent. exact test_a_validated.
Defined.

Lemma automerge_minimizes_witness :
  valid test_merged ∧
  (∀ new, trymerge test_merged = Ok (true, new) →
     valid new ∧ size (states new) < size (states test_merged)) ∧
  ∀ fuel, size (states test_merged) ≤ fuel →
    ∃ new, automerge fuel test_merged = Ok new ∧
      (∀ this that, this ∈ states new → that ∈ states new → that ≠ this →
         equivalent new this that = Ok false) ∧
      size (states new) ≤ size (states test_merged).
Proof.
  split; [exact test_merged_valid|].
  apply automerge_minimizes. exact test_merged_valid.
Defined.

Lemma alphabet_mismatch_witness :
  alphabet test_pattern ≠ alphabet test_a ∧
  __add__ 0 test_a test_pattern = Raise Exception ∧
  __or__ 0 test_a test_pattern = Raise Exception ∧
  __and__ 0 test_a test_pattern = Raise Exception.
Proof.
  split; [exact test_alphabets_differ|].
  apply alphabet_mismatch. exact test_alphabets_differ.
Defined.

Lemma mul_max_below_min_witness :
  validated test_a ∧ (1 < 2)%Z ∧
  ∃ n, ∀ fuel, n ≤ fuel →
    ∃ result,
      __mul__ fuel test_a (2%Z, Some 1%Z) = Ok result ∧
      __mul__ fuel test_a (2%Z, Some 2%Z) = Ok result ∧
      ∀ input, Forall (.∈ alphabet test_a) input →
        ∃ b, accepts result input = Ok b ∧
          (b = true ↔ in_power (λ u, accepts test_a u = Ok true) 2 input).
Proof.
  split_and!; [exact test_a_validated|lia|].
  apply (mul_max_below_min test_a 2 1); [exact test_a_validated|lia].
Defined.

(** C9. The iteration over the alphabet is not in one fixed order, and two
    runs on the same automata can return different automata.
    [sorted(alphabet, key=str)] is stable, and the int [1] and the string
    ["1"] have the same [str]: they come out in the order in which the set
    enumerates them.  For the two enumerations of the alphabet of [test_one],
    the crawl of [test_one | test_one] numbers the states in two ways, and
    returns two automata, with the final state [1] in one and [2] in the
    other. *)
Lemma sorted_iteration_counterexample :
  [Int 1; Chr "1"] ≡ₚ elements (alphabet test_one) ∧
  [Chr "1"; Int 1] ≡ₚ elements (alphabet test_one) ∧
  (∀ fuel, 4 ≤ fuel →
     _crawl_from (or_isFinal test_one test_one) (or_getNext test_one test_one)
       (sorted [Int 1; Chr "1"]) fuel (alphabet test_one)
       (initial test_one, initial test_one) = Ok test_one ∧
     _crawl_from (or_isFinal test_one test_one) (or_getNext test_one test_one)
       (sorted [Chr "1"; Int 1]) fuel (alphabet test_one)
       (initial test_one, initial test_one) = Ok test_one_swapped) ∧
  finals test_one = {[SInt 1]} ∧ finals test_one_swapped = {[SInt 2]} ∧
  test_one ≠ test_one_swapped.
Proof.
  split_and!.
  - vm_compute. reflexivity || apply perm_swap.
  - vm_compute. reflexivity || apply perm_swap.
  - intros [|[|[|[|fuel]]]] Hfuel; [lia..|].
    split; apply (bool_decide_unpack _); by vm_compute.
  - apply (bool_decide_unpack _). by vm_compute.
  - apply (bool_decide_unpack _). by vm_compute.
  - intros Heq.
    apply (f_equal (λ m, bool_decide (SInt 1 ∈ finals m))) in Heq.
    vm_compute in Heq. discriminate.
Qed.

(** * The further properties on the automata of the tests *)

Lemma test_merged_equivalent :
  equivalent test_merged (SInt 2) (SInt 3) = Ok true.
Proof. by vm_compute. Qed.

Lemma test_merged_size : size (states test_merged) ≤ 5.
Proof. vm_compute. lia. Qed.

Lemma automerge_accepts_witness :
  valid test_merged ∧ size (states test_merged) ≤ 5 ∧
  ∃ new, automerge 5 test_merged = Ok new ∧ valid new ∧
    alphabet new = alphabet test_merged ∧ states new ⊆ states test_merged ∧
    ∀ input, Forall (.∈ alphabet test_merged) input →
      accepts new input = accepts test_merged input.
Proof.
  split_and!; [exact test_merged_valid|exact test_merged_size|].
  apply automerge_accepts; [exact test_merged_valid|exact test_merged_size].
Defined.

Lemma trymerge_drops_one_witness :
  valid test_merged ∧
  ∃ new, trymerge test_merged = Ok (true, new) ∧
    ∃ this that, this ∈ states test_merged ∧ that ∈ states test_merged ∧
      that ≠ this ∧ equivalent test_merged this that = Ok true ∧
      states new = states test_merged ∖ {[this]} ∧
      finals new = finals test_merged ∖ {[this]} ∧
      initial new = (if decide (initial test_merged = this) then that
                     else initial test_merged) ∧
      size (states new) + 1 = size (states test_merged).
Proof.
  split; [exact test_merged_valid|].
  destruct (trymerge_total test_merged test_merged_valid)
    as (keepMerging & new & Htry).
  destruct keepMerging.
  - exists new. split; [done|].
    exact (trymerge_drops_one test_merged new test_merged_valid Htry).
  - exfalso. apply trymerge_Ok in Htry as [_ Hno].
    specialize (Hno (SInt 2) (SInt 3)). rewrite test_merged_equivalent in Hno.
    assert (Ok true = Ok false) as Heq; [|discriminate Heq].
    apply Hno; [set_solver..|discriminate].
Defined.

Lemma equivalent_refl_witness :
  validated test_a ∧ SInt 0 ∈ states test_a ∧
  equivalent test_a (SInt 0) (SInt 0) = Ok true.
Proof.
  assert (SInt 0 ∈ states test_a) as Hin by set_solver.
  split_and!; [exact test_a_validated|exact Hin|].
  apply equivalent_refl; [exact test_a_validated|exact Hin].
Defined.

Lemma equivalent_sound_witness :
  validated test_merged ∧ SInt 2 ∈ states test_merged ∧
  SInt 3 ∈ states test_merged ∧
  equivalent test_merged (SInt 2) (SInt 3) = Ok true ∧
  Forall (.∈ alphabet test_merged) [Chr "0"; Chr "1"] ∧
  ∃ end1 end2, walk test_merged (SInt 2) [Chr "0"; Chr "1"] = Ok end1 ∧
    walk test_merged (SInt 3) [Chr "0"; Chr "1"] = Ok end2 ∧
    (end1 ∈ finals test_merged ↔ end2 ∈ finals test_merged).
Proof.
  assert (SInt 2 ∈ states test_merged) as H2 by set_solver.
  assert (SInt 3 ∈ states test_merged) as H3 by set_solver.
  assert (Forall (.∈ alphabet test_merged) [Chr "0"; Chr "1"]) as Hin.
  { repeat constructor; set_solver. }
  pose proof (valid_validated _ test_merged_valid) as Hvd.
  split_and!; [exact Hvd|exact H2|exact H3|exact test_merged_equivalent|
               exact Hin|].
  exact (equivalent_sound test_merged (SInt 2) (SInt 3) _ Hvd H2 H3
           test_merged_equivalent Hin).
Defined.

Lemma accepts_outside_alphabet_witness :
  valid test_merged ∧ ¬ Forall (.∈ alphabet test_merged) [Chr "0"; Chr "a"] ∧
  accepts test_merged [Chr "0"; Chr "a"] = Raise KeyError.
Proof.
  assert (¬ Forall (.∈ alphabet test_merged) [Chr "0"; Chr "a"]) as Hout.
  { intros [_ [Ha _]%Forall_cons]%Forall_cons. set_solver. }
  split_and!; [exact test_merged_valid|exact Hout|].
  apply accepts_outside_alphabet; [exact test_merged_valid|exact Hout].
Defined.

Lemma add_accepts_concat_witness :
  validated test_a ∧ validated test_b ∧ alphabet test_b = alphabet test_a ∧
  ∃ n, ∀ fuel, n ≤ fuel →
    ∃ result, __add__ fuel test_a test_b = Ok result ∧
      ∀ input, Forall (.∈ alphabet test_a) input →
        ∃ b, accepts result input = Ok b ∧
          (b = true ↔
           ∃ u v, input = u ++ v ∧
             accepts test_a u = Ok true ∧ accepts test_b v = Ok true).
Proof.
  split_and!; [exact test_a_validated|exact test_b_validated|
               exact test_alphabets_equal|].
  apply add_accepts_concat;
    [exact test_a_validated|exact test_b_validated|exact test_alphabets_equal].
Defined.

Lemma operators_closed_witness :
  validated test_a ∧ validated test_b ∧ alphabet test_b = alphabet test_a ∧
  ∃ n, ∀ fuel, n ≤ fuel →
    ∃ sum either both closure,
      __add__ fuel test_a test_b = Ok sum ∧
      __or__ fuel test_a test_b = Ok either ∧
      __and__ fuel test_a test_b = Ok both ∧
      star fuel test_a = Ok closure ∧
      Forall (λ result, valid result ∧ alphabet result = alphabet test_a ∧
                        merged result) [sum; either; both; closure].
Proof.
  split_and!; [exact test_a_validated|exact test_b_validated|
               exact test_alphabets_equal|].
  apply operators_closed;
    [exact test_a_validated|exact test_b_validated|exact test_alphabets_equal].
Defined.

Lemma mul_accepts_copies_witness :
  validated test_a ∧
  ∃ n, ∀ fuel, n ≤ fuel →
    ∃ result, __mul__ fuel test_a (1%Z, Some 3%Z) = Ok result ∧
      ∀ input, Forall (.∈ alphabet test_a) input →
        ∃ b, accepts result input = Ok b ∧
          (b = true ↔
           ∃ k, Z.to_nat 1 ≤ k ∧ k ≤ Z.to_nat 1 + Z.to_nat (3 - 1) ∧
             in_power (λ u, accepts test_a u = Ok true) k input).
Proof.
  split; [exact test_a_validated|].
  apply (mul_accepts_copies test_a 1 (Some 3%Z)). exact test_a_validated.
Defined.

Lemma crawl_correct_witness :
  (∀ input, Forall (.∈ alphabet test_a) input →
     foldl (λ x _, negb x) false input ∈ [false; true] ∧
     Ok (foldl (λ x _, negb x) false input)
     = Ok (id (foldl (λ x _, negb x) false input)) ∧
     ∀ a, a ∈ alphabet test_a →
       Ok (negb (foldl (λ x _, negb x) false input))
       = Ok (negb (foldl (λ x _, negb x) false input))) ∧
  length [false; true] < 3 ∧
  ∃ result,
    _crawl (λ x : bool, Ok x) (λ x _, Ok (negb x)) 3 (alphabet test_a) false
    = Ok result ∧
    valid result ∧ alphabet result = alphabet test_a ∧
    size (states result) ≤ length [false; true] ∧
    ∀ input, Forall (.∈ alphabet test_a) input →
      accepts result input = Ok (id (foldl (λ x _, negb x) false input)).
Proof.
  assert (∀ input : list Symbol, Forall (.∈ alphabet test_a) input →
     foldl (λ x _, negb x) false input ∈ [false; true] ∧
     Ok (foldl (λ x _, negb x) false input)
     = Ok (id (foldl (λ x _, negb x) false input)) ∧
     ∀ a : Symbol, a ∈ alphabet test_a →
       Ok (negb (foldl (λ x _, negb x) false input))
       = Ok (negb (foldl (λ x _, negb x) false input))) as Hreach.
  { intros input _. split_and!; [|done..].
    destruct (foldl _ _ _); [by right; left|by left]. }
  assert (length [false; true] < 3) as Hfuel by (simpl; lia).
  split_and!; [exact Hreach|exact Hfuel|].
  exact (crawl_correct (λ x : bool, Ok x) (λ x _, Ok (negb x)) (alphabet test_a)
           false id (λ x _, negb x) [false; true] 3 Hreach Hfuel).
Defined.

Lemma test_a_alphabet_nonempty : alphabet test_a ≠ ∅.
Proof.
  intros Heq. assert (Chr "a" ∈ alphabet test_a) by set_solver. set_solver.
Qed.

Lemma crawl_unbounded_witness :
  alphabet test_a ≠ ∅ ∧ (∀ n : nat, ∃ b, Ok false = Ok b) ∧
  _crawl (λ _ : nat, Ok false) (λ n _, Ok (S n)) 7 (alphabet test_a) 0
  = OutOfFuel.
Proof.
  assert (∀ n : nat, ∃ b, Ok false = Ok b) as Hfinal by (intros _; by exists false).
  split_and!; [exact test_a_alphabet_nonempty|exact Hfinal|].
  exact (crawl_unbounded (λ _ : nat, Ok false) (alphabet test_a) 7
           test_a_alphabet_nonempty Hfinal).
Defined.

Lemma replace_KeyError_witness :
  validated test_a ∧
  (¬ map_closed test_a → replace test_a (SInt 0) (SInt 1) = Raise KeyError) ∧
  (map_closed test_a →
   ∃ new, replace test_a (SInt 0) (SInt 1) = Ok new ∧ validated new ∧
     alphabet new = alphabet test_a ∧
     states new = set_map (rename (SInt 0) (SInt 1)) (states test_a) ∧
     initial new = rename (SInt 0) (SInt 1) (initial test_a) ∧
     finals new = set_map (rename (SInt 0) (SInt 1)) (finals test_a)).
Proof.
  split; [exact test_a_validated|].
  apply replace_KeyError. exact test_a_validated.
Defined.

Lemma replace_unchanged_witness :
  valid test_merged ∧ ((SInt 7 ∉ states test_merged) ∨ SInt 7 = SInt 1) ∧
  replace test_merged (SInt 7) (SInt 1) = Ok test_merged.
Proof.
  assert (SInt 7 ∉ states test_merged ∨ SInt 7 = SInt 1) as Hcase.
  { left. set_solver. }
  split_and!; [exact test_merged_valid|exact Hcase|].
  apply replace_unchanged; [exact test_merged_valid|exact Hcase].
Defined.

Lemma replace_renames_witness :
  valid test_merged ∧ (SInt 7 ∉ states test_merged) ∧
  ∃ new, replace test_merged (SInt 1) (SInt 7) = Ok new ∧ valid new ∧
    alphabet new = alphabet test_merged ∧
    states new = set_map (rename (SInt 1) (SInt 7)) (states test_merged) ∧
    size (states new) = size (states test_merged) ∧
    ∀ input, Forall (.∈ alphabet test_merged) input →
      accepts new input = accepts test_merged input.
Proof.
  assert (SInt 7 ∉ states test_merged) as Hfresh by set_solver.
  split_and!; [exact test_merged_valid|exact Hfresh|].
  apply replace_renames; [exact test_merged_valid|exact Hfresh].
Defined.

Lemma pattern_no_finals_witness :
  finals test_dead = ∅ ∧ 2 ≤ 2 ∧ pattern Otherchars 2 test_dead = Ok nothing.
Proof.
  split_and!; [done|lia|]. apply pattern_no_finals; [done|lia].
Defined.

Lemma star_omega_least_witness :
  size (states test_a) < 4 ∧
  ∃ omega, star_omega 4 test_a 0 = Ok omega ∧
    (0 ≤ omega ≤ Z.of_nat (size (states test_a)))%Z ∧
    (SInt omega ∉ states test_a) ∧
    ∀ k, (0 ≤ k < omega)%Z → SInt k ∈ states test_a.
Proof.
  assert (size (states test_a) < 4) as Hfuel by (vm_compute; lia).
  split; [exact Hfuel|]. apply star_omega_least. exact Hfuel.
Defined.

Lemma null_absorbs_witness :
  validated test_a ∧
  ∃ n, ∀ fuel, n ≤ fuel →
    ∃ nul either both sum sum',
      null (alphabet test_a) = Ok nul ∧
      __or__ fuel test_a nul = Ok either ∧
      __and__ fuel test_a nul = Ok both ∧
      __add__ fuel test_a nul = Ok sum ∧
      __add__ fuel nul test_a = Ok sum' ∧
      ∀ input, Forall (.∈ alphabet test_a) input →
        accepts either input = accepts test_a input ∧
        accepts both input = Ok false ∧
        accepts sum input = Ok false ∧
        accepts sum' input = Ok false.
Proof.
  split; [exact test_a_validated|]. apply null_absorbs. exact test_a_validated.
Defined.

Lemma automerge_idempotent_witness :
  valid test_merged ∧ size (states test_merged) ≤ 5 ∧
  ∃ new, automerge 5 test_merged = Ok new ∧ merged new ∧
    trymerge new = Ok (false, new) ∧ automerge 5 new = Ok new.
Proof.
  split_and!; [exact test_merged_valid|exact test_merged_size|].
  apply automerge_idempotent; [exact test_merged_valid|exact test_merged_size].
Defined.

Lemma repr_rectangular_witness :
  validated test_a ∧
  ∃ colwidths,
    length colwidths = size (alphabet test_a) + 3 ∧
    (∀ x width, colwidths !! x = Some width →
       (∀ row cell,
          row ∈ repr_names test_a
                :: (repr_line test_a <$> elements (states test_a)) →
          row !! x = Some cell → String.length cell + 1 ≤ width) ∧
       ∃ row cell,
         row ∈ repr_names test_a
               :: (repr_line test_a <$> elements (states test_a)) ∧
         row !! x = Some cell ∧ width = String.length cell + 1) ∧
    let rows :=
      zip_with ljust (repr_names test_a) colwidths
      :: (str_mul "-" <$> colwidths)
      :: ((λ state, zip_with ljust (repr_line test_a state) colwidths)
          <$> elements (states test_a)) in
    repr_table test_a = Ok rows ∧
    __repr__ test_a = Ok (join ((λ row, join row +:+ newline) <$> rows)) ∧
    Forall (λ row, String.length <$> row = colwidths) rows ∧
    String.length (join ((λ row, join row +:+ newline) <$> rows))
    = (size (states test_a) + 2) * (sum_list colwidths + 1).
Proof.
  split; [exact test_a_validated|]. apply repr_rectangular.
  exact test_a_validated.
Defined.
